(** * Tangerine: scheduler-side data structures, shape cache and repaint fence

  A shallow embedding of the parts of [parallel_task.h], [sdf_model.h],
  [sdf_model.cpp] and [sdf_rendering.cpp] that the specification talks
  about, followed by the properties established for them.

  Conventions.
  - [size_t] and [uint64_t] are [Z] values in [0, 2^64); every C++
    addition on them is written with its wrap-around ([wrap64]).
  - [int] and [std::atomic_int] are [Z] values in [-2^31, 2^31)
    ([wrap_int]); the implicit conversion of an [int] to [size_t] in a
    mixed comparison is [int_to_size_t].
  - [std::vector] is [list]; an unchecked [operator[]] outside the
    vector is undefined behaviour and is modelled by [None].
  - [std::shared_ptr] / [std::weak_ptr] are handles into a table of
    strong counts; [std::unique_ptr] is an [option].
  - Atomic operations and mutex-guarded regions are single steps of an
    interleaving semantics. *)

From Stdlib Require Import ZArith Lia Bool.
From Stdlib Require String Ascii.
From Stdlib.Strings Require Byte.
From stdpp Require Import base list gmap.

Local Open Scope Z_scope.

(* ===================================================================== *)
(** * Part I: the embedding                                               *)
(* ===================================================================== *)

(** ** Machine integers *)

(** Wrap of a [size_t] or [uint64_t] result. *)
Definition wrap64 (z : Z) : Z := z mod 2 ^ 64.

(** Two's-complement wrap of a 32-bit signed integer. *)
Definition wrap_int (z : Z) : Z := (z + 2 ^ 31) mod 2 ^ 32 - 2 ^ 31.
(** Conversion of an [int] to [size_t] (modulo 2^64). *)
Definition int_to_size_t (z : Z) : Z := z mod 2 ^ 64.
(** Conversion of a [size_t] to [int] (modulo 2^32, signed). *)
Definition size_t_to_int (z : Z) : Z := wrap_int z.

(** ** The repaint fence ([sdf_model.cpp], anonymous namespace) *)

Module Repaint.

(** The two file-level globals. *)
Record Globals : Type := MkGlobals {
  RepaintFence : Z;          (* std::atomic<uint64_t>, starts at 1 *)
  RepaintRequested : bool    (* starts false *)
}.

Definition initial : Globals :=
  {| RepaintFence := 1; RepaintRequested := false |}.

Definition FlagSceneRepaint (g : Globals) : Globals :=
  {| RepaintFence := RepaintFence g; RepaintRequested := true |}.

Definition PostPendingRepaintRequest (g : Globals) : Globals :=
  if RepaintRequested g then
    {| RepaintFence := wrap64 (RepaintFence g + 1);
       RepaintRequested := false |}
  else g.

(** [InstanceColoringGroup::StartRepaint], on the group's [LastRepaint]
    stamp.  Returns [ColorIsCurrent] and the new stamp. *)
Definition StartRepaint (g : Globals) (LastRepaint : Z) : bool * Z :=
  let CurrentFence := RepaintFence g in
  let ColorIsCurrent := LastRepaint =? CurrentFence in
  if negb ColorIsCurrent then (ColorIsCurrent, CurrentFence)
  else (ColorIsCurrent, LastRepaint).

(** The calls a frame loop and a material-evaluation stage make, seen
    from one coloring group. *)
Inductive Op : Type :=
| Flag          (* FlagSceneRepaint() *)
| Post          (* PostPendingRepaintRequest() *)
| Start.        (* this group's StartRepaint() *)

Record World : Type := MkWorld {
  globals : Globals;
  LastRepaint : Z            (* uint64_t LastRepaint = 0 *)
}.

Definition fresh : World := {| globals := initial; LastRepaint := 0 |}.

(** One call; a [Start] call is logged with the fence value it read and
    the boolean it returned. *)
Definition step (w : World) (o : Op) : World * list (Z * bool) :=
  match o with
  | Flag => ({| globals := FlagSceneRepaint (globals w);
                LastRepaint := LastRepaint w |}, [])
  | Post => ({| globals := PostPendingRepaintRequest (globals w);
                LastRepaint := LastRepaint w |}, [])
  | Start =>
      let '(r, stamp) := StartRepaint (globals w) (LastRepaint w) in
      ({| globals := globals w; LastRepaint := stamp |},
       [(RepaintFence (globals w), r)])
  end.

Fixpoint run (t : list Op) (w : World) : World * list (Z * bool) :=
  match t with
  | [] => (w, [])
  | o :: t' =>
      let '(w1, l1) := step w o in
      let '(w2, l2) := run t' w1 in
      (w2, l1 ++ l2)
  end.

(** [n] calls of [FlagSceneRepaint]. *)
Fixpoint flags (n : nat) (g : Globals) : Globals :=
  match n with
  | O => g
  | S n' => flags n' (FlagSceneRepaint g)
  end.

(** [n] frames, each flagging once and posting once. *)
Fixpoint frames (n : nat) (g : Globals) : Globals :=
  match n with
  | O => g
  | S n' => frames n' (PostPendingRepaintRequest (FlagSceneRepaint g))
  end.

(** The answers [StartRepaint] gave while the fence read [v]. *)
Definition answers_at (v : Z) (log : list (Z * bool)) : list bool :=
  map snd (List.filter (fun e => fst e =? v) log).

(** Stale ([false]) first, current ([true]) ever after. *)
Definition stale_once (l : list bool) : bool :=
  match l with
  | [] => true
  | r :: rest => negb r && forallb id rest
  end.

(** A trace of [n] frames as calls. *)
Fixpoint frame_calls (n : nat) : list Op :=
  match n with
  | O => []
  | S n' => Flag :: Post :: frame_calls n'
  end.

Definition posts (t : list Op) : Z :=
  Z.of_nat (length (List.filter (fun o => match o with Post => true | _ => false end) t)).

End Repaint.

(** ** [SequenceGenerator] ([parallel_task.h]) *)

Module SequenceGenerator.

Record Slice : Type := MkSlice {
  Start : Z;        (* size_t *)
  StopBefore : Z    (* size_t *)
}.

Record t : Type := Mk {
  Lanes : list Slice;   (* std::vector<Slice> *)
  Progress : Z          (* std::atomic_size_t *)
}.

(** The [for] loop of [Reset]; [fuel] is [Partitions - LaneIndex], the
    number of iterations the loop header still allows.  The [else]
    branch is the [break]. *)
Fixpoint ResetLoop (fuel : nat) (SliceCount Count SliceStart : Z)
    (Lanes : list Slice) : list Slice :=
  match fuel with
  | O => Lanes
  | S fuel' =>
      let SliceStopBefore := Z.min (wrap64 (SliceStart + SliceCount)) Count in
      if SliceStart <? SliceStopBefore then
        ResetLoop fuel' SliceCount Count SliceStopBefore
          (Lanes ++ [MkSlice SliceStart SliceStopBefore])
      else Lanes
  end.

Section Reset.

(** [Lanes.max_size()], the largest number of slices a
    [std::vector<Slice>] accepts.  The standard library fixes it, not
    these sources, so it is taken as a parameter. *)
Variable max_size : Z.

(** [Reset(Count, Partitions)].  [None] stands for a call that does not
    return: with [Partitions = 0] the slice length divides by zero, and
    [Lanes.reserve(Partitions)] throws [std::length_error] when
    [Partitions] exceeds [max_size()], before any lane is made.  An
    allocation that fails for want of memory is outside the model. *)
Definition Reset (Count Partitions : Z) : option t :=
  if Partitions =? 0 then None
  else
    let SliceCount := wrap64 (wrap64 (Count + Partitions) - 1) / Partitions in
    if max_size <? Partitions then None
    else
      Some {| Lanes := ResetLoop (Z.to_nat Partitions) SliceCount Count 0 [];
              Progress := 0 |}.

End Reset.

(** [Advance(OutStart, OutStopBefore)]: the generator after the
    [fetch_add], the returned flag and the two reference parameters. *)
Definition Advance (g : t) : t * (bool * Z * Z) :=
  let LaneIndex := Progress g in
  let g' := {| Lanes := Lanes g; Progress := wrap64 (LaneIndex + 1) |} in
  if LaneIndex <? Z.of_nat (length (Lanes g)) then
    match Lanes g !! Z.to_nat LaneIndex with
    | Some lane => (g', (true, Start lane, StopBefore lane))
    | None => (g', (false, 0, 0))   (* unreachable: the index is in range *)
    end
  else (g', (false, 0, 0)).


(** Lanes that follow one another from [from] to [to], none empty. *)
Fixpoint tiles (from to : Z) (lanes : list Slice) : Prop :=
  match lanes with
  | [] => from = to
  | s :: rest => Start s = from /\ from < StopBefore s /\ tiles (StopBefore s) to rest
  end.



End SequenceGenerator.

(** ** [ParallelAccumulator<ValueT>] ([parallel_task.h]) *)

Module ParallelAccumulator.

Record t (ValueT : Type) : Type := Mk {
  Lanes : list (list ValueT);   (* std::vector<ContainerT> *)
  Progress : Z                  (* std::atomic_size_t *)
}.
Arguments Mk {ValueT} _ _.
Arguments Lanes {ValueT} _.
Arguments Progress {ValueT} _.

Section Accumulator.
Context {ValueT : Type}.

(** [Size()]. *)
Definition Size (a : t ValueT) : Z :=
  fold_left (fun TotalSize Lane => wrap64 (TotalSize + Z.of_nat (length Lane)))
    (Lanes a) 0.

(** [Join(Merged)]: appends every lane, in lane order. *)
Definition Join (a : t ValueT) (Merged : list ValueT) : list ValueT :=
  fold_left (fun M Lane => M ++ Lane) (Lanes a) Merged.

(** The inner loop of [Advance]: the sum of the current sizes of the
    lanes before [LaneIndex]. *)
Definition PriorSizes (lanes : list (list ValueT)) (LaneIndex : Z) : Z :=
  fold_left (fun acc Lane => wrap64 (acc + Z.of_nat (length Lane)))
    (take (Z.to_nat LaneIndex) lanes) 0.

(** What [Advance(OutBatch, OutBatchStart)] leaves behind: the
    accumulator, the returned flag, the batch (a reference parameter)
    and the final value of the callee's own copy of [OutBatchStart]
    (a by-value parameter).  [OutBatch = std::move(Lanes[LaneIndex])]
    empties the lane. *)
Record Outcome : Type := MkOutcome {
  acc : t ValueT;
  ret : bool;
  OutBatch : list ValueT;
  OutBatchStart_local : Z
}.

Definition Advance (a : t ValueT) (InBatch : list ValueT) (InBatchStart : Z)
    : Outcome :=
  let LaneIndex := Progress a in
  let Progress' := wrap64 (LaneIndex + 1) in
  if LaneIndex <? Z.of_nat (length (Lanes a)) then
    match Lanes a !! Z.to_nat LaneIndex with
    | Some lane =>
        let Lanes' := <[Z.to_nat LaneIndex := []]> (Lanes a) in
        {| acc := Mk Lanes' Progress';
           ret := true;
           OutBatch := lane;
           OutBatchStart_local := PriorSizes Lanes' LaneIndex |}
    | None =>   (* unreachable: the index is in range *)
        {| acc := Mk (Lanes a) Progress'; ret := false;
           OutBatch := InBatch; OutBatchStart_local := InBatchStart |}
    end
  else
    {| acc := Mk (Lanes a) Progress'; ret := false;
       OutBatch := InBatch; OutBatchStart_local := InBatchStart |}.

(** A call site [Domain->Advance(Batch, BatchStart)] as in [RunInner]:
    [Batch] is bound by reference and takes the callee's value,
    [BatchStart] is copied into the callee and keeps its own value. *)
Definition call_Advance (a : t ValueT) (Batch : list ValueT) (BatchStart : Z)
    : t ValueT * bool * list ValueT * Z :=
  let r := Advance a Batch BatchStart in
  (acc r, ret r, OutBatch r, BatchStart).

(** [n] successive calls from one caller, as the [while] loop of
    [RunInner] makes them: each successful call is recorded with the
    batch it received and the caller's [BatchStart] after the call. *)
Fixpoint drain (n : nat) (a : t ValueT) (Batch : list ValueT) (BatchStart : Z)
    : list (list ValueT * Z) :=
  match n with
  | O => []
  | S n' =>
      let '(a', ok, Batch', BatchStart') := call_Advance a Batch BatchStart in
      if ok then (Batch', BatchStart') :: drain n' a' Batch' BatchStart'
      else []
  end.

(** The offset the specification describes: the sizes of the lanes
    before [LaneIndex] as they were when draining began. *)
Definition merged_offset (original : list (list ValueT)) (LaneIndex : nat) : Z :=
  Z.of_nat (length (concat (take LaneIndex original))).

(** [Reset()]; [ThreadPoolSize] is what [Scheduler::GetThreadPoolSize()]
    returns, an [int].  The sum is an [int], [resize] takes a [size_t];
    lane 0 is the main thread's. *)
Definition Reset (ThreadPoolSize : Z) : t ValueT :=
  Mk (repeat [] (Z.to_nat (int_to_size_t (wrap_int (ThreadPoolSize + 1))))) 0.

(** [Push(Value)] on the thread for which [Scheduler::GetThreadIndex()]
    returns [ThreadIndex], an [int] that initialises a [size_t].  [None]
    is the failing [Assert]. *)
Definition Push (ThreadIndex : Z) (Value : ValueT) (a : t ValueT)
    : option (t ValueT) :=
  let ThreadIndex := int_to_size_t ThreadIndex in
  if ThreadIndex <? Z.of_nat (length (Lanes a)) then
    Some (Mk (alter (fun Lane => Lane ++ [Value]) (Z.to_nat ThreadIndex) (Lanes a))
             (Progress a))
  else None.

(** A run of [Push] calls, each with the index of the calling thread, in
    the order they take effect. *)
Fixpoint Pushes (trace : list (Z * ValueT)) (a : t ValueT) : option (t ValueT) :=
  match trace with
  | [] => Some a
  | (ThreadIndex, Value) :: rest =>
      match Push ThreadIndex Value a with
      | Some a' => Pushes rest a'
      | None => None
      end
  end.

(** [Read(ReadThunk)]: the values [ReadThunk] is called with, in call
    order. *)
Definition Read (a : t ValueT) : list ValueT :=
  fold_left
    (fun called Lane => fold_left (fun called Value => called ++ [Value]) Lane called)
    (Lanes a) [].

(** The values a trace pushes from thread [ThreadIndex], in push order. *)
Definition pushed_by (trace : list (Z * ValueT)) (ThreadIndex : Z) : list ValueT :=
  map snd (List.filter (fun e => fst e =? ThreadIndex) trace).

(** The accumulator after [n] successive [Advance] calls. *)
Fixpoint after_Advances (n : nat) (a : t ValueT) : t ValueT :=
  match n with
  | O => a
  | S n' => after_Advances n' (acc (Advance a [] 0))
  end.

End Accumulator.

End ParallelAccumulator.

(** ** [ParallelTaskChain<IntermediaryT>] and [ParallelTaskBuilder]
       ([parallel_task.h]) *)

Module ParallelTaskChain.

(** A chain node; nodes live in a table and a [ParallelTaskChain*] is an
    index into it. *)
Record Node (IntermediaryT : Type) : Type := MkNode {
  NextTask : option nat;                     (* ParallelTaskChain*, may be nullptr *)
  IntermediaryData : option IntermediaryT    (* std::unique_ptr<IntermediaryT> *)
}.
Arguments MkNode {IntermediaryT} _ _.
Arguments NextTask {IntermediaryT} _.
Arguments IntermediaryData {IntermediaryT} _.

Record Builder : Type := MkBuilder {
  Head : option nat;
  Tail : option nat
}.

Section Chain.
Context {IntermediaryT : Type}.

Local Abbreviation Heap := (list (Node IntermediaryT)).

(** [BatonPass()] on node [this]: the table afterwards and the task
    handed to [Scheduler::EnqueueParallel], if any.  [None] stands for
    following a pointer to no node. *)
Definition BatonPass (this : nat) (heap : Heap) : option (Heap * option nat) :=
  match heap !! this with
  | Some self =>
      match NextTask self with
      | Some next =>
          match heap !! next with
          | Some succ =>
              (* std::swap(NextTask->IntermediaryData, IntermediaryData) *)
              let heap1 :=
                <[next := MkNode (NextTask succ) (IntermediaryData self)]> heap in
              let heap2 :=
                alter (fun nd => MkNode (NextTask nd) (IntermediaryData succ))
                  this heap1 in
              (* NextTask = nullptr *)
              let heap3 :=
                alter (fun nd => MkNode None (IntermediaryData nd)) this heap2 in
              Some (heap3, Some next)
          | None => None
          end
      | None => Some (heap, None)
      end
  | None => None
  end.

(** [ParallelTaskBuilder::Link(Next)]. *)
Definition Link (Next : nat) (b : Builder) (heap : Heap) : option (Builder * Heap) :=
  match Head b with
  | None => Some (MkBuilder (Some Next) (Some Next), heap)
  | Some _ =>
      match Tail b with
      | Some tail =>
          match heap !! tail with
          | Some nd =>
              Some (MkBuilder (Head b) (Some Next),
                    <[tail := MkNode (Some Next) (IntermediaryData nd)]> heap)
          | None => None
          end
      | None => None
      end
  end.

(** [ParallelTaskBuilder::Run()]: the builder afterwards and the task
    handed to [Scheduler::EnqueueParallel]. *)
Definition Run (b : Builder) : Builder * option nat :=
  (MkBuilder None None, Head b).

(** Linking nodes [first], [first + 1], ..., in this order. *)
Fixpoint link_all (count first : nat) (b : Builder) (heap : Heap)
    : option (Builder * Heap) :=
  match count with
  | O => Some (b, heap)
  | S count' =>
      match Link first b heap with
      | Some (b', heap') => link_all count' (S first) b' heap'
      | None => None
      end
  end.

(** A pipeline of [S n] stages as [ParallelTaskBuilder] assembles it: the
    first stage is constructed with the payload, the others without,
    all are linked in order and the builder is run. *)
Definition built (n : nat) (payload : IntermediaryT)
    : option (Heap * option nat) :=
  let nodes := MkNode None (Some payload) :: repeat (MkNode None None) n in
  match link_all (S n) 0 (MkBuilder None None) nodes with
  | Some (b, heap) => Some (heap, snd (Run b))
  | None => None
  end.

(** The scheduler retiring the active stage [count] times: each time the
    stage's [Exhausted()] passes the baton and the successor, if any,
    becomes the active stage. *)
Fixpoint passes (count : nat) (s : Heap * option nat)
    : option (Heap * option nat) :=
  match count with
  | O => Some s
  | S count' =>
      match snd s with
      | Some active =>
          match BatonPass active (fst s) with
          | Some s' => passes count' s'
          | None => None
          end
      | None => Some s
      end
  end.

Definition holds (heap : Heap) (i : nat) : bool :=
  match heap !! i with
  | Some nd => match IntermediaryData nd with Some _ => true | None => false end
  | None => false
  end.

(** Stage [i] of a pipeline of [S n] stages whose baton is at stage [k]:
    the stages before [k] have passed the baton on and are unlinked,
    stage [k] holds the payload, the later ones are still linked. *)
Definition stage (n k : nat) (payload : IntermediaryT) (i : nat)
    : Node IntermediaryT :=
  MkNode (if Nat.leb k i && Nat.ltb i n then Some (S i) else None)
         (if Nat.eqb i k then Some payload else None).

(** The table while the builder is linking: stages up to [m] are linked. *)
Definition linking (n m : nat) (payload : IntermediaryT) : Heap :=
  map (fun i => MkNode (if Nat.ltb i m then Some (S i) else None)
                       (if Nat.eqb i 0 then Some payload else None))
      (seq 0 (S n)).

Definition pipeline (n k : nat) (payload : IntermediaryT) : Heap :=
  map (stage n k payload) (seq 0 (S n)).

(** A node's successor holds the payload. *)
Definition successor_holds (heap : Heap) (i : nat) : bool :=
  match heap !! i with
  | Some nd => match NextTask nd with Some next => holds heap next | None => false end
  | None => false
  end.

(** The nodes that hold a payload. *)
Definition holders (heap : Heap) : list nat :=
  List.filter (holds heap) (seq 0 (length heap)).

(** [delete this], which runs [~ParallelTaskChain()]: the destructor
    first deletes [NextTask], if set, and the node itself goes last.
    The result lists the nodes destroyed, in the order their destructors
    finish.  [fuel] bounds the depth of the recursion; [None] is a
    pointer to no node, or a chain longer than [fuel]. *)
Fixpoint delete_task (fuel : nat) (this : nat) (heap : Heap) : option (list nat) :=
  match fuel with
  | O => None
  | S fuel' =>
      match heap !! this with
      | Some self =>
          match NextTask self with
          | Some next =>
              match delete_task fuel' next heap with
              | Some destroyed => Some (destroyed ++ [this])
              | None => None
              end
          | None => Some [this]
          end
      | None => None
      end
  end.

(** The virtual [Done(Intermediary)] of each stage: what stage [this]
    makes of the payload it is handed by reference. *)
Variable Done : nat -> IntermediaryT -> IntermediaryT.

(** [ParallelDomainTaskChain::Exhausted()] on node [this]:
    [Done] on the payload behind [IntermediaryData], then
    [BatonPass()].  [None] also stands for dereferencing an empty
    [IntermediaryData]. *)
Definition Exhausted (this : nat) (heap : Heap) : option (Heap * option nat) :=
  match heap !! this with
  | Some self =>
      match IntermediaryData self with
      | Some data =>
          BatonPass this
            (<[this := MkNode (NextTask self) (Some (Done this data))]> heap)
      | None => None
      end
  | None => None
  end.

(** The scheduler retiring the active stage [count] times through its
    [Exhausted()]. *)
Fixpoint retire (count : nat) (s : Heap * option nat)
    : option (Heap * option nat) :=
  match count with
  | O => Some s
  | S count' =>
      match snd s with
      | Some active =>
          match Exhausted active (fst s) with
          | Some s' => retire count' s'
          | None => None
          end
      | None => Some s
      end
  end.

(** The payload after the [Done] of stages [0], ..., [count - 1]. *)
Definition done_by (count : nat) (payload : IntermediaryT) : IntermediaryT :=
  fold_left (fun data this => Done this data) (seq 0 count) payload.

End Chain.
End ParallelTaskChain.

(** ** [ParallelDomainTaskChain<IntermediaryT, ContainerT>]
       ([parallel_task.h]) *)

Module ParallelDomainTaskChain.

Section Stage.
Context {ElementT : Type}.

(** [ElementT(Index)], the conversion the [SequenceGenerator] loop
    applies to each index. *)
Variable of_index : Z -> ElementT.

(** Modelled from the spec: [SDFOctree] is declared outside these
    sources.  The spec describes an octree domain as "a linked list of
    spatial-tree leaves" walked through a "next" pointer; the leaves
    reached from [Domain->Next] by following [Next], in order, stand for
    it, and the empty list for [nullptr]. *)
Definition LeafList (ElementT : Type) : Type := list ElementT.

(** What [DomainAccessor] returns, by the shape [RunInner] dispatches
    on. *)
Inductive Domain : Type :=
| RandomAccess (d : list ElementT)          (* contiguous iterators *)
| ForwardOnly (d : list ElementT)           (* forward iterators only *)
| Generator (g : SequenceGenerator.t)
| Accumulator (a : ParallelAccumulator.t ElementT)
| OctreeLeaves (leaves : LeafList ElementT).

(** The members of the stage that iteration reads and writes. *)
Record Stage : Type := MkStage {
  TheDomain : Domain;
  SetupPending : bool;                       (* = true *)
  NextIndex : Z;                             (* std::atomic_int, = 0 *)
  NextIter : option (list ElementT);         (* [NextIter, StopIter): what is
                                                left to claim; unset before
                                                Setup *)
  NextLeaf : LeafList ElementT               (* SDFOctree*, = nullptr; the
                                                leaves from NextLeaf on *)
}.

Definition fresh_stage (d : Domain) : Stage :=
  MkStage d true 0 None [].

(** A call of one of the virtual members, as the stage makes it. *)
Inductive Call : Type :=
| Setup
| Loop (Element : ElementT) (ElementIndex : Z).   (* const int ElementIndex *)

(** The block each [RunInner] runs under [IterationCS] before it claims
    anything. *)
Definition setup_block (st : Stage) : Stage * list Call :=
  if SetupPending st then
    (match TheDomain st with
     | ForwardOnly d =>
         MkStage (TheDomain st) false (NextIndex st) (Some d) (NextLeaf st)
     | OctreeLeaves leaves =>
         MkStage (TheDomain st) false (NextIndex st) (NextIter st) leaves
     | _ =>
         MkStage (TheDomain st) false (NextIndex st) (NextIter st) (NextLeaf st)
     end, [Setup])
  else (st, []).

(** The indices [SliceStart, SliceStopBefore) in order. *)
Definition indices (SliceStart SliceStopBefore : Z) : list Z :=
  map (fun k => SliceStart + Z.of_nat k)
      (seq 0 (Z.to_nat (SliceStopBefore - SliceStart))).

(** The [Loop] arguments of one generator lane. *)
Definition lane_calls (SliceStart SliceStopBefore : Z) : list (ElementT * Z) :=
  map (fun Index => (of_index Index, size_t_to_int Index))
      (indices SliceStart SliceStopBefore).

(** The [Loop] arguments of one accumulator batch: [Index] starts at
    [BatchStart] and is incremented after every element. *)
Definition batch_calls (Batch : list ElementT) (BatchStart : Z)
    : list (ElementT * Z) :=
  imap (fun k Element =>
          (Element, size_t_to_int (wrap64 (BatchStart + Z.of_nat k))))
       Batch.

(** The locals [Batch] and [BatchStart] of the accumulator [RunInner]. *)
Definition Locals : Type := (list ElementT * Z)%type.

(** One claim: the stage and the locals afterwards and, when the claim
    succeeded, the arguments of the [Loop] calls it entitles to.  A
    claim is one step: a [fetch_add], or the block under [IterationCS].
    The accumulator's [Advance] also reads the sizes of the lanes
    before its own, but only for its own copy of [OutBatchStart]. *)
Definition claim (st : Stage) (l : Locals)
    : Stage * Locals * option (list (ElementT * Z)) :=
  match TheDomain st with
  | RandomAccess d =>
      let ClaimedIndex := NextIndex st in
      let st' := MkStage (TheDomain st) (SetupPending st)
                   (wrap_int (ClaimedIndex + 1)) (NextIter st) (NextLeaf st) in
      let Range := Z.of_nat (length d) in
      if int_to_size_t ClaimedIndex <? Range then
        match d !! Z.to_nat ClaimedIndex with
        | Some Element => (st', l, Some [(Element, ClaimedIndex)])
        | None => (st', l, None)    (* unreachable: the index is in range *)
        end
      else (st', l, None)
  | ForwardOnly _ =>
      match NextIter st with
      | Some (Element :: rest) =>
          (MkStage (TheDomain st) (SetupPending st) (NextIndex st)
             (Some rest) (NextLeaf st),
           l, Some [(Element, -1)])
      | _ => (st, l, None)
      end
  | Generator g =>
      let '(g', (ok, SliceStart, SliceStopBefore)) := SequenceGenerator.Advance g in
      let st' := MkStage (Generator g') (SetupPending st) (NextIndex st)
                   (NextIter st) (NextLeaf st) in
      if ok then (st', l, Some (lane_calls SliceStart SliceStopBefore))
      else (st', l, None)
  | Accumulator a =>
      let '(a', ok, Batch, BatchStart) :=
        ParallelAccumulator.call_Advance a (fst l) (snd l) in
      let st' := MkStage (Accumulator a') (SetupPending st) (NextIndex st)
                   (NextIter st) (NextLeaf st) in
      if ok then (st', (Batch, BatchStart), Some (batch_calls Batch BatchStart))
      else (st', (Batch, BatchStart), None)
  | OctreeLeaves _ =>
      match NextLeaf st with
      | Leaf :: rest =>
          (MkStage (TheDomain st) (SetupPending st) (NextIndex st)
             (NextIter st) rest,
           l, Some [(Leaf, -1)])
      | [] => (st, l, None)
      end
  end.

(** Where one invocation of [Run()] stands. *)
Inductive Worker : Type :=
| AtSetup (l : Locals)                               (* before the setup block *)
| AtClaim (l : Locals)                               (* at the head of the claim loop *)
| InBatch (owed : list (ElementT * Z)) (l : Locals)  (* [Loop] calls still to make
                                                        for the present claim *)
| Returned.

(** One atomic step of an invocation: the setup block, one claim, or
    one [Loop] call. *)
Definition worker_step (st : Stage) (w : Worker) : Stage * Worker * list Call :=
  match w with
  | AtSetup l =>
      let '(st', cs) := setup_block st in (st', AtClaim l, cs)
  | AtClaim l =>
      match claim st l with
      | (st', l', Some batch) => (st', InBatch batch l', [])
      | (st', l', None) => (st', Returned, [])
      end
  | InBatch [] l => (st, AtClaim l, [])
  | InBatch ((Element, ElementIndex) :: owed) l =>
      (st, InBatch owed l, [Loop Element ElementIndex])
  | Returned => (st, Returned, [])
  end.

(** A stage being run by several invocations of [Run()] at once (worker
    threads and the main thread), and the calls made so far. *)
Record Machine : Type := MkMachine {
  stage : Stage;
  workers : list Worker;
  calls : list Call
}.

(** Invocation [i] takes its next step. *)
Definition exec (m : Machine) (i : nat) : Machine :=
  match workers m !! i with
  | Some w =>
      let '(st', w', cs) := worker_step (stage m) w in
      MkMachine st' (<[i := w']> (workers m)) (calls m ++ cs)
  | None => m
  end.

(** A schedule names the invocation that steps next. *)
Definition run (schedule : list nat) (m : Machine) : Machine :=
  fold_left exec schedule m.

(** [W] invocations of [Run()] on a fresh stage over domain [d]. *)
Definition start (d : Domain) (W : nat) : Machine :=
  MkMachine (fresh_stage d) (repeat (AtSetup ([], 0)) W) [].

Definition returned (w : Worker) : bool :=
  match w with Returned => true | _ => false end.

Definition all_returned (m : Machine) : bool := forallb returned (workers m).

Definition loop_calls (cs : list Call) : list (ElementT * Z) :=
  omap (fun c => match c with Loop e i => Some (e, i) | Setup => None end) cs.

Definition setup_calls (cs : list Call) : nat :=
  length (List.filter (fun c => match c with Setup => true | _ => false end) cs).

(** The [Loop] calls the specification expects for a domain: one per
    element, with the element's index for random-access domains, the
    counted index for generators, the position in the batch for
    accumulators, and -1 for forward-only and octree domains.  A
    generator or accumulator is drained from its cursor on. *)
Definition expected_calls (d : Domain) : list (ElementT * Z) :=
  match d with
  | RandomAccess d => imap (fun i Element => (Element, Z.of_nat i)) d
  | ForwardOnly d => map (fun Element => (Element, -1)) d
  | Generator g =>
      concat (map (fun s => lane_calls (SequenceGenerator.Start s)
                                       (SequenceGenerator.StopBefore s))
                  (drop (Z.to_nat (SequenceGenerator.Progress g))
                        (SequenceGenerator.Lanes g)))
  | Accumulator a =>
      concat (map (fun Batch => batch_calls Batch 0)
                  (drop (Z.to_nat (ParallelAccumulator.Progress a))
                        (ParallelAccumulator.Lanes a)))
  | OctreeLeaves leaves => map (fun Leaf => (Leaf, -1)) leaves
  end.

(** The number of elements of a domain. *)
Definition domain_size (d : Domain) : nat :=
  match d with
  | RandomAccess d => length d
  | ForwardOnly d => length d
  | Generator g =>
      list_sum (map (fun s => Z.to_nat (SequenceGenerator.StopBefore s
                                        - SequenceGenerator.Start s))
                    (drop (Z.to_nat (SequenceGenerator.Progress g))
                          (SequenceGenerator.Lanes g)))
  | Accumulator a =>
      list_sum (map (fun Batch : list ElementT => length Batch)
                    (drop (Z.to_nat (ParallelAccumulator.Progress a))
                          (ParallelAccumulator.Lanes a)))
  | OctreeLeaves leaves => length leaves
  end.

(** The domain and the number [W] of [Run()] invocations keep the
    atomic counters from coming round: a random-access domain has at
    most 2^31 elements and sees fewer than 2^32 claims, a generator or
    accumulator sees fewer than 2^64. *)
Definition fits (d : Domain) (W : nat) : Prop :=
  match d with
  | RandomAccess d =>
      Z.of_nat (length d) <= 2 ^ 31
      /\ Z.of_nat (length d) + Z.of_nat W < 2 ^ 32
  | Generator g =>
      0 <= SequenceGenerator.Progress g
      /\ Z.max (SequenceGenerator.Progress g)
               (Z.of_nat (length (SequenceGenerator.Lanes g)))
         + Z.of_nat W < 2 ^ 64
  | Accumulator a =>
      0 <= ParallelAccumulator.Progress a
      /\ Z.max (ParallelAccumulator.Progress a)
               (Z.of_nat (length (ParallelAccumulator.Lanes a)))
         + Z.of_nat W < 2 ^ 64
  | ForwardOnly _ | OctreeLeaves _ => True
  end.

(** *** What the proofs track *)

(** The [Loop] calls not yet handed out by a claim. *)
Definition remaining (st : Stage) : list (ElementT * Z) :=
  match TheDomain st with
  | RandomAccess d =>
      if 0 <=? NextIndex st then
        drop (Z.to_nat (NextIndex st)) (expected_calls (RandomAccess d))
      else []
  | ForwardOnly _ =>
      match NextIter st with
      | Some l => map (fun Element => (Element, -1)) l
      | None => []
      end
  | Generator g => expected_calls (Generator g)
  | Accumulator a => expected_calls (Accumulator a)
  | OctreeLeaves _ => map (fun Leaf => (Leaf, -1)) (NextLeaf st)
  end.

(** The number of [fetch_add]s a random-access stage has seen, read off
    its 32-bit counter. *)
Definition claims_made (NextIndex : Z) : Z :=
  if 0 <=? NextIndex then NextIndex else NextIndex + 2 ^ 32.

(** The stage can serve what is left and [w] failing claims on top
    without a counter coming round. *)
Definition sustains (w : nat) (st : Stage) : Prop :=
  w = 0%nat \/
  match TheDomain st with
  | RandomAccess d =>
      Z.of_nat (length d) <= 2 ^ 31
      /\ - 2 ^ 31 <= NextIndex st < 2 ^ 31
      /\ Z.max (claims_made (NextIndex st)) (Z.of_nat (length d)) + Z.of_nat w
         < 2 ^ 32
  | ForwardOnly _ => NextIter st <> None
  | Generator g =>
      0 <= SequenceGenerator.Progress g
      /\ Z.max (SequenceGenerator.Progress g)
               (Z.of_nat (length (SequenceGenerator.Lanes g)))
         + Z.of_nat w < 2 ^ 64
  | Accumulator a =>
      0 <= ParallelAccumulator.Progress a
      /\ Z.max (ParallelAccumulator.Progress a)
               (Z.of_nat (length (ParallelAccumulator.Lanes a)))
         + Z.of_nat w < 2 ^ 64
  | OctreeLeaves _ => True
  end.

(** The number of claims that will still succeed. *)
Definition todo (st : Stage) : nat :=
  match TheDomain st with
  | RandomAccess d =>
      if 0 <=? NextIndex st then (length d - Z.to_nat (NextIndex st))%nat
      else 0%nat
  | ForwardOnly _ =>
      match NextIter st with Some l => length l | None => 0%nat end
  | Generator g =>
      (length (SequenceGenerator.Lanes g)
       - Z.to_nat (SequenceGenerator.Progress g))%nat
  | Accumulator a =>
      (length (ParallelAccumulator.Lanes a)
       - Z.to_nat (ParallelAccumulator.Progress a))%nat
  | OctreeLeaves _ => length (NextLeaf st)
  end.

(** What one claim does, on a stage that can sustain it: a successful
    claim hands out a prefix of what is left, a failing one finds
    nothing left and leaves nothing. *)
Definition claim_effect (w : nat) (st : Stage) (l : Locals)
    (out : Stage * Locals * option (list (ElementT * Z))) : Prop :=
  let '(st', l', r) := out in
  snd l' = 0 /\ SetupPending st' = SetupPending st
  /\ match r with
     | Some b =>
         remaining st = b ++ remaining st'
         /\ sustains (S w) st' /\ (todo st' < todo st)%nat
     | None =>
         remaining st = [] /\ remaining st' = [] /\ sustains w st'
     end.

(** The [Loop] calls an invocation has claimed and not yet made. *)
Definition owed (w : Worker) : list (ElementT * Z) :=
  match w with InBatch b _ => b | _ => [] end.

Definition all_owed (ws : list Worker) : list (ElementT * Z) :=
  concat (map owed ws).

(** The invocations that have not returned. *)
Definition alive (ws : list Worker) : nat :=
  length (List.filter (fun w => negb (returned w)) ws).

(** The locals of an invocation, and that its [BatchStart] is still 0. *)
Definition untouched_start (w : Worker) : Prop :=
  match w with
  | AtSetup l | AtClaim l | InBatch _ l => snd l = 0
  | Returned => True
  end.

(** What holds of the machine once the setup block has run. *)
Definition running (d : Domain) (m : Machine) : Prop :=
  SetupPending (stage m) = false
  /\ Permutation (loop_calls (calls m) ++ all_owed (workers m)
                  ++ remaining (stage m))
                 (expected_calls d)
  /\ sustains (alive (workers m)) (stage m)
  /\ setup_calls (calls m) = 1%nat
  /\ (alive (workers m) < length (workers m) -> remaining (stage m) = [])%nat
  /\ Forall untouched_start (workers m).

(** On a random-access stage every index in play is an [int]. *)
Definition int_indices (m : Machine) : Prop :=
  (exists d, TheDomain (stage m) = RandomAccess d)
  /\ - 2 ^ 31 <= NextIndex (stage m) < 2 ^ 31
  /\ Forall (fun c => snd c < 2 ^ 31) (loop_calls (calls m))
  /\ Forall (fun w => Forall (fun c => snd c < 2 ^ 31) (owed w)) (workers m).

(** A bound on the steps an invocation still takes when it runs alone. *)
Definition rank (st : Stage) (w : Worker) : nat :=
  match w with
  | AtSetup _ => (2 * todo st + length (remaining st) + 3)%nat
  | AtClaim _ => (2 * todo st + length (remaining st) + 2)%nat
  | InBatch b _ => (2 * todo st + length (remaining st) + length b + 3)%nat
  | Returned => 0%nat
  end.

(** The calls so far: none while the setup block is pending and every
    invocation still stands before it, otherwise [Setup] followed by
    [Loop] calls only. *)
Definition setup_first (m : Machine) : Prop :=
  (SetupPending (stage m) = true /\ calls m = []
   /\ Forall (fun w => match w with AtSetup _ => True | _ => False end)
             (workers m))
  \/ (SetupPending (stage m) = false
      /\ exists loops : list (ElementT * Z),
           calls m = Setup :: map (fun c => Loop (fst c) (snd c)) loops).


End Stage.
End ParallelDomainTaskChain.

(** ** Drawables, the drawable cache and instances
       ([sdf_model.h], [sdf_model.cpp], [sdf_rendering.cpp]) *)

(** Modelled from the spec: [MaterialVertexGroup] is declared outside
    these sources.  The spec speaks of "a partition of vertices into
    per-material groups" and of a group's "vertex-index mapping";
    [UpdateColors] reads it as [VertexGroup->Vertices], a
    [std::vector<size_t>]. *)
Module MaterialVertexGroup.
Record t : Type := Mk { Vertices : list Z }.
End MaterialVertexGroup.

Module InstanceColoringGroup.
Record t (vec4 : Type) : Type := Mk {
  VertexGroup : nat;    (* MaterialVertexGroup*: the slot of
                           Painter->MaterialSlots it points at *)
  IndexStart : Z;       (* size_t, offset within the vertex group *)
  IndexRange : Z;       (* size_t, number of indices to process *)
  Colors : list vec4;   (* pending colors, guarded by ColorCS *)
  LastRepaint : Z       (* uint64_t, starts at 0 *)
}.
Arguments Mk {vec4} _ _ _ _ _.
Arguments VertexGroup {vec4} _.
Arguments IndexStart {vec4} _.
Arguments IndexRange {vec4} _.
Arguments Colors {vec4} _.
Arguments LastRepaint {vec4} _.
End InstanceColoringGroup.

(** The process-wide state behind [std::shared_ptr<Drawable>] and the
    cache.  A [DrawableShared] or [DrawableWeakRef] is the index of a
    control block; a block with [use_count = 0] is an expired Drawable. *)
Module Drawable.
Record t (SDFNode : Type) : Type := Mk {
  use_count : nat;        (* strong references to this Drawable *)
  Evaluator : SDFNode     (* the evaluator the Drawable was built from *)
}.
Arguments Mk {SDFNode} _ _.
Arguments use_count {SDFNode} _.
Arguments Evaluator {SDFNode} _.
End Drawable.

Module Process.
Record t (SDFNode : Type) : Type := Mk {
  Drawables : list (Drawable.t SDFNode);   (* every control block made so far *)
  DrawableCache : list (Z * nat);          (* vector<pair<size_t, DrawableWeakRef>> *)
  Populated : list nat                     (* Sodapop::Populate calls, oldest first *)
}.
Arguments Mk {SDFNode} _ _ _.
Arguments Drawables {SDFNode} _.
Arguments DrawableCache {SDFNode} _.
Arguments Populated {SDFNode} _.

Section Process.
Context {SDFNode : Type}.

Definition start : t SDFNode := Mk [] [] [].

(** [weak.expired()] and [weak.lock()]. *)
Definition live (p : t SDFNode) (h : nat) : bool :=
  match Drawables p !! h with
  | Some d => negb (Nat.eqb (Drawable.use_count d) 0)
  | None => false
  end.

Definition expired (p : t SDFNode) (h : nat) : bool := negb (live p h).

Definition lock (p : t SDFNode) (h : nat) : option nat :=
  if live p h then Some h else None.

(** The [for] loop of [PruneStaleDrawableFromCache]: erase the first
    expired entry and stop. *)
Fixpoint erase_first_expired (p : t SDFNode) (cache : list (Z * nat))
    : list (Z * nat) :=
  match cache with
  | [] => []
  | Entry :: rest =>
      if expired p (snd Entry) then rest
      else Entry :: erase_first_expired p rest
  end.

Definition PruneStaleDrawableFromCache (p : t SDFNode) : t SDFNode :=
  Mk (Drawables p) (erase_first_expired p (DrawableCache p)) (Populated p).

(** A copy of a live [DrawableShared]. *)
Definition share (h : nat) (p : t SDFNode) : t SDFNode :=
  match Drawables p !! h with
  | Some d =>
      if live p h then
        Mk (<[h := Drawable.Mk (S (Drawable.use_count d)) (Drawable.Evaluator d)]>
              (Drawables p))
           (DrawableCache p) (Populated p)
      else p
  | None => p
  end.

(** The end of a [DrawableShared], for instance [Painter.reset()] in
    [~SDFModel].  When the count reaches 0 the Drawable is destroyed; its
    destructor hands [PruneStaleDrawableFromCache] to the scheduler,
    which runs it at a later tick (see [Op] below). *)
Definition release (h : nat) (p : t SDFNode) : t SDFNode :=
  match Drawables p !! h with
  | Some d =>
      Mk (<[h := Drawable.Mk (Nat.pred (Drawable.use_count d)) (Drawable.Evaluator d)]>
            (Drawables p))
         (DrawableCache p) (Populated p)
  | None => p
  end.

End Process.
End Process.

Module SDFModel.
Record t (vec3 vec4 Transform SDFNode : Type) : Type := Mk {
  Evaluator : option SDFNode;        (* SDFNodeShared, may be nullptr *)
  Painter : option nat;              (* DrawableShared, may be nullptr *)
  LocalToWorld : Transform;
  AtomicCameraOrigin : vec3;
  Colors : list vec4;
  ColoringGroups : list (InstanceColoringGroup.t vec4)
}.
Arguments Mk {vec3 vec4 Transform SDFNode} _ _ _ _ _ _.
Arguments Evaluator {vec3 vec4 Transform SDFNode} _.
Arguments Painter {vec3 vec4 Transform SDFNode} _.
Arguments LocalToWorld {vec3 vec4 Transform SDFNode} _.
Arguments AtomicCameraOrigin {vec3 vec4 Transform SDFNode} _.
Arguments Colors {vec3 vec4 Transform SDFNode} _.
Arguments ColoringGroups {vec3 vec4 Transform SDFNode} _.

Section SDFModel.
Context {vec3 vec4 quat Transform SDFNode RayHit float : Type}.

(** Declared outside these sources ([transform.h], glm,
    [sdf_evaluator.h]) and taken as parameters. *)
Variable Transform_default : Transform.            (* Transform() *)
Variable vec3_zero : vec3.                         (* glm::vec3(0.0, 0.0, 0.0) *)
Variable ApplyInv : Transform -> vec3 -> vec3.     (* Transform::ApplyInv *)
Variable Rotation : Transform -> quat.             (* Transform::Rotation *)
Variable inverse : quat -> quat.                   (* glm::inverse *)
Variable rotate : quat -> vec3 -> vec3.            (* glm::rotate *)
Variable SDFNode_RayMarch : SDFNode -> vec3 -> vec3 -> Z -> RayHit.
Variable SDFNode_Copy : SDFNode -> SDFNode.        (* SDFNode::Copy *)
Variable get : SDFNode -> Z.                       (* the node's address *)

Local Abbreviation Model := (t vec3 vec4 Transform SDFNode).

(** [SDFModel::RayMarch].  [None] stands for calling through a null
    [Evaluator]. *)
Definition RayMarch (m : Model) (RayStart RayDir : vec3)
    (MaxIterations : Z) (Epsilon : float) : option RayHit :=
  let RelativeOrigin := ApplyInv (LocalToWorld m) RayStart in
  let RelativeRayDir := rotate (inverse (Rotation (LocalToWorld m))) RayDir in
  match Evaluator m with
  | Some e => Some (SDFNode_RayMarch e RelativeOrigin RelativeRayDir 1000)
  | None => None
  end.

(** The cache scan of the constructor: the first entry with the key
    whose weak reference locks. *)
Fixpoint find_live (p : Process.t SDFNode) (cache : list (Z * nat)) (Key : Z)
    : option nat :=
  match cache with
  | [] => None
  | Entry :: rest =>
      if fst Entry =? Key then
        match Process.lock p (snd Entry) with
        | Some Painter => Some Painter
        | None => find_live p rest Key
        end
      else find_live p rest Key
  end.

(** The block of [SDFModel::SDFModel] that runs under [DrawableCacheCS]:
    the [Evaluator] and [Painter] members it sets, and the process state
    it leaves.  The instance holds one strong reference to its Painter. *)
Definition bind_Painter (InEvaluator : SDFNode) (p : Process.t SDFNode)
    : option SDFNode * nat * Process.t SDFNode :=
  let Key := get InEvaluator in
  match find_live p (Process.DrawableCache p) Key with
  | None =>
      let Evaluator := SDFNode_Copy InEvaluator in
      let Painter := length (Process.Drawables p) in   (* make_shared<Drawable> *)
      (Some Evaluator, Painter,
       Process.Mk (Process.Drawables p ++ [Drawable.Mk 1 Evaluator])
                  (Process.DrawableCache p ++ [(Key, Painter)])
                  (Process.Populated p ++ [Painter]))
  | Some Painter =>
      (Drawable.Evaluator <$> (Process.Drawables p !! Painter), Painter,
       Process.share Painter p)
  end.

(** [SDFModel::SDFModel(InEvaluator, ...)]: the new instance and the
    process state. *)
Definition SDFModel (InEvaluator : SDFNode) (p : Process.t SDFNode)
    : Model * Process.t SDFNode :=
  let '(Evaluator, Painter, p') := bind_Painter InEvaluator p in
  (Mk Evaluator (Some Painter) Transform_default vec3_zero [] [], p').

(** The inner [for] loop of [UpdateColors]; [fuel] is
    [IndexRange - RelativeIndex].  [None] is an access outside
    [Vertices], [NewColors] or [Colors]. *)
Fixpoint WriteColors (fuel : nat) (RelativeIndex : Z) (Vertices : list Z)
    (IndexStart : Z) (NewColors : list vec4) (Colors : list vec4)
    : option (list vec4) :=
  match fuel with
  | O => Some Colors
  | S fuel' =>
      match Vertices !! Z.to_nat (wrap64 (IndexStart + RelativeIndex)),
            NewColors !! Z.to_nat RelativeIndex with
      | Some VertexIndex, Some c =>
          if (0 <=? VertexIndex) && (VertexIndex <? Z.of_nat (length Colors)) then
            WriteColors fuel' (wrap64 (RelativeIndex + 1)) Vertices IndexStart
              NewColors (<[Z.to_nat VertexIndex := c]> Colors)
          else None
      | _, _ => None
      end
  end.

(** A group after [std::swap(Batch->Colors, NewColors)] with the empty
    local [NewColors]. *)
Definition swapped_out (Batch : InstanceColoringGroup.t vec4)
    : InstanceColoringGroup.t vec4 :=
  InstanceColoringGroup.Mk
    (InstanceColoringGroup.VertexGroup Batch)
    (InstanceColoringGroup.IndexStart Batch)
    (InstanceColoringGroup.IndexRange Batch)
    []
    (InstanceColoringGroup.LastRepaint Batch).

(** The outer loop of [UpdateColors] over [ColoringGroups]: the groups
    with their pending buffers swapped out, and the color array. *)
Fixpoint UpdateGroups (MaterialSlots : list MaterialVertexGroup.t)
    (groups : list (InstanceColoringGroup.t vec4)) (Colors : list vec4)
    : option (list (InstanceColoringGroup.t vec4) * list vec4) :=
  match groups with
  | [] => Some ([], Colors)
  | Batch :: rest =>
      let NewColors := InstanceColoringGroup.Colors Batch in
      let Batch' := swapped_out Batch in
      let written :=
        if (0 <? Z.of_nat (length NewColors)) then
          match MaterialSlots !! InstanceColoringGroup.VertexGroup Batch with
          | Some slot =>
              WriteColors (Z.to_nat (InstanceColoringGroup.IndexRange Batch)) 0
                (MaterialVertexGroup.Vertices slot)
                (InstanceColoringGroup.IndexStart Batch) NewColors Colors
          | None => None
          end
        else Some Colors in
      match written with
      | Some Colors' =>
          match UpdateGroups MaterialSlots rest Colors' with
          | Some (rest', Colors'') => Some (Batch' :: rest', Colors'')
          | None => None
          end
      | None => None
      end
  end.

(** [SDFModel::UpdateColors(NewCameraOrigin)]; [MaterialSlots] is
    [Painter->MaterialSlots], which the groups point into. *)
Definition UpdateColors (MaterialSlots : list MaterialVertexGroup.t)
    (m : Model) (NewCameraOrigin : vec3) : option Model :=
  match UpdateGroups MaterialSlots (ColoringGroups m) (Colors m) with
  | Some (groups', Colors') =>
      Some (Mk (Evaluator m) (Painter m) (LocalToWorld m) NewCameraOrigin
               Colors' groups')
  | None => None
  end.

(** What can happen to the process state between two constructions:
    another construction, a copy or the end of a [DrawableShared], and
    the scheduler running a queued [PruneStaleDrawableFromCache].  The
    scheduler is outside these sources; a trace may prune at any point. *)
Inductive Op : Type :=
| Construct (InEvaluator : SDFNode)
| Share (h : nat)
| Release (h : nat)
| Prune.

Definition step (p : Process.t SDFNode) (o : Op) : Process.t SDFNode :=
  match o with
  | Construct InEvaluator => snd (bind_Painter InEvaluator p)
  | Share h => Process.share h p
  | Release h => Process.release h p
  | Prune => Process.PruneStaleDrawableFromCache p
  end.

Definition run (trace : list Op) (p : Process.t SDFNode) : Process.t SDFNode :=
  fold_left step trace p.

(** The cache entries for [Key] whose Drawable is alive. *)
Definition live_entries (p : Process.t SDFNode) (Key : Z) : list (Z * nat) :=
  List.filter (fun Entry => (fst Entry =? Key) && Process.live p (snd Entry))
    (Process.DrawableCache p).

(** How often [Sodapop::Populate] was called on Drawable [h]. *)
Definition builds (p : Process.t SDFNode) (h : nat) : nat :=
  length (List.filter (Nat.eqb h) (Process.Populated p)).

(** What every reachable process state satisfies: cached and populated
    handles are allocated, a key has at most one living Drawable in the
    cache, and a cached Drawable was populated exactly once. *)
Definition cache_inv (p : Process.t SDFNode) : Prop :=
  (forall Key h, (Key, h) ∈ Process.DrawableCache p ->
                 (h < length (Process.Drawables p))%nat)
  /\ (forall h, h ∈ Process.Populated p -> (h < length (Process.Drawables p))%nat)
  /\ (forall Key, (length (live_entries p Key) <= 1)%nat)
  /\ (forall Key h, (Key, h) ∈ Process.DrawableCache p -> builds p h = 1%nat).

(** The writes the specification describes for one group: pending color
    [i] goes to index [Vertices[IndexStart + i]], for [i] from 0 to
    [IndexRange - 1]; none when the pending buffer is empty or a lookup
    fails. *)
Definition group_writes (MaterialSlots : list MaterialVertexGroup.t)
    (Batch : InstanceColoringGroup.t vec4) : list (nat * vec4) :=
  match InstanceColoringGroup.Colors Batch,
        MaterialSlots !! InstanceColoringGroup.VertexGroup Batch with
  | _ :: _, Some slot =>
      omap (fun i : nat =>
              match MaterialVertexGroup.Vertices slot
                      !! (Z.to_nat (InstanceColoringGroup.IndexStart Batch) + i)%nat,
                    InstanceColoringGroup.Colors Batch !! i with
              | Some VertexIndex, Some c => Some (Z.to_nat VertexIndex, c)
              | _, _ => None
              end)
           (seq 0 (Z.to_nat (InstanceColoringGroup.IndexRange Batch)))
  | _, _ => []
  end.

Definition model_writes (MaterialSlots : list MaterialVertexGroup.t)
    (groups : list (InstanceColoringGroup.t vec4)) : list (nat * vec4) :=
  concat (map (group_writes MaterialSlots) groups).

(** Writing a list of (index, color) pairs in order. *)
Definition apply_writes (ws : list (nat * vec4)) (Colors : list vec4)
    : list vec4 :=
  fold_left (fun cs w => <[fst w := snd w]> cs) ws Colors.

(** What keeps every access of [UpdateColors] inside its vector: the
    group points at a slot, its index window lies inside the slot's
    [Vertices], a non-empty pending buffer has a color for every index
    of the window, and the window's vertex indices lie inside the color
    array of length [n]. *)
Definition group_ok (MaterialSlots : list MaterialVertexGroup.t) (n : nat)
    (Batch : InstanceColoringGroup.t vec4) : Prop :=
  InstanceColoringGroup.Colors Batch = [] \/
  exists slot,
    MaterialSlots !! InstanceColoringGroup.VertexGroup Batch = Some slot
    /\ 0 <= InstanceColoringGroup.IndexStart Batch
    /\ 0 <= InstanceColoringGroup.IndexRange Batch
    /\ InstanceColoringGroup.IndexStart Batch + InstanceColoringGroup.IndexRange Batch
       <= Z.of_nat (length (MaterialVertexGroup.Vertices slot))
    /\ Z.of_nat (length (MaterialVertexGroup.Vertices slot)) < 2 ^ 64
    /\ InstanceColoringGroup.IndexRange Batch
       <= Z.of_nat (length (InstanceColoringGroup.Colors Batch))
    /\ (forall (i : nat) (v : Z),
          Z.of_nat i < InstanceColoringGroup.IndexRange Batch ->
          MaterialVertexGroup.Vertices slot
            !! (Z.to_nat (InstanceColoringGroup.IndexStart Batch) + i)%nat = Some v ->
          0 <= v < Z.of_nat n).

End SDFModel.
End SDFModel.

(** ** Coloring groups of a finished mesh ([sdf_model.cpp]) *)

Module MeshReady.
Import SDFModel.

Section MeshReady.
Context {vec3 vec4 Transform SDFNode : Type}.

Local Abbreviation Model := (SDFModel.t vec3 vec4 Transform SDFNode).
Local Abbreviation Group := (InstanceColoringGroup.t vec4).

(** The [while] loop of [MeshReadyInner] for one vertex group; [slot] is
    the place of the group in [Painter->MaterialSlots], which the new
    coloring groups point at.  [fuel] is [RemainingRange], which every
    iteration lowers. *)
Fixpoint SplitRange (fuel : nat) (slot : nat) (Offset RemainingRange : Z)
    (ColoringGroups : list Group) : list Group :=
  match fuel with
  | O => ColoringGroups
  | S fuel' =>
      if 0 <? RemainingRange then
        let Range := Z.min RemainingRange 512 in
        SplitRange fuel' slot (wrap64 (Offset + Range))
          (wrap64 (RemainingRange - Range))
          (ColoringGroups ++ [InstanceColoringGroup.Mk slot Offset Range [] 0])
      else ColoringGroups
  end.

(** The loop over [Painter->MaterialSlots], from slot [slot] on. *)
Fixpoint SplitSlots (slot : nat) (MaterialSlots : list MaterialVertexGroup.t)
    (ColoringGroups : list Group) : list Group :=
  match MaterialSlots with
  | [] => ColoringGroups
  | VertexGroup :: rest =>
      let RemainingRange :=
        Z.of_nat (length (MaterialVertexGroup.Vertices VertexGroup)) in
      SplitSlots (S slot) rest
        (SplitRange (Z.to_nat RemainingRange) slot 0 RemainingRange
           ColoringGroups)
  end.

(** [MeshReadyInner(Model, Painter)], with the two members of the
    Painter it reads.  [None] is the failing [Assert].  The closing
    [Sodapop::Attach(Model)] acts on state outside these sources. *)
Definition MeshReadyInner (MaterialSlots : list MaterialVertexGroup.t)
    (PainterColors : list vec4) (m : Model) : option Model :=
  if Nat.eqb (length (ColoringGroups m)) 0 then
    Some (Mk (Evaluator m) (Painter m) (LocalToWorld m) (AtomicCameraOrigin m)
             PainterColors
             (SplitSlots 0 MaterialSlots (ColoringGroups m)))
  else None.

(** The groups [MeshReadyInner] is to make for a vertex group of [n]
    vertices: windows of 512 indices from 0 on, the last one shorter
    when 512 does not divide [n]. *)
Definition windows (slot : nat) (n : Z) : list Group :=
  map (fun j : nat =>
         InstanceColoringGroup.Mk slot (512 * Z.of_nat j)
           (Z.min 512 (n - 512 * Z.of_nat j)) [] 0)
      (seq 0 (Z.to_nat ((n + 511) / 512))).

(** Group [g] is responsible for position [i] of vertex group [slot]. *)
Definition paints (slot : nat) (i : Z) (g : Group) : bool :=
  Nat.eqb (InstanceColoringGroup.VertexGroup g) slot
  && (InstanceColoringGroup.IndexStart g <=? i)
  && (i <? InstanceColoringGroup.IndexStart g + InstanceColoringGroup.IndexRange g).

End MeshReady.
End MeshReady.

(** ** Material slots of a Drawable ([sdf_model.cpp]) *)

Module DrawableSlots.

(** The two members [Drawable::Drawable] fills.  A [MaterialShared] is a
    shared pointer, ordered and compared by the address it holds: a
    [Z].  Each [MaterialVertexGroup] of [MaterialSlots] is shown by the
    material it was constructed with. *)
Record t : Type := Mk {
  MaterialSlots : list Z;      (* std::vector<MaterialVertexGroup> *)
  SlotLookup : gmap Z nat      (* std::map<MaterialShared, size_t> *)
}.

(** The callback the constructor hands to [WalkMaterials]:
    [SlotLookup.insert] leaves a key that is present alone and reports
    whether it inserted. *)
Definition WalkCallback (Material : Z) (d : t) : t :=
  let NextIndex := length (MaterialSlots d) in
  match SlotLookup d !! Material with
  | Some _ => d
  | None =>
      Mk (MaterialSlots d ++ [Material])
         (<[Material := NextIndex]> (SlotLookup d))
  end.

(** [Drawable::Drawable(InName, InEvaluator)], as far as the slots go;
    [walk] lists the materials [Evaluator->WalkMaterials] reports, in
    the order of its calls. *)
Definition Drawable (walk : list Z) : t :=
  fold_left (fun d Material => WalkCallback Material d) walk (Mk [] ∅).

End DrawableSlots.

(** ** The Base64 dump of a rendered frame ([EncodeBase64]) *)

Module Base64.
Import String Ascii.

(** An [unsigned char] is a [Byte.byte], a [char] of the output an
    [ascii]. *)
Definition Base64 : string :=
  "ABCDEFGHIJKLMNOPQRSTUVWXYZabcdefghijklmnopqrstuvwxyz0123456789+/"%string.

(** The loop over [b]: [Chunk] takes the three bytes of word [w], the
    first in the highest place.  The index [i] is an [int] computed in
    [size_t]; where it is not below [Bytes.size()] the place stays 0. *)
Definition ReadChunk (Bytes : list Byte.byte) (w : Z) : Z :=
  fold_left
    (fun Chunk b =>
       let Chunk := Z.shiftl Chunk 8 mod 2 ^ 32 in
       let i := size_t_to_int
                  (wrap64 (wrap64 (3 * int_to_size_t w) + int_to_size_t b)) in
       if int_to_size_t i <? Z.of_nat (List.length Bytes) then
         match Bytes !! Z.to_nat (int_to_size_t i) with
         | Some x => Z.lor Chunk (Z.of_N (Byte.to_N x))
         | None => Chunk    (* unreachable: the index is in range *)
         end
       else Chunk)
    [0; 1; 2] 0.

(** The loop over [g]: four glyphs of six bits, the highest first. *)
Definition WriteGlyphs (Chunk : Z) (Encoded : list ascii) : list ascii :=
  fold_left
    (fun Encoded g =>
       let Inverse := size_t_to_int (wrap64 (3 - int_to_size_t g)) in
       let Glyph :=
         Z.land (Z.shiftr Chunk (wrap64 (int_to_size_t Inverse * 6))) 63 in
       if Glyph <? Z.of_nat (String.length Base64) then
         match get (Z.to_nat Glyph) Base64 with
         | Some c => Encoded ++ [c]
         | None => Encoded    (* unreachable: the glyph is in range *)
         end
       else Encoded)
    [0; 1; 2; 3] Encoded.

(** The loop over [w], from word [w] on; [fuel] is [Words - w]. *)
Fixpoint EncodeWords (fuel : nat) (Bytes : list Byte.byte) (w : Z)
    (Encoded : list ascii) : list ascii :=
  match fuel with
  | O => Encoded
  | S fuel' =>
      EncodeWords fuel' Bytes (w + 1) (WriteGlyphs (ReadChunk Bytes w) Encoded)
  end.

(** [EncodeBase64(Bytes, Encoded)]: what [Encoded] holds afterwards.
    The counter [w] is an [int]; [None] stands for a word count it
    cannot reach without overflow. *)
Definition EncodeBase64 (Bytes : list Byte.byte) (Encoded : list ascii)
    : option (list ascii) :=
  let Words := wrap64 (Z.of_nat (List.length Bytes) + 2) / 3 in
  if Words <=? 2 ^ 31 - 1 then
    Some (EncodeWords (Z.to_nat Words) Bytes 0 Encoded)
  else None.

(** The place of a character in [Base64], 64 for a stranger. *)
Fixpoint place (c : ascii) (alphabet : string) : Z :=
  match alphabet with
  | EmptyString => 0
  | String a rest => if Ascii.eqb a c then 0 else 1 + place c rest
  end.

(** The character for a six-bit value. *)
Definition glyph (g : Z) : ascii :=
  match get (Z.to_nat g) Base64 with
  | Some c => c
  | None => zero
  end.

(** The four characters of standard Base64 (RFC 4648) for the three
    bytes [b0], [b1], [b2]. *)
Definition word_glyphs (b0 b1 b2 : Z) : list ascii :=
  [glyph (b0 / 4); glyph (b0 mod 4 * 16 + b1 / 16);
   glyph (b1 mod 16 * 4 + b2 / 64); glyph (b2 mod 64)].

(** Byte [i] of [Bytes] as a number, 0 beyond the end. *)
Definition byte_at (Bytes : list Byte.byte) (i : Z) : Z :=
  match Bytes !! Z.to_nat i with
  | Some x => Z.of_N (Byte.to_N x)
  | None => 0
  end.

End Base64.

(** ** Names of the color spaces ([colors.cpp]) *)

Module Colors.
Import String.

(** [ColorSpace] is declared in [colors.h], outside these sources; its
    enumerators are the five that [EncodingNames] lists, and [Count],
    the length of that array. *)
Inductive ColorSpace : Type :=
| sRGB | LinearRGB | OkLAB | OkLCH | HSL | Count.

Definition ColorSpace_eqb (a b : ColorSpace) : bool :=
  match a, b with
  | sRGB, sRGB | LinearRGB, LinearRGB | OkLAB, OkLAB | OkLCH, OkLCH
  | HSL, HSL | Count, Count => true
  | _, _ => false
  end.

Definition EncodingNames : list (ColorSpace * string) :=
  [(sRGB, "sRGB"%string); (LinearRGB, "LinearRGB"%string);
   (OkLAB, "OkLAB"%string); (OkLCH, "OkLCH"%string); (HSL, "HSL"%string)].

(** The loop of [ColorSpaceName], over the entries still to be compared. *)
Fixpoint ColorSpaceName_from (entries : list (ColorSpace * string))
    (Encoding : ColorSpace) : string :=
  match entries with
  | [] => "error"%string
  | entry :: rest =>
      if ColorSpace_eqb (fst entry) Encoding then snd entry
      else ColorSpaceName_from rest Encoding
  end.

Definition ColorSpaceName (Encoding : ColorSpace) : string :=
  ColorSpaceName_from EncodingNames Encoding.

(** The loop of [FindColorSpace]: the returned flag and [OutEncoding],
    a reference parameter. *)
Fixpoint FindColorSpace_from (entries : list (ColorSpace * string))
    (Name : string) (OutEncoding : ColorSpace) : bool * ColorSpace :=
  match entries with
  | [] => (false, OutEncoding)
  | entry :: rest =>
      if String.eqb (snd entry) Name then (true, fst entry)
      else FindColorSpace_from rest Name OutEncoding
  end.

Definition FindColorSpace (Name : string) (OutEncoding : ColorSpace)
    : bool * ColorSpace :=
  FindColorSpace_from EncodingNames Name OutEncoding.

End Colors.

(** ** Drawing a Drawable ([sdf_rendering.cpp]) *)

Module Rendering.

Inductive VisibilityStates : Type := Invisible | Imminent | Visible.

Inductive Buffer : Type :=
| IndexBuffer | PositionBuffer      (* members of the Drawable *)
| ColorBuffer.                      (* member of the instance *)

(** The calls into OpenGL and into [Buffer], which are outside these
    sources, with the arguments that vary. *)
Inductive Call : Type :=
| Upload (b : Buffer) (Bytes : Z)               (* Buffer::Upload(..., size_t Bytes) *)
| Bind (b : Buffer)                             (* Buffer::Bind(...) *)
| glVertexAttribPointer (Binding : Z)
| glDrawArrays (count : Z)                      (* GLsizei count *)
| glDrawElements (count : Z).                   (* GLsizei count *)

(** What one call of [Drawable::DrawGL4] or [Drawable::DrawES2] reads:
    the sizes of the Drawable's [Indices] and [Positions] at that
    moment, and the instance's [Visibility] and the size of its
    [Colors]. *)
Record Draw : Type := MkDraw {
  Indices_size : Z;
  Positions_size : Z;
  Visibility : VisibilityStates;
  Colors_size : Z
}.

Definition is_Imminent (v : VisibilityStates) : bool :=
  match v with Imminent => true | _ => false end.

(** [Drawable::DrawGL4(Instance)]: [MeshUploaded] afterwards and the
    calls made.  [sizeof(uint32_t)] is 4 and [sizeof(glm::vec4)] is 16. *)
Definition DrawGL4 (d : Draw) (MeshUploaded : bool) : bool * list Call :=
  if is_Imminent (Visibility d) then (MeshUploaded, [])
  else
    let upload :=
      if negb MeshUploaded then
        [Upload IndexBuffer (wrap64 (Indices_size d * 4));
         Upload PositionBuffer (wrap64 (Positions_size d * 16))]
      else [] in
    let draw :=
      if 0 <? Colors_size d then
        [Upload ColorBuffer (wrap64 (Colors_size d * 16));
         Bind IndexBuffer; Bind PositionBuffer; Bind ColorBuffer;
         glDrawArrays (size_t_to_int (Indices_size d))]
      else [] in
    (true, upload ++ draw).

(** [Drawable::DrawES2(PositionBinding, ColorBinding, Instance)]. *)
Definition DrawES2 (PositionBinding ColorBinding : Z) (d : Draw)
    (MeshUploaded : bool) : bool * list Call :=
  if is_Imminent (Visibility d) then (MeshUploaded, [])
  else
    let upload :=
      if negb MeshUploaded then
        [Upload IndexBuffer (wrap64 (Indices_size d * 4));
         Upload PositionBuffer (wrap64 (Positions_size d * 16))]
      else [] in
    let draw :=
      if 0 <? Colors_size d then
        [Bind IndexBuffer; Bind PositionBuffer;
         glVertexAttribPointer PositionBinding;
         Upload ColorBuffer (wrap64 (Colors_size d * 16)); Bind ColorBuffer;
         glVertexAttribPointer ColorBinding;
         glDrawElements (size_t_to_int (Indices_size d))]
      else [] in
    (true, upload ++ draw).

(** Successive draws of one Drawable, for whichever instances. *)
Fixpoint Draws (DrawOne : Draw -> bool -> bool * list Call) (ds : list Draw)
    (MeshUploaded : bool) : bool * list Call :=
  match ds with
  | [] => (MeshUploaded, [])
  | d :: rest =>
      let '(up, cs) := DrawOne d MeshUploaded in
      let '(up', cs') := Draws DrawOne rest up in
      (up', cs ++ cs')
  end.

Definition is_mesh_upload (c : Call) : bool :=
  match c with
  | Upload IndexBuffer _ | Upload PositionBuffer _ => true
  | _ => false
  end.

Definition is_draw (c : Call) : bool :=
  match c with
  | glDrawArrays _ | glDrawElements _ => true
  | _ => false
  end.

End Rendering.

(** ** Routing a mouse button event ([sdf_model.cpp]) *)

Module Mouse.
Import Rendering.

(** The fields of [MouseEvent] and [RayHit] that [DeliverMouseButton]
    reads or writes; both structs are declared outside these sources
    ([events.h], [sdf_evaluator.h]). *)
Record MouseEvent (vec3 : Type) : Type := MkEvent {
  Type_ : Z;            (* Event.Type *)
  RayOrigin : vec3;
  RayDir : vec3;
  AnyHit : bool;
  Cursor : vec3
}.
Arguments MkEvent {vec3} _ _ _ _ _.
Arguments Type_ {vec3} _.
Arguments RayOrigin {vec3} _.
Arguments RayDir {vec3} _.
Arguments AnyHit {vec3} _.
Arguments Cursor {vec3} _.

Record RayHit (vec3 float : Type) : Type := MkHit {
  Hit : bool;
  Travel : float;
  Position : vec3
}.
Arguments MkHit {vec3 float} _ _ _.
Arguments Hit {vec3 float} _.
Arguments Travel {vec3 float} _.
Arguments Position {vec3 float} _.

(** An [SDFModel] as the event routing sees it: its address, its
    listen flags and visibility, and what its [RayMarch] answers. *)
Record Instance (vec3 float : Type) : Type := MkInstance {
  this : nat;
  MouseListenFlags : Z;                 (* int *)
  Visibility : VisibilityStates;
  RayMarch : vec3 -> vec3 -> RayHit vec3 float
}.
Arguments MkInstance {vec3 float} _ _ _ _.
Arguments this {vec3 float} _.
Arguments MouseListenFlags {vec3 float} _.
Arguments Visibility {vec3 float} _.
Arguments RayMarch {vec3 float} _ _ _.

(** The locals of [DeliverMouseButton] that [GatherThunk] captures by
    reference. *)
Record Gathered (vec3 float : Type) : Type := MkGathered {
  Nearest : float;
  NearestMatch : option nat;            (* SDFModelShared, may be nullptr *)
  MouseUpRecipients : list nat;
  Event : MouseEvent vec3
}.
Arguments MkGathered {vec3 float} _ _ _ _.
Arguments Nearest {vec3 float} _.
Arguments NearestMatch {vec3 float} _.
Arguments MouseUpRecipients {vec3 float} _.
Arguments Event {vec3 float} _.

Section Mouse.
Context {vec3 float : Type}.

(** Declared outside these sources and taken as parameters. *)
Variable MOUSE_FLAG : Z -> Z.                   (* the macro of events.h *)
Variable MOUSE_DOWN MOUSE_UP : Z.
Variable float_lt : float -> float -> bool.     (* < on float *)
Variable infinity : float.
(** The virtual [OnMouseEvent(Event, Picked)] of the model at an
    address: what it makes of the event it is handed by reference. *)
Variable OnMouseEvent : nat -> MouseEvent vec3 -> bool -> MouseEvent vec3.

Definition is_Visible (v : VisibilityStates) : bool :=
  match v with Visible => true | _ => false end.

Definition MatchEvent (Model : Instance vec3 float) (Event : MouseEvent vec3)
    : bool :=
  Z.land (MouseListenFlags Model) (MOUSE_FLAG (Type_ Event))
  =? MOUSE_FLAG (Type_ Event).

(** [GatherThunk(Model)]. *)
Definition GatherThunk (Release : bool) (g : Gathered vec3 float)
    (Model : Instance vec3 float) : Gathered vec3 float :=
  if MatchEvent Model (Event g) then
    let g1 :=
      if Release then
        MkGathered (Nearest g) (NearestMatch g)
                   (MouseUpRecipients g ++ [this Model]) (Event g)
      else g in
    if is_Visible (Visibility Model) then
      let Query := RayMarch Model (RayOrigin (Event g1)) (RayDir (Event g1)) in
      if Hit Query && float_lt (Travel Query) (Nearest g1) then
        MkGathered (Travel Query) (Some (this Model)) (MouseUpRecipients g1)
          (MkEvent (Type_ (Event g1)) (RayOrigin (Event g1)) (RayDir (Event g1))
                   true (Position Query))
      else g1
    else g1
  else g.

(** The loop over [MouseUpRecipients]: the calls of [OnMouseEvent], each
    with the event as it is handed over and the [Picked] flag. *)
Fixpoint NotifyRecipients (Recipients : list nat) (NearestMatch : option nat)
    (Event : MouseEvent vec3) : list (nat * MouseEvent vec3 * bool) :=
  match Recipients with
  | [] => []
  | Recipient :: rest =>
      let Picked :=
        match NearestMatch with
        | Some nearest => Nat.eqb Recipient nearest
        | None => false
        end in
      (Recipient, Event, Picked)
      :: NotifyRecipients rest NearestMatch (OnMouseEvent Recipient Event Picked)
  end.

(** [DeliverMouseButton(Event)]: the returned flag and the calls of
    [OnMouseEvent] made.  [Models] lists the models in the order in
    which [PaintingSet::GlobalApply] visits them. *)
Definition DeliverMouseButton (Models : list (Instance vec3 float))
    (Event : MouseEvent vec3) : bool * list (nat * MouseEvent vec3 * bool) :=
  let Press := Type_ Event =? MOUSE_DOWN in
  let Release := Type_ Event =? MOUSE_UP in
  let g := fold_left (GatherThunk Release) Models
             (MkGathered infinity None [] Event) in
  let '(ReturnToSender, Event1, calls1) :=
    match Press, NearestMatch g with
    | true, Some nearest =>
        (false, OnMouseEvent nearest (Mouse.Event g) true,
         [(nearest, Mouse.Event g, true)])
    | _, _ => (true, Mouse.Event g, [])
    end in
  if 0 <? Z.of_nat (length (MouseUpRecipients g)) then
    (false, calls1 ++ NotifyRecipients (MouseUpRecipients g) (NearestMatch g) Event1)
  else (ReturnToSender, calls1).

(** [DeliverMouseMove] and [DeliverMouseScroll]. *)
Definition DeliverMouseMove (Origin RayDir : vec3) (MouseX MouseY : Z) : bool :=
  true.
Definition DeliverMouseScroll (Origin RayDir : vec3) (ScrollX ScrollY : Z)
    : bool := true.

End Mouse.
End Mouse.

(* ===================================================================== *)
(** * Part II: properties                                                 *)
(* ===================================================================== *)

Lemma wrap64_small z : 0 <= z < 2 ^ 64 -> wrap64 z = z.
Proof. intros H. unfold wrap64. apply Z.mod_small. exact H. Qed.

Lemma wrap64_range z : 0 <= wrap64 z < 2 ^ 64.
Proof. unfold wrap64. apply Z.mod_pos_bound. lia. Qed.

(** ** Facts about lists used throughout *)

Module ListFacts.

Lemma filter_length_mono {A} (f g : A -> bool) (l : list A) :
  (forall x, x ∈ l -> f x = true -> g x = true) ->
  (length (List.filter f l) <= length (List.filter g l))%nat.
Proof.
  induction l as [|a l IH]; intros H; cbn [List.filter]; [lia|].
  assert (IH' := IH (fun x Hx => H x (list_elem_of_further _ _ _ Hx))).
  destruct (f a) eqn:Ef.
  - rewrite (H a (list_elem_of_here _ _) Ef). cbn [length]. lia.
  - destruct (g a); cbn [length]; lia.
Qed.

Lemma filter_ext_elem {A} (f g : A -> bool) (l : list A) :
  (forall x, x ∈ l -> f x = g x) -> List.filter f l = List.filter g l.
Proof.
  induction l as [|a l IH]; intros H; cbn [List.filter]; [reflexivity|].
  rewrite (H a (list_elem_of_here _ _)).
  rewrite IH by (intros x Hx; apply H; now apply list_elem_of_further).
  reflexivity.
Qed.

Lemma omap_cons_eq {A B} (f : A -> option B) (x : A) (l : list A) :
  omap f (x :: l)
  = match f x with Some y => y :: omap f l | None => omap f l end.
Proof. reflexivity. Qed.

Lemma elem_of_concat_map {A B} (f : A -> list B) (l : list A) (y : B) :
  y ∈ concat (map f l) <-> exists x, x ∈ l /\ y ∈ f x.
Proof.
  rewrite list_elem_of_In, in_concat. split.
  - intros (ws & Hws & Hy). apply in_map_iff in Hws.
    destruct Hws as (x & <- & Hx). exists x.
    split; apply list_elem_of_In; assumption.
  - intros (x & Hx & Hy). exists (f x).
    split; [apply in_map | ]; apply list_elem_of_In; assumption.
Qed.

Lemma elem_of_map {A B} (f : A -> B) (l : list A) (y : B) :
  y ∈ map f l <-> exists x, y = f x /\ x ∈ l.
Proof.
  rewrite list_elem_of_In, in_map_iff. split; intros (x & H1 & H2); exists x.
  - split; [congruence | now apply list_elem_of_In].
  - split; [congruence | now apply list_elem_of_In].
Qed.

Lemma lookup_map_seq {A} (f : nat -> A) (len i : nat) :
  map f (seq 0 len) !! i = if Nat.ltb i len then Some (f i) else None.
Proof.
  destruct (Nat.ltb i len) eqn:E.
  - apply Nat.ltb_lt in E.
    change (map f (seq 0 len)) with (f <$> seq 0 len).
    rewrite list_lookup_fmap, lookup_seq_lt by exact E. reflexivity.
  - apply Nat.ltb_ge in E. apply lookup_ge_None.
    rewrite length_map, length_seq. exact E.
Qed.

Lemma map_seq_ext {A} (f g : nat -> A) (len : nat) :
  (forall i, (i < len)%nat -> f i = g i) ->
  map f (seq 0 len) = map g (seq 0 len).
Proof.
  intros H. apply map_ext_in. intros i Hi. apply in_seq in Hi. apply H. lia.
Qed.

Lemma insert_map_seq {A} (f : nat -> A) (len i : nat) (x : A) :
  <[i := x]> (map f (seq 0 len))
  = map (fun j => if Nat.eqb j i then x else f j) (seq 0 len).
Proof.
  apply list_eq. intros j.
  destruct (decide (j = i)) as [->|Hne].
  - rewrite !lookup_map_seq. destruct (Nat.ltb i len) eqn:E.
    + rewrite list_lookup_insert_eq
        by (rewrite length_map, length_seq; now apply Nat.ltb_lt).
      now rewrite Nat.eqb_refl.
    + rewrite list_insert_ge
        by (rewrite length_map, length_seq; now apply Nat.ltb_ge).
      now rewrite lookup_map_seq, E.
  - rewrite list_lookup_insert_ne by congruence.
    rewrite !lookup_map_seq.
    replace (Nat.eqb j i) with false by (symmetry; now apply Nat.eqb_neq).
    reflexivity.
Qed.

Lemma alter_map_seq {A} (h : A -> A) (f : nat -> A) (len i : nat) :
  alter h i (map f (seq 0 len))
  = map (fun j => if Nat.eqb j i then h (f j) else f j) (seq 0 len).
Proof.
  apply list_eq. intros j.
  destruct (decide (j = i)) as [->|Hne].
  - rewrite list_lookup_alter_eq, !lookup_map_seq.
    destruct (Nat.ltb i len); [|reflexivity].
    cbn. now rewrite Nat.eqb_refl.
  - rewrite list_lookup_alter_ne by congruence.
    rewrite !lookup_map_seq.
    replace (Nat.eqb j i) with false by (symmetry; now apply Nat.eqb_neq).
    reflexivity.
Qed.

Lemma filter_eqb_seq (k start len : nat) :
  List.filter (fun i => Nat.eqb i k) (seq start len)
  = if Nat.leb start k && Nat.ltb k (start + len) then [k] else [].
Proof.
  revert start. induction len as [|len IH]; intros start.
  - cbn [seq List.filter].
    destruct (Nat.leb start k) eqn:E1, (Nat.ltb k (start + 0)) eqn:E2;
      try reflexivity.
    apply Nat.leb_le in E1. apply Nat.ltb_lt in E2. lia.
  - cbn [seq List.filter]. rewrite IH.
    destruct (Nat.eqb start k) eqn:E.
    + apply Nat.eqb_eq in E. subst start.
      replace (Nat.leb (S k) k) with false by (symmetry; apply Nat.leb_gt; lia).
      replace (Nat.leb k k) with true by (symmetry; apply Nat.leb_le; lia).
      replace (Nat.ltb k (k + S len)) with true by (symmetry; apply Nat.ltb_lt; lia).
      reflexivity.
    + apply Nat.eqb_neq in E.
      destruct (Nat.leb (S start) k) eqn:E1, (Nat.ltb k (S start + len)) eqn:E2,
               (Nat.leb start k) eqn:E3, (Nat.ltb k (start + S len)) eqn:E4;
        try reflexivity;
        repeat match goal with
        | H : Nat.leb _ _ = true |- _ => apply Nat.leb_le in H
        | H : Nat.leb _ _ = false |- _ => apply Nat.leb_gt in H
        | H : Nat.ltb _ _ = true |- _ => apply Nat.ltb_lt in H
        | H : Nat.ltb _ _ = false |- _ => apply Nat.ltb_ge in H
        end; lia.
Qed.

Lemma Permutation_step {A} (LC cs pre ow ow' post R R' : list A) :
  Permutation (cs ++ ow' ++ R') (ow ++ R) ->
  Permutation ((LC ++ cs) ++ (pre ++ ow' ++ post) ++ R')
              (LC ++ (pre ++ ow ++ post) ++ R).
Proof.
  intros H. rewrite <- !app_assoc. apply Permutation_app_head.
  etransitivity; [apply Permutation_app_swap_app|]. apply Permutation_app_head.
  etransitivity; [|apply Permutation_app_swap_app].
  rewrite (app_assoc cs ow').
  etransitivity; [apply Permutation_app_swap_app|]. apply Permutation_app_head.
  rewrite <- app_assoc. exact H.
Qed.

Lemma lookup_repeat_lt {A} (x : A) (n i : nat) :
  (i < n)%nat -> repeat x n !! i = Some x.
Proof.
  revert i. induction n as [|n IH]; intros i Hi; [lia|].
  destruct i as [|i]; [reflexivity|]. cbn [repeat]. apply IH. lia.
Qed.

End ListFacts.

Module RepaintFacts.
Import Repaint.

Lemma flags_fence n g : RepaintFence (flags n g) = RepaintFence g.
Proof.
  revert g. induction n as [|n IH]; intros g; simpl; [reflexivity|].
  now rewrite IH.
Qed.

Lemma flags_requested n g :
  (1 <= n)%nat -> RepaintRequested (flags n g) = true.
Proof.
  revert g. induction n as [|n IH]; intros g Hn; [lia|].
  simpl. destruct n as [|n']; [reflexivity|]. apply IH. lia.
Qed.

Lemma post_idempotent g :
  PostPendingRepaintRequest (PostPendingRepaintRequest g)
  = PostPendingRepaintRequest g.
Proof.
  unfold PostPendingRepaintRequest.
  destruct (RepaintRequested g) eqn:E; simpl; [reflexivity|].
  now rewrite E.
Qed.

Lemma frames_fence n g :
  0 <= RepaintFence g < 2 ^ 64 ->
  RepaintFence (frames n g) = wrap64 (RepaintFence g + Z.of_nat n).
Proof.
  revert g. induction n as [|n IH]; intros g Hg.
  - cbn [frames]. change (Z.of_nat 0) with 0.
    rewrite Z.add_0_r. now rewrite wrap64_small.
  - cbn [frames]. rewrite IH.
    + unfold PostPendingRepaintRequest.
      cbn [FlagSceneRepaint RepaintRequested RepaintFence].
      unfold wrap64. rewrite Zplus_mod_idemp_l. f_equal. lia.
    + unfold PostPendingRepaintRequest.
      cbn [FlagSceneRepaint RepaintRequested RepaintFence].
      apply wrap64_range.
Qed.

Lemma run_app t1 t2 w :
  run (t1 ++ t2) w =
  (fst (run t2 (fst (run t1 w))), snd (run t1 w) ++ snd (run t2 (fst (run t1 w)))).
Proof.
  revert w. induction t1 as [|o t1 IH]; intros w.
  - simpl. now destruct (run t2 w).
  - simpl. destruct (step w o) as [w1 l1]. rewrite IH.
    destruct (run t1 w1) as [w2 l2]. simpl.
    now rewrite app_assoc.
Qed.

Lemma run_frame_calls n w :
  run (frame_calls n) w =
  ({| globals := frames n (globals w); LastRepaint := LastRepaint w |}, []).
Proof.
  revert w. induction n as [|n IH]; intros w.
  - simpl. now destruct w.
  - cbn [frame_calls run step]. rewrite IH. simpl. reflexivity.
Qed.

Lemma run_cons o t w :
  run (o :: t) w =
  (fst (run t (fst (step w o))), snd (step w o) ++ snd (run t (fst (step w o)))).
Proof.
  cbn [run]. destruct (step w o) as [w1 l1]. cbn [fst snd].
  destruct (run t w1) as [w2 l2]. reflexivity.
Qed.

Lemma posts_nonneg t : 0 <= posts t.
Proof. unfold posts. lia. Qed.

Lemma posts_cons o t :
  posts (o :: t) = (match o with Post => 1 | _ => 0 end) + posts t.
Proof. unfold posts. destruct o; simpl List.filter; simpl length; lia. Qed.

Lemma step_fence_bounds w o :
  0 <= RepaintFence (globals w) ->
  RepaintFence (globals w) + (match o with Post => 1 | _ => 0 end) < 2 ^ 64 ->
  RepaintFence (globals w) <= RepaintFence (globals (fst (step w o)))
  <= RepaintFence (globals w) + (match o with Post => 1 | _ => 0 end).
Proof.
  intros H0 Hb. destruct o; cbn [step fst globals FlagSceneRepaint RepaintFence].
  - lia.
  - unfold PostPendingRepaintRequest. destruct (RepaintRequested (globals w)).
    + cbn [RepaintFence]. rewrite wrap64_small by lia. lia.
    + lia.
  - destruct (StartRepaint (globals w) (LastRepaint w)) as [r stamp].
    cbn [fst globals]. lia.
Qed.

(** The fence over a trace that cannot wrap: it only grows, by at most
    the number of posts. *)
Lemma run_fence_monotone t w :
  0 <= RepaintFence (globals w) ->
  RepaintFence (globals w) + posts t < 2 ^ 64 ->
  RepaintFence (globals w) <= RepaintFence (globals (fst (run t w)))
  <= RepaintFence (globals w) + posts t.
Proof.
  revert w. induction t as [|o t IH]; intros w H0 Hb.
  - cbn [run fst]. unfold posts. simpl. lia.
  - rewrite run_cons. cbn [fst]. rewrite posts_cons in *.
    pose proof (posts_nonneg t) as Hp.
    pose proof (step_fence_bounds w o H0 ltac:(destruct o; lia)) as Hs.
    specialize (IH (fst (step w o)) ltac:(lia) ltac:(lia)). lia.
Qed.

Lemma post_after_flags (g : Globals) (n : nat) :
  (1 <= n)%nat ->
  RepaintFence (PostPendingRepaintRequest (flags n g))
  = wrap64 (RepaintFence g + 1).
Proof.
  intros Hn. unfold PostPendingRepaintRequest.
  rewrite flags_requested by exact Hn.
  cbn [RepaintFence]. now rewrite flags_fence.
Qed.

(** C5 (amended).  Any number [n >= 1] of [FlagSceneRepaint] calls
    followed by one [PostPendingRepaintRequest] moves the fence to
    [fence + 1] modulo 2^64, which is exactly [fence + 1] below the last
    [uint64_t] value; every post leaves the request flag down, and a
    post that finds it down (no flag since the previous post, or since
    program start) changes nothing; over any sequence of calls whose
    posts cannot carry the fence past 2^64 - 1 the fence never
    decreases. *)
Theorem fence_advances_once_per_post (g : Globals) (n : nat) :
  (1 <= n)%nat ->
  RepaintFence (PostPendingRepaintRequest (flags n g))
    = wrap64 (RepaintFence g + 1)
  /\ (0 <= RepaintFence g < 2 ^ 64 - 1 ->
      RepaintFence (PostPendingRepaintRequest (flags n g)) = RepaintFence g + 1)
  /\ (forall g' : Globals,
        RepaintRequested (PostPendingRepaintRequest g') = false)
  /\ (forall g' : Globals,
        RepaintRequested g' = false -> PostPendingRepaintRequest g' = g')
  /\ (forall (t : list Op) (w : World),
        0 <= RepaintFence (globals w) ->
        RepaintFence (globals w) + posts t < 2 ^ 64 ->
        RepaintFence (globals w) <= RepaintFence (globals (fst (run t w)))).
Proof.
  intros Hn. pose proof (post_after_flags g n Hn) as E.
  split; [exact E|]. split.
  - intros Hr. rewrite E. apply wrap64_small. lia.
  - split; [|split].
    + intros g'. unfold PostPendingRepaintRequest.
      now destruct (RepaintRequested g') eqn:Er.
    + intros g' Hg'. unfold PostPendingRepaintRequest. now rewrite Hg'.
    + intros t w H0 Hb. apply (run_fence_monotone t w H0 Hb).
Qed.

Lemma fence_advances_once_per_post_witness :
  RepaintFence (PostPendingRepaintRequest (flags 3 initial)) = 2
  /\ RepaintFence
       (PostPendingRepaintRequest (PostPendingRepaintRequest (flags 3 initial)))
     = 2.
Proof.
  destruct (fence_advances_once_per_post initial 3 ltac:(lia))
    as (_ & Hinc & Hdown & Hidle & _).
  split.
  - rewrite Hinc; [reflexivity | cbn; lia].
  - rewrite Hidle by apply Hdown. rewrite Hinc; [reflexivity | cbn; lia].
Defined.

(** What one more flag-and-post does after [n] frames that brought the
    fence to its last value. *)
Lemma fence_wraps_after (n : nat) :
  Z.of_nat n = 2 ^ 64 - 2 ->
  RepaintFence (frames n initial) = 2 ^ 64 - 1
  /\ RepaintFence (PostPendingRepaintRequest (flags 1 (frames n initial))) = 0.
Proof.
  intros Hn.
  assert (Hg : RepaintFence (frames n initial) = 2 ^ 64 - 1).
  { rewrite frames_fence by (cbn [initial RepaintFence]; lia).
    rewrite Hn. reflexivity. }
  split; [exact Hg|].
  rewrite (post_after_flags (frames n initial) 1 (le_n 1)), Hg. reflexivity.
Qed.

(** C5 as stated fails at the top of the counter's range: after
    2^64 - 2 frames from program start the fence reads 2^64 - 1, and the
    next flag-and-post makes it 0, which is neither [fence + 1] nor at
    least [fence]. *)
Lemma fence_wraps_counterexample :
  RepaintFence (frames (Z.to_nat (2 ^ 64 - 2)) initial) = 2 ^ 64 - 1
  /\ RepaintFence
       (PostPendingRepaintRequest
          (flags 1 (frames (Z.to_nat (2 ^ 64 - 2)) initial))) = 0
  /\ RepaintFence
       (PostPendingRepaintRequest
          (flags 1 (frames (Z.to_nat (2 ^ 64 - 2)) initial)))
     <> RepaintFence (frames (Z.to_nat (2 ^ 64 - 2)) initial) + 1
  /\ RepaintFence
       (PostPendingRepaintRequest
          (flags 1 (frames (Z.to_nat (2 ^ 64 - 2)) initial)))
     < RepaintFence (frames (Z.to_nat (2 ^ 64 - 2)) initial).
Proof.
  destruct (fence_wraps_after (Z.to_nat (2 ^ 64 - 2))) as [H1 H2].
  { apply Z2Nat.id. discriminate. }
  split; [exact H1|]. split; [exact H2|].
  rewrite H2, H1. split; [discriminate | reflexivity].
Qed.

(** The answers at fence value [v], for a group whose stamp is not ahead
    of the fence, over a trace that cannot wrap. *)
Lemma answers_shape (v : Z) (t : list Op) (w : World) :
  0 <= RepaintFence (globals w) ->
  LastRepaint w <= RepaintFence (globals w) ->
  RepaintFence (globals w) + posts t < 2 ^ 64 ->
  let l := answers_at v (snd (run t w)) in
  (v < RepaintFence (globals w) -> l = [])
  /\ (v = RepaintFence (globals w) -> LastRepaint w = v -> forallb id l = true)
  /\ (LastRepaint w < v -> stale_once l = true).
Proof.
  revert w. induction t as [|o t IH]; intros w H0 HL Hb; cbn zeta.
  - cbn [run snd]. unfold answers_at. cbn. auto.
  - rewrite run_cons. cbn [snd]. rewrite posts_cons in Hb.
    pose proof (posts_nonneg t) as Hp.
    unfold answers_at in *. rewrite List.filter_app, map_app.
    destruct o.
    + (* Flag *)
      specialize (IH (fst (step w Flag))). cbn [step fst snd] in *.
      cbn [globals LastRepaint FlagSceneRepaint RepaintFence] in IH.
      cbn [List.filter map app].
      apply IH; lia.
    + (* Post *)
      specialize (IH (fst (step w Post))). cbn [step fst snd] in *.
      cbn [globals LastRepaint] in IH. cbn [List.filter map app].
      unfold PostPendingRepaintRequest in IH |- *.
      destruct (RepaintRequested (globals w)).
      * cbn [RepaintFence] in IH. rewrite wrap64_small in IH by lia.
        rewrite wrap64_small by lia.
        destruct IH as (I1 & I2 & I3); [lia | lia | lia |].
        split; [intros; apply I1; lia|].
        split; [intros Hv _; rewrite I1 by lia; reflexivity|].
        exact I3.
      * apply IH; lia.
    + (* Start *)
      specialize (IH (fst (step w Start))). cbn [step] in *.
      unfold StartRepaint in *.
      destruct (LastRepaint w =? RepaintFence (globals w)) eqn:Ecur;
        cbn [negb fst snd globals LastRepaint] in *.
      * apply Z.eqb_eq in Ecur.
        destruct IH as (I1 & I2 & I3); [lia | lia | lia |].
        cbn [List.filter fst].
        destruct (RepaintFence (globals w) =? v) eqn:Ev;
          cbn [map snd app].
        -- apply Z.eqb_eq in Ev.
           split; [lia|]. split; [| lia].
           intros _ _. cbn [forallb id]. apply I2; lia.
        -- apply Z.eqb_neq in Ev.
           split; [exact I1|]. split; [lia|]. exact I3.
      * apply Z.eqb_neq in Ecur.
        destruct IH as (I1 & I2 & I3); [lia | lia | lia |].
        cbn [List.filter fst].
        destruct (RepaintFence (globals w) =? v) eqn:Ev;
          cbn [map snd app].
        -- apply Z.eqb_eq in Ev.
           split; [lia|]. split; [lia|].
           intros _. cbn [stale_once negb andb]. apply I2; lia.
        -- apply Z.eqb_neq in Ev.
           split; [exact I1|]. split; [lia|].
           intros Hlt.
           destruct (Z_lt_ge_dec v (RepaintFence (globals w))) as [Hv|Hv].
           ++ rewrite I1 by lia. reflexivity.
           ++ apply I3. lia.
Qed.

(** C6 (amended).  One call: a group whose stamp differs from the fence
    is told "stale" ([false]) and is stamped with the fence; a group
    whose stamp equals the fence is told "current" ([true]) and keeps
    its stamp.  Whole histories: for a group created with
    [LastRepaint = 0] and any sequence of flag, post and [StartRepaint]
    calls from program start with fewer than 2^64 - 1 posts (so that the
    fence has not wrapped), the answers given while the fence reads [v]
    are, for every [v], one "stale" followed only by "current". *)
Theorem start_repaint_stale_once (t : list Op) (v : Z) :
  posts t < 2 ^ 64 - 1 ->
  stale_once (answers_at v (snd (run t fresh))) = true
  /\ (forall (g : Globals) (stamp : Z),
        stamp <> RepaintFence g ->
        StartRepaint g stamp = (false, RepaintFence g))
  /\ (forall (g : Globals) (stamp : Z),
        stamp = RepaintFence g ->
        StartRepaint g stamp = (true, stamp)).
Proof.
  intros Hp. split; [|split].
  - pose proof (answers_shape v t fresh) as H.
    cbn [fresh globals LastRepaint initial RepaintFence] in H.
    destruct H as (H1 & _ & H3); [lia | lia | lia |].
    destruct (Z_lt_ge_dec 0 v) as [Hv|Hv].
    + apply H3. exact Hv.
    + rewrite H1 by lia. reflexivity.
  - intros g stamp Hne. unfold StartRepaint.
    apply Z.eqb_neq in Hne. now rewrite Hne.
  - intros g stamp He. unfold StartRepaint.
    apply Z.eqb_eq in He. now rewrite He.
Qed.

Lemma start_repaint_stale_once_witness :
  answers_at 2
    (snd (run [Start; Start; Flag; Flag; Post; Start; Start; Start; Post; Start]
            fresh))
  = [false; true; true; true]
  /\ stale_once
       (answers_at 2
          (snd (run [Start; Start; Flag; Flag; Post; Start; Start; Start; Post; Start]
                  fresh))) = true.
Proof.
  split; [reflexivity|].
  apply (start_repaint_stale_once
           [Start; Start; Flag; Flag; Post; Start; Start; Start; Post; Start] 2).
  vm_compute. reflexivity.
Defined.

Lemma first_call_current_after (n : nat) :
  Z.of_nat n = 2 ^ 64 - 1 ->
  snd (run (frame_calls n ++ [Start]) fresh) = [(0, true)].
Proof.
  intros Hn. rewrite run_app, run_frame_calls. cbn [fst snd app].
  cbn [run step globals LastRepaint fresh].
  assert (F : RepaintFence (frames n initial) = 0).
  { rewrite frames_fence by (cbn [initial RepaintFence]; lia).
    rewrite Hn. reflexivity. }
  unfold StartRepaint. rewrite F. reflexivity.
Qed.

(** C6 as stated fails once the fence has wrapped: after 2^64 - 1 frames
    from program start the fence reads 0, and a group that has never been
    repainted (stamp 0) is told "current" by its very first call: the
    answers at fence value 0 are not "stale once". *)
Lemma stale_never_reported_counterexample :
  stale_once
    (answers_at 0
       (snd (run (frame_calls (Z.to_nat (2 ^ 64 - 1)) ++ [Start]) fresh)))
  = false.
Proof.
  rewrite first_call_current_after; [reflexivity|].
  apply Z2Nat.id. discriminate.
Qed.

End RepaintFacts.

Module SequenceGeneratorFacts.
Import SequenceGenerator.

(** The examples take [max_size()] to be [2^59 - 1], its value in
    libstdc++ for the 16-byte [Slice] of a 64-bit target. *)
Example Reset_100_4 :
  Reset (2 ^ 59 - 1) 100 4
  = Some (Mk [MkSlice 0 25; MkSlice 25 50; MkSlice 50 75; MkSlice 75 100] 0).
Proof. reflexivity. Qed.

Example Reset_3_8 :
  Reset (2 ^ 59 - 1) 3 8 = Some (Mk [MkSlice 0 1; MkSlice 1 2; MkSlice 2 3] 0).
Proof. reflexivity. Qed.

Example Reset_0_4 : Reset (2 ^ 59 - 1) 0 4 = Some (Mk [] 0).
Proof. reflexivity. Qed.

Example Reset_10_4 :
  Reset (2 ^ 59 - 1) 10 4
  = Some (Mk [MkSlice 0 3; MkSlice 3 6; MkSlice 6 9; MkSlice 9 10] 0).
Proof. reflexivity. Qed.

Example Reset_0_partitions : Reset (2 ^ 59 - 1) 100 0 = None.
Proof. reflexivity. Qed.

(** Within [max_size()], [Reset] is the slice length and the loop. *)
Lemma Reset_Some (max_size Count Partitions : Z) :
  1 <= Partitions <= max_size ->
  Reset max_size Count Partitions
  = Some (Mk (ResetLoop (Z.to_nat Partitions)
                (wrap64 (wrap64 (Count + Partitions) - 1) / Partitions)
                Count 0 [])
             0).
Proof.
  intros HP. unfold Reset.
  replace (Partitions =? 0) with false by (symmetry; apply Z.eqb_neq; lia).
  replace (max_size <? Partitions) with false by (symmetry; apply Z.ltb_ge; lia).
  reflexivity.
Qed.

(** Beyond [max_size()] the call throws, whatever [Count] is. *)
Lemma Reset_length_error (max_size Count Partitions : Z) :
  max_size < Partitions -> Reset max_size Count Partitions = None.
Proof.
  intros HP. unfold Reset. destruct (Partitions =? 0); [reflexivity|].
  replace (max_size <? Partitions) with true by (symmetry; apply Z.ltb_lt; lia).
  reflexivity.
Qed.

Lemma ResetLoop_acc fuel SliceCount Count SliceStart acc :
  ResetLoop fuel SliceCount Count SliceStart acc
  = acc ++ ResetLoop fuel SliceCount Count SliceStart [].
Proof.
  revert SliceStart acc. induction fuel as [|fuel IH]; intros SliceStart acc.
  - cbn [ResetLoop]. now rewrite app_nil_r.
  - cbn [ResetLoop].
    destruct (SliceStart <? Z.min (wrap64 (SliceStart + SliceCount)) Count).
    + rewrite IH. rewrite (IH _ ([] ++ _)). cbn [app]. now rewrite <- app_assoc.
    + now rewrite app_nil_r.
Qed.

(** The loop tiles [SliceStart, Count) when the remaining iterations
    reach [Count] without leaving the range of [size_t]. *)
Lemma ResetLoop_tiles fuel SliceCount Count SliceStart :
  0 <= SliceStart <= Count -> 0 <= SliceCount ->
  SliceStart + Z.of_nat fuel * SliceCount < 2 ^ 64 ->
  Count <= SliceStart + Z.of_nat fuel * SliceCount ->
  tiles SliceStart Count (ResetLoop fuel SliceCount Count SliceStart [])
  /\ (length (ResetLoop fuel SliceCount Count SliceStart []) <= fuel)%nat.
Proof.
  revert SliceStart. induction fuel as [|fuel IH]; intros SliceStart Hs Hc Hlt Hge.
  - cbn [ResetLoop tiles length]. split; lia.
  - cbn [ResetLoop].
    assert (Hm : Z.of_nat (S fuel) * SliceCount
                 = Z.of_nat fuel * SliceCount + SliceCount) by lia.
    assert (Hf : 0 <= Z.of_nat fuel * SliceCount) by nia.
    rewrite Hm in *.
    rewrite wrap64_small by lia.
    destruct (SliceStart <? Z.min (SliceStart + SliceCount) Count) eqn:E.
    + apply Z.ltb_lt in E. rewrite ResetLoop_acc.
      cbn [app tiles Start StopBefore].
      destruct (IH (Z.min (SliceStart + SliceCount) Count)) as [IH1 IH2];
        [lia | lia | lia | lia |].
      repeat split; [exact E | exact IH1 |]. cbn [length]. lia.
    + apply Z.ltb_ge in E. cbn [tiles length]. split; lia.
Qed.


Lemma tiles_ordered from to lanes : tiles from to lanes -> from <= to.
Proof.
  revert from. induction lanes as [|s rest IH]; intros from H.
  - cbn in H. lia.
  - destruct H as (Hs & Hlt & Hrest). specialize (IH _ Hrest). lia.
Qed.





Lemma Reset_SliceCount Count Partitions :
  0 <= Count -> 1 <= Partitions -> Count + Partitions - 1 < 2 ^ 64 ->
  wrap64 (wrap64 (Count + Partitions) - 1) / Partitions
  = (Count + Partitions - 1) / Partitions.
Proof.
  intros HC HP Hb. f_equal. unfold wrap64.
  rewrite Zminus_mod_idemp_l. apply Z.mod_small. lia.
Qed.




End SequenceGeneratorFacts.

Module ParallelAccumulatorFacts.
Import ParallelAccumulator.

Lemma Join_concat {ValueT} (a : t ValueT) (Merged : list ValueT) :
  Join a Merged = Merged ++ concat (Lanes a).
Proof.
  unfold Join. generalize (Lanes a) as lanes. intros lanes. revert Merged.
  induction lanes as [|l lanes IH]; intros Merged; cbn [fold_left concat].
  - now rewrite app_nil_r.
  - rewrite IH. now rewrite app_assoc.
Qed.

(** A successful [Advance] hands out the whole lane under the cursor and
    leaves that lane empty. *)
Lemma Advance_hands_out_lane {ValueT} (a : t ValueT) Batch BatchStart
    (i : nat) (lane : list ValueT) :
  Progress a = Z.of_nat i -> Lanes a !! i = Some lane ->
  ret (Advance a Batch BatchStart) = true
  /\ OutBatch (Advance a Batch BatchStart) = lane
  /\ Lanes (acc (Advance a Batch BatchStart)) = <[i := []]> (Lanes a).
Proof.
  intros Hp Hl. pose proof (lookup_lt_Some _ _ _ Hl) as Hi.
  unfold Advance. rewrite Hp.
  replace (Z.of_nat i <? Z.of_nat (length (Lanes a))) with true
    by (symmetry; apply Z.ltb_lt; lia).
  rewrite Nat2Z.id, Hl. cbn. auto.
Qed.

(** C4 (the code departs from the claim).  [OutBatchStart] is a by-value
    parameter, so whatever [Advance] computes for it, the caller's
    variable keeps the value it had before the call.  On the three lanes
    [[10]], [[20; 21]], [[30]] the draining loop of [RunInner] receives
    the batches in order, each with start 0, where the offsets in the
    merged sequence are 0, 1 and 3; the callee's own copy is 0 as well
    for the second lane, because the lane before it has already been
    moved out. *)
Theorem Advance_start_not_delivered :
  (forall (ValueT : Type) (a : t ValueT) (Batch : list ValueT) (BatchStart : Z),
      snd (call_Advance a Batch BatchStart) = BatchStart)
  /\ drain 4 (Mk [[10]; [20; 21]; [30]] 0) [] 0
     = [([10], 0); ([20; 21], 0); ([30], 0)]
  /\ map (merged_offset [[10]; [20; 21]; [30]]) [0%nat; 1%nat; 2%nat]
     = [0; 1; 3]
  /\ OutBatchStart_local (Advance (Mk [[]; [20; 21]; [30]] 1) [10] 0) = 0
  /\ Join (Mk [[10]; [20; 21]; [30]] 0) [] = [10; 20; 21; 30].
Proof.
  split; [intros; reflexivity|].
  repeat split; reflexivity.
Qed.

End ParallelAccumulatorFacts.

Module CacheFacts.
Import Process SDFModel.
Import ListFacts.

Section Cache.
Context {vec3 vec4 Transform SDFNode : Type}.
Variable Transform_default : Transform.
Variable vec3_zero : vec3.
Variable SDFNode_Copy : SDFNode -> SDFNode.
Variable get : SDFNode -> Z.

Local Abbreviation bind := (bind_Painter SDFNode_Copy get).
Local Abbreviation step' := (step SDFNode_Copy get).
Local Abbreviation run' := (run SDFNode_Copy get).
Local Abbreviation P := (Process.t SDFNode).
Local Abbreviation new_SDFModel :=
  (@SDFModel vec3 vec4 Transform SDFNode Transform_default vec3_zero
     SDFNode_Copy get).

(** *** Liveness of a control block across the operations *)

Lemma live_lt (p : P) h : live p h = true -> (h < length (Drawables p))%nat.
Proof.
  unfold live. destruct (Drawables p !! h) eqn:E; [|discriminate].
  intros _. apply (lookup_lt_Some _ _ _ E).
Qed.

Lemma live_share (p : P) h' h : live (share h' p) h = live p h.
Proof.
  unfold share. destruct (Drawables p !! h') as [d|] eqn:E; [|reflexivity].
  destruct (live p h') eqn:L; [|reflexivity].
  unfold live in *. cbn [Drawables].
  destruct (decide (h = h')) as [->|Hne].
  - rewrite list_lookup_insert_eq by (apply (lookup_lt_Some _ _ _ E)).
    rewrite E in *. cbn [Drawable.use_count]. exact (eq_sym L).
  - now rewrite list_lookup_insert_ne by congruence.
Qed.

Lemma live_release (p : P) h' h :
  live (release h' p) h = true -> live p h = true.
Proof.
  unfold release. destruct (Drawables p !! h') as [d|] eqn:E; [|auto].
  unfold live. cbn [Drawables].
  destruct (decide (h = h')) as [->|Hne].
  - rewrite list_lookup_insert_eq by (apply (lookup_lt_Some _ _ _ E)).
    rewrite E. cbn [Drawable.use_count].
    destruct (Drawable.use_count d); [discriminate | reflexivity].
  - now rewrite list_lookup_insert_ne by congruence.
Qed.

Lemma live_release_other (p : P) h' h :
  h <> h' -> live (release h' p) h = live p h.
Proof.
  intros Hne. unfold release.
  destruct (Drawables p !! h') as [d|] eqn:E; [|reflexivity].
  unfold live. cbn [Drawables].
  now rewrite list_lookup_insert_ne by congruence.
Qed.

Lemma live_prune (p : P) h : live (PruneStaleDrawableFromCache p) h = live p h.
Proof. reflexivity. Qed.

Lemma length_share (p : P) h :
  length (Drawables (share h p)) = length (Drawables p).
Proof.
  unfold share. destruct (Drawables p !! h); [|reflexivity].
  destruct (live p h); [|reflexivity]. cbn [Drawables]. apply length_insert.
Qed.

Lemma length_release (p : P) h :
  length (Drawables (release h p)) = length (Drawables p).
Proof.
  unfold release. destruct (Drawables p !! h); [|reflexivity].
  cbn [Drawables]. apply length_insert.
Qed.

Lemma cache_share (p : P) h : DrawableCache (share h p) = DrawableCache p.
Proof.
  unfold share. destruct (Drawables p !! h); [|reflexivity].
  now destruct (live p h).
Qed.

Lemma populated_share (p : P) h : Populated (share h p) = Populated p.
Proof.
  unfold share. destruct (Drawables p !! h); [|reflexivity].
  now destruct (live p h).
Qed.

Lemma cache_release (p : P) h : DrawableCache (release h p) = DrawableCache p.
Proof. unfold release. now destruct (Drawables p !! h). Qed.

Lemma populated_release (p : P) h : Populated (release h p) = Populated p.
Proof. unfold release. now destruct (Drawables p !! h). Qed.

(** *** The cache scan *)

Lemma find_live_Some (p : P) cache Key h :
  find_live p cache Key = Some h -> (Key, h) ∈ cache /\ live p h = true.
Proof.
  induction cache as [|[k h'] rest IH]; cbn [find_live fst snd]; [discriminate|].
  destruct (k =? Key) eqn:Ek.
  - apply Z.eqb_eq in Ek. subst k. unfold lock.
    destruct (live p h') eqn:L.
    + intros [= <-]. split; [left | exact L].
    + intros H. destruct (IH H) as [Hin Hl]. split; [now right | exact Hl].
  - intros H. destruct (IH H) as [Hin Hl]. split; [now right | exact Hl].
Qed.

Lemma find_live_None (p : P) cache Key h :
  find_live p cache Key = None -> (Key, h) ∈ cache -> live p h = false.
Proof.
  induction cache as [|[k h'] rest IH]; cbn [find_live fst snd]; intros Hf Hin.
  - inversion Hin.
  - apply elem_of_cons in Hin. destruct Hin as [[= <- <-]|Hin].
    + rewrite Z.eqb_refl in Hf. unfold lock in Hf.
      destruct (live p h); [discriminate | reflexivity].
    + destruct (k =? Key); [|auto]. unfold lock in Hf.
      destruct (live p h'); [discriminate | auto].
Qed.

(** *** Living entries of a key *)

Lemma live_entries_elem (p : P) Key e :
  e ∈ live_entries p Key <->
  e ∈ DrawableCache p /\ fst e = Key /\ live p (snd e) = true.
Proof.
  unfold live_entries. rewrite !list_elem_of_In, List.filter_In, andb_true_iff, Z.eqb_eq.
  tauto.
Qed.

Lemma find_live_None_entries (p : P) Key :
  find_live p (DrawableCache p) Key = None -> live_entries p Key = [].
Proof.
  intros Hf. destruct (live_entries p Key) as [|e l] eqn:E; [reflexivity|].
  assert (He : e ∈ live_entries p Key) by (rewrite E; left).
  apply live_entries_elem in He. destruct He as (Hin & Hk & Hl).
  destruct e as [k h]. cbn [fst snd] in *. subst k.
  rewrite (find_live_None _ _ _ _ Hf Hin) in Hl. discriminate.
Qed.

(** With at most one living entry for the key, the scan finds exactly
    that entry's Drawable. *)
Lemma find_live_unique (p : P) Key h :
  (length (live_entries p Key) <= 1)%nat ->
  (Key, h) ∈ DrawableCache p -> live p h = true ->
  find_live p (DrawableCache p) Key = Some h.
Proof.
  intros Hone Hin Hl.
  destruct (find_live p (DrawableCache p) Key) as [h'|] eqn:Ef.
  - destruct (find_live_Some _ _ _ _ Ef) as [Hin' Hl'].
    assert (H1 : (Key, h) ∈ live_entries p Key)
      by (apply live_entries_elem; auto).
    assert (H2 : (Key, h') ∈ live_entries p Key)
      by (apply live_entries_elem; auto).
    destruct (live_entries p Key) as [|e [|e' l]]; cbn [length] in Hone.
    + inversion H1.
    + apply list_elem_of_singleton in H1, H2. congruence.
    + lia.
  - rewrite (find_live_None _ _ _ _ Ef Hin) in Hl. discriminate.
Qed.

Lemma erase_first_expired_subset (p : P) cache e :
  e ∈ erase_first_expired p cache -> e ∈ cache.
Proof.
  induction cache as [|a rest IH]; cbn [erase_first_expired]; [auto|].
  destruct (expired p (snd a)).
  - intros H. now right.
  - intros H. apply elem_of_cons in H. destruct H as [->|H]; [left | right; auto].
Qed.

(** Pruning only ever removes an entry whose Drawable has expired. *)
Lemma erase_first_expired_keeps (p : P) cache e :
  e ∈ cache -> live p (snd e) = true -> e ∈ erase_first_expired p cache.
Proof.
  induction cache as [|a rest IH]; cbn [erase_first_expired]; intros Hin Hl.
  - inversion Hin.
  - apply elem_of_cons in Hin. destruct Hin as [->|Hin].
    + unfold expired. rewrite Hl. cbn [negb]. left.
    + destruct (expired p (snd a)); [exact Hin | right; auto].
Qed.

Lemma erase_first_expired_filter (p : P) cache (f : Z * nat -> bool) :
  (forall e, f e = true -> live p (snd e) = true) ->
  List.filter f (erase_first_expired p cache) = List.filter f cache.
Proof.
  intros Hf. induction cache as [|a rest IH]; cbn [erase_first_expired]; [reflexivity|].
  destruct (expired p (snd a)) eqn:Ex.
  - cbn [List.filter]. destruct (f a) eqn:Efa; [|reflexivity].
    apply Hf in Efa. unfold expired in Ex. rewrite Efa in Ex. discriminate.
  - cbn [List.filter]. now rewrite IH.
Qed.

(** *** The invariant *)

Lemma inv_start : cache_inv (@start SDFNode).
Proof.
  unfold cache_inv, start, live_entries. cbn.
  repeat split; intros; try lia; exfalso; eapply not_elem_of_nil; eauto.
Qed.

Lemma live_entries_share (p : P) h Key :
  live_entries (share h p) Key = live_entries p Key.
Proof.
  unfold live_entries. rewrite cache_share.
  apply filter_ext_elem. intros e _. now rewrite live_share.
Qed.

Lemma builds_share (p : P) h h' : builds (share h p) h' = builds p h'.
Proof. unfold builds. now rewrite populated_share. Qed.

Lemma builds_release (p : P) h h' : builds (release h p) h' = builds p h'.
Proof. unfold builds. now rewrite populated_release. Qed.

Lemma inv_share (p : P) h : cache_inv p -> cache_inv (share h p).
Proof.
  intros (A & D & B & C). unfold cache_inv.
  rewrite cache_share, populated_share, length_share.
  repeat split; auto.
  - intros Key. now rewrite live_entries_share.
  - intros Key h' Hin. rewrite builds_share. eauto.
Qed.

Lemma inv_release (p : P) h : cache_inv p -> cache_inv (release h p).
Proof.
  intros (A & D & B & C). unfold cache_inv.
  rewrite cache_release, populated_release, length_release.
  repeat split; auto.
  - intros Key. etransitivity; [|apply (B Key)].
    unfold live_entries. rewrite cache_release.
    apply filter_length_mono. intros e _ He.
    apply andb_true_iff in He. destruct He as [Hk Hl].
    apply andb_true_iff. split; [exact Hk|]. now apply live_release in Hl.
  - intros Key h' Hin. rewrite builds_release. eauto.
Qed.

Lemma inv_prune (p : P) : cache_inv p -> cache_inv (PruneStaleDrawableFromCache p).
Proof.
  intros (A & D & B & C). unfold cache_inv, PruneStaleDrawableFromCache.
  cbn [Drawables DrawableCache Populated].
  repeat split; auto.
  - intros Key h Hin. apply erase_first_expired_subset in Hin. eauto.
  - intros Key. unfold live_entries. cbn [DrawableCache].
    rewrite erase_first_expired_filter.
    + apply (B Key).
    + intros e He. apply andb_true_iff in He. apply He.
  - intros Key h Hin. apply erase_first_expired_subset in Hin.
    apply (C Key h Hin).
Qed.

Lemma live_extend (p : P) (d : Drawable.t SDFNode) cache pop h :
  (h < length (Drawables p))%nat ->
  live (Process.Mk (Drawables p ++ [d]) cache pop) h = live p h.
Proof.
  intros Hh. unfold live. cbn [Drawables]. now rewrite lookup_app_l by exact Hh.
Qed.

Lemma live_fresh (p : P) (ev : SDFNode) cache pop :
  live (Process.Mk (Drawables p ++ [Drawable.Mk 1 ev]) cache pop)
       (length (Drawables p)) = true.
Proof.
  unfold live. cbn [Drawables].
  rewrite lookup_app_r by lia. rewrite Nat.sub_diag. reflexivity.
Qed.

Lemma builds_not_populated (p : P) h :
  h ∉ Populated p -> builds p h = 0%nat.
Proof.
  unfold builds. induction (Populated p) as [|a l IH]; intros Hn; [reflexivity|].
  cbn [List.filter]. destruct (Nat.eqb h a) eqn:E.
  - apply Nat.eqb_eq in E. subst a. exfalso. apply Hn. left.
  - apply IH. intros Hin. apply Hn. now right.
Qed.

Lemma inv_bind (p : P) (ev : SDFNode) : cache_inv p -> cache_inv (snd (bind ev p)).
Proof.
  intros Hinv. unfold bind_Painter.
  destruct (find_live p (DrawableCache p) (get ev)) as [h|] eqn:Ef; cbn [snd].
  - now apply inv_share.
  - destruct Hinv as (A & D & B & C). unfold cache_inv.
    cbn [Drawables DrawableCache Populated]. rewrite length_app. cbn [length].
    split; [|split; [|split]].
    + intros Key h Hin. apply elem_of_app in Hin. destruct Hin as [Hin|Hin].
      * specialize (A _ _ Hin). lia.
      * apply list_elem_of_singleton in Hin. injection Hin as -> ->. lia.
    + intros h Hin. apply elem_of_app in Hin. destruct Hin as [Hin|Hin].
      * specialize (D _ Hin). lia.
      * apply list_elem_of_singleton in Hin. subst h. lia.
    + intros Key. unfold live_entries. cbn [DrawableCache].
      rewrite List.filter_app, length_app.
      rewrite (filter_ext_elem _
                 (fun Entry => (fst Entry =? Key) && live p (snd Entry))
                 (DrawableCache p)).
      2:{ intros [k h] Hin. cbn [fst snd]. f_equal.
          apply live_extend. eauto. }
      fold (live_entries p Key).
      cbn [List.filter fst snd]. rewrite live_fresh.
      destruct (get ev =? Key) eqn:Ek; cbn [andb length].
      * apply Z.eqb_eq in Ek. subst Key.
        rewrite (find_live_None_entries _ _ Ef). cbn [length]. lia.
      * specialize (B Key). lia.
    + intros Key h Hin. unfold builds. cbn [Populated].
      rewrite List.filter_app, length_app. cbn [List.filter].
      apply elem_of_app in Hin. destruct Hin as [Hin|Hin].
      * specialize (A _ _ Hin). specialize (C _ _ Hin). unfold builds in C.
        rewrite C. replace (Nat.eqb h (length (Drawables p))) with false
          by (symmetry; apply Nat.eqb_neq; lia).
        reflexivity.
      * apply list_elem_of_singleton in Hin. injection Hin as -> ->.
        rewrite Nat.eqb_refl. cbn [length].
        fold (builds p (length (Drawables p))).
        rewrite builds_not_populated; [reflexivity|].
        intros Hin. specialize (D _ Hin). lia.
Qed.

Lemma inv_step (p : P) (o : Op) : cache_inv p -> cache_inv (step' p o).
Proof.
  intros H. destruct o; cbn [step].
  - now apply inv_bind.
  - now apply inv_share.
  - now apply inv_release.
  - now apply inv_prune.
Qed.

Lemma inv_run (trace : list Op) (p : P) : cache_inv p -> cache_inv (run' trace p).
Proof.
  unfold run. revert p. induction trace as [|o trace IH]; intros p H; cbn [fold_left].
  - exact H.
  - apply IH. now apply inv_step.
Qed.

(** *** A living Drawable stays in the cache *)

Lemma length_step (p : P) (o : Op) :
  (length (Drawables p) <= length (Drawables (step' p o)))%nat.
Proof.
  destruct o; cbn [step].
  - unfold bind_Painter.
    destruct (find_live p (DrawableCache p) (get InEvaluator)); cbn [snd].
    + now rewrite length_share.
    + cbn [Drawables]. rewrite length_app. lia.
  - now rewrite length_share.
  - now rewrite length_release.
  - reflexivity.
Qed.

Lemma live_step_back (p : P) (o : Op) h :
  (h < length (Drawables p))%nat ->
  live (step' p o) h = true -> live p h = true.
Proof.
  intros Hh. destruct o; cbn [step].
  - unfold bind_Painter.
    destruct (find_live p (DrawableCache p) (get InEvaluator)); cbn [snd].
    + now rewrite live_share.
    + now rewrite live_extend.
  - now rewrite live_share.
  - apply live_release.
  - now rewrite live_prune.
Qed.

Lemma cache_step_keep (p : P) (o : Op) Key h :
  (Key, h) ∈ DrawableCache p -> live p h = true ->
  (Key, h) ∈ DrawableCache (step' p o).
Proof.
  intros Hin Hl. destruct o; cbn [step].
  - unfold bind_Painter.
    destruct (find_live p (DrawableCache p) (get InEvaluator)); cbn [snd].
    + now rewrite cache_share.
    + cbn [DrawableCache]. apply elem_of_app. now left.
  - now rewrite cache_share.
  - now rewrite cache_release.
  - cbn [PruneStaleDrawableFromCache DrawableCache].
    now apply erase_first_expired_keeps.
Qed.

Lemma live_run_back (trace : list Op) (p : P) h :
  (h < length (Drawables p))%nat ->
  live (run' trace p) h = true -> live p h = true.
Proof.
  unfold run. revert p. induction trace as [|o trace IH]; intros p Hh Hl;
    cbn [fold_left] in *; [exact Hl|].
  apply (live_step_back p o h Hh). apply IH; [|exact Hl].
  pose proof (length_step p o). lia.
Qed.

Lemma cache_run_keep (trace : list Op) (p : P) Key h :
  (Key, h) ∈ DrawableCache p -> (h < length (Drawables p))%nat ->
  live (run' trace p) h = true ->
  (Key, h) ∈ DrawableCache (run' trace p).
Proof.
  unfold run. revert p. induction trace as [|o trace IH]; intros p Hin Hh Hl;
    cbn [fold_left] in *; [exact Hin|].
  pose proof (length_step p o) as Hlen.
  assert (Hl1 : live (step' p o) h = true)
    by (apply (live_run_back trace); [lia | exact Hl]).
  apply IH; [|lia|exact Hl].
  apply cache_step_keep; [exact Hin|].
  now apply (live_step_back p o).
Qed.

(** *** The constructor *)

Lemma SDFModel_Painter (ev : SDFNode) (p : P) :
  Painter (fst (new_SDFModel ev p)) = Some (snd (fst (bind ev p)))
  /\ snd (new_SDFModel ev p) = snd (bind ev p)
  /\ Evaluator (fst (new_SDFModel ev p)) = fst (fst (bind ev p)).
Proof.
  unfold SDFModel. destruct (bind ev p) as [[e h] p']. cbn. auto.
Qed.

Lemma bind_reuse (ev : SDFNode) (p : P) h :
  cache_inv p -> (get ev, h) ∈ DrawableCache p -> live p h = true ->
  bind ev p
  = (Drawable.Evaluator <$> (Drawables p !! h), h, share h p).
Proof.
  intros (A & D & B & C) Hin Hl. unfold bind_Painter.
  now rewrite (find_live_unique p (get ev) h (B _) Hin Hl).
Qed.

Lemma bind_cached (ev : SDFNode) (p : P) :
  cache_inv p ->
  (get ev, snd (fst (bind ev p))) ∈ DrawableCache (snd (bind ev p))
  /\ (snd (fst (bind ev p)) < length (Drawables (snd (bind ev p))))%nat.
Proof.
  intros Hinv. unfold bind_Painter.
  destruct (find_live p (DrawableCache p) (get ev)) as [h|] eqn:Ef; cbn [fst snd].
  - destruct (find_live_Some _ _ _ _ Ef) as [Hin Hl].
    rewrite cache_share, length_share. split; [exact Hin|]. now apply live_lt.
  - cbn [DrawableCache Drawables]. rewrite length_app. cbn [length].
    split; [|lia]. apply elem_of_app. right. left.
Qed.

Lemma bind_new (ev : SDFNode) (p : P) :
  live_entries p (get ev) = [] ->
  bind ev p
  = (Some (SDFNode_Copy ev), length (Drawables p),
     Process.Mk (Drawables p ++ [Drawable.Mk 1 (SDFNode_Copy ev)])
                (DrawableCache p ++ [(get ev, length (Drawables p))])
                (Populated p ++ [length (Drawables p)])).
Proof.
  intros Hnone. unfold bind_Painter.
  destruct (find_live p (DrawableCache p) (get ev)) as [h|] eqn:Ef; [|reflexivity].
  destruct (find_live_Some _ _ _ _ Ef) as [Hin Hl].
  assert (He : (get ev, h) ∈ live_entries p (get ev))
    by (apply live_entries_elem; auto).
  rewrite Hnone in He. inversion He.
Qed.

(** C1.  Take any history of the process, a construction for evaluator
    [ev1], any further history, and a construction for an evaluator
    [ev2] with the same address, made while the first instance's
    Drawable is still alive.  Both instances have the same Painter, the
    second construction calls [Sodapop::Populate] for nobody, that
    Drawable has been populated exactly once, and in every state the
    process can reach the cache holds at most one living Drawable for a
    key. *)
Theorem same_identity_shares_Drawable
    (before between : list Op) (ev1 ev2 : SDFNode) :
  get ev1 = get ev2 ->
  (exists h,
      Painter (fst (new_SDFModel ev1 (run' before start))) = Some h
      /\ live (run' between (snd (new_SDFModel ev1 (run' before start)))) h
         = true) ->
  Painter (fst (new_SDFModel ev2
                  (run' between (snd (new_SDFModel ev1 (run' before start))))))
  = Painter (fst (new_SDFModel ev1 (run' before start)))
  /\ Populated (snd (new_SDFModel ev2
                  (run' between (snd (new_SDFModel ev1 (run' before start))))))
     = Populated (run' between (snd (new_SDFModel ev1 (run' before start))))
  /\ (forall h,
        Painter (fst (new_SDFModel ev1 (run' before start))) = Some h ->
        builds (snd (new_SDFModel ev2
                  (run' between (snd (new_SDFModel ev1 (run' before start))))))
               h = 1%nat)
  /\ (forall (trace : list Op) (Key : Z),
        (length (live_entries (run' trace start) Key) <= 1)%nat).
Proof.
  intros Hkey (h & Hp1 & Hlive).
  set (p0 := run' before start) in *.
  assert (I0 : cache_inv p0) by (apply inv_run, inv_start).
  destruct (SDFModel_Painter ev1 p0) as (P1 & S1 & _).
  rewrite S1 in *. rewrite P1 in *. injection Hp1 as Hh.
  assert (I1 : cache_inv (snd (bind ev1 p0))) by now apply inv_bind.
  destruct (bind_cached ev1 p0 I0) as [Hin1 Hlt1]. rewrite Hh in *.
  set (p1 := snd (bind ev1 p0)) in *.
  set (p2 := run' between p1) in *.
  assert (I2 : cache_inv p2) by now apply inv_run.
  assert (Hin2 : (get ev2, h) ∈ DrawableCache p2).
  { rewrite <- Hkey. now apply cache_run_keep. }
  destruct (SDFModel_Painter ev2 p2) as (P2 & S2 & _).
  rewrite S2, P2. rewrite (bind_reuse ev2 p2 h I2 Hin2 Hlive). cbn [fst snd].
  split; [reflexivity|]. split; [apply populated_share|].
  split.
  - intros h' [= <-]. rewrite builds_share.
    destruct I2 as (_ & _ & _ & C). apply (C _ _ Hin2).
  - intros trace Key.
    destruct (inv_run trace start inv_start) as (_ & _ & B & _). apply B.
Qed.

Lemma prunes_keep (n : nat) (p : P) Key :
  Drawables (run' (repeat Prune n) p) = Drawables p
  /\ live_entries (run' (repeat Prune n) p) Key = live_entries p Key.
Proof.
  unfold run. revert p. induction n as [|n IH]; intros p; cbn [repeat fold_left].
  - auto.
  - destruct (IH (step' p Prune)) as [IH1 IH2]. rewrite IH1, IH2.
    cbn [step]. split; [reflexivity|].
    unfold live_entries. cbn [PruneStaleDrawableFromCache DrawableCache].
    apply erase_first_expired_filter.
    intros e He. apply andb_true_iff in He. apply He.
Qed.

(** C9.  A Drawable whose last strong reference goes away is not found
    again: with [h] cached for the evaluator's address and [use_count]
    1, after the release (and however many prunes the scheduler then
    runs) a construction for the same address makes a new control block,
    copies the evaluator, appends a cache entry for it and calls
    [Sodapop::Populate] on it. *)
Theorem expired_Drawable_not_reused
    (history : list Op) (ev : SDFNode) (h prunes : nat) :
  (get ev, h) ∈ DrawableCache (run' history start) ->
  Drawable.use_count <$> (Drawables (run' history start) !! h) = Some 1%nat ->
  let p := run' (repeat Prune prunes) (release h (run' history start)) in
  live p h = false
  /\ Painter (fst (new_SDFModel ev p)) = Some (length (Drawables p))
  /\ length (Drawables p) <> h
  /\ Evaluator (fst (new_SDFModel ev p)) = Some (SDFNode_Copy ev)
  /\ Drawables (snd (new_SDFModel ev p))
     = Drawables p ++ [Drawable.Mk 1 (SDFNode_Copy ev)]
  /\ DrawableCache (snd (new_SDFModel ev p))
     = DrawableCache p ++ [(get ev, length (Drawables p))]
  /\ Populated (snd (new_SDFModel ev p))
     = Populated p ++ [length (Drawables p)].
Proof.
  intros Hin Hcount p.
  set (p0 := run' history start) in *.
  assert (I0 : cache_inv p0) by (apply inv_run, inv_start).
  destruct (Drawables p0 !! h) as [d|] eqn:Ed; [|discriminate].
  injection Hcount as Hcount.
  assert (Hlt : (h < length (Drawables p0))%nat) by apply (lookup_lt_Some _ _ _ Ed).
  assert (Hl0 : live p0 h = true) by (unfold live; rewrite Ed, Hcount; reflexivity).
  (* after the release the block is expired *)
  assert (Hdead : live (release h p0) h = false).
  { unfold release, live. rewrite Ed. cbn [Drawables].
    rewrite list_lookup_insert_eq by exact Hlt.
    cbn [Drawable.use_count]. rewrite Hcount. reflexivity. }
  (* and no entry for the key is alive *)
  assert (Hnone : live_entries (release h p0) (get ev) = []).
  { destruct (live_entries (release h p0) (get ev)) as [|e l] eqn:E; [reflexivity|].
    assert (He : e ∈ live_entries (release h p0) (get ev)) by (rewrite E; left).
    apply live_entries_elem in He. destruct He as (He1 & He2 & He3).
    rewrite cache_release in He1. destruct e as [k h']. cbn [fst snd] in *. subst k.
    assert (Hl' : live p0 h' = true) by now apply live_release in He3.
    destruct I0 as (_ & _ & B & _).
    pose proof (find_live_unique p0 (get ev) h (B _) Hin Hl0) as F1.
    pose proof (find_live_unique p0 (get ev) h' (B _) He1 Hl') as F2.
    rewrite F1 in F2. injection F2 as <-. congruence. }
  (* pruning changes neither *)
  assert (Hp : Drawables p = Drawables (release h p0)
               /\ live_entries p (get ev) = [] /\ live p h = false).
  { destruct (prunes_keep prunes (release h p0) (get ev)) as [K1 K2].
    fold p in K1, K2. split; [exact K1|]. split; [now rewrite K2|].
    unfold live in *. now rewrite K1. }
  destruct Hp as (HD & HE & HL).
  destruct (SDFModel_Painter ev p) as (P1 & S1 & E1).
  rewrite P1, S1, E1, (bind_new ev p HE). cbn [fst snd Drawables DrawableCache Populated].
  repeat split; try reflexivity; try exact HL.
  rewrite HD, length_release. lia.
Qed.

End Cache.

(** A concrete process: evaluators are named by their address, a copy
    lives 1000 further on. *)
Lemma same_identity_shares_Drawable_witness :
  let new_model := @SDFModel unit unit unit Z tt tt (Z.add 1000) id in
  let run' := @run Z (Z.add 1000) id in
  let p1 := run' [Construct 9] start in
  let p2 := run' [Construct 7; Release 0; Prune; Share 1; Release 1]
              (snd (new_model 5 p1)) in
  Painter (fst (new_model 5 p1)) = Some 1%nat
  /\ live p2 1 = true
  /\ Painter (fst (new_model 5 p2)) = Some 1%nat
  /\ Populated (snd (new_model 5 p2)) = [0%nat; 1%nat; 2%nat].
Proof.
  cbv zeta.
  destruct (same_identity_shares_Drawable (vec3 := unit) (vec4 := unit) tt tt
              (Z.add 1000) id
              [Construct 9] [Construct 7; Release 0; Prune; Share 1; Release 1]
              5 5 eq_refl)
    as (H1 & H2 & _).
  { exists 1%nat. split; reflexivity. }
  split; [reflexivity|]. split; [reflexivity|].
  split; [rewrite H1; reflexivity|].
  rewrite H2. reflexivity.
Defined.

Lemma expired_Drawable_not_reused_witness :
  let new_model := @SDFModel unit unit unit Z tt tt (Z.add 1000) id in
  let run' := @run Z (Z.add 1000) id in
  let p := run' [Prune] (release 0 (run' [Construct 5] start)) in
  DrawableCache (run' [Construct 5] start) = [(5, 0%nat)]
  /\ DrawableCache p = []
  /\ Painter (fst (new_model 5 p)) = Some 1%nat
  /\ Evaluator (fst (new_model 5 p)) = Some 1005
  /\ DrawableCache (snd (new_model 5 p)) = [(5, 1%nat)]
  /\ Populated (snd (new_model 5 p)) = [0%nat; 1%nat].
Proof.
  cbv zeta.
  destruct (expired_Drawable_not_reused (vec3 := unit) (vec4 := unit) tt tt
              (Z.add 1000) id [Construct 5] 5 0 1)
    as (_ & H1 & _ & H2 & _ & H3 & H4).
  { apply list_elem_of_In. vm_compute. auto. }
  { reflexivity. }
  split; [reflexivity|]. split; [reflexivity|].
  split; [exact H1|]. split; [exact H2|].
  split; [exact H3|]. exact H4.
Defined.

End CacheFacts.

Module RayMarchFacts.
Import SDFModel.

Section RayMarch.
Context {vec3 vec4 quat Transform SDFNode RayHit float : Type}.
Variable ApplyInv : Transform -> vec3 -> vec3.
Variable Rotation : Transform -> quat.
Variable inverse : quat -> quat.
Variable rotate : quat -> vec3 -> vec3.
Variable SDFNode_RayMarch : SDFNode -> vec3 -> vec3 -> Z -> RayHit.

Local Abbreviation RayMarch' :=
  (@RayMarch vec3 vec4 quat Transform SDFNode RayHit float
     ApplyInv Rotation inverse rotate SDFNode_RayMarch).

(** C10.  [SDFModel::RayMarch] does not look at [MaxIterations] or
    [Epsilon]: two calls that differ only in them return the same hit,
    which is the evaluator's ray march from the origin and direction
    taken into local space, with step limit 1000. *)
Theorem RayMarch_ignores_limits
    (m : SDFModel.t vec3 vec4 Transform SDFNode) (RayStart RayDir : vec3)
    (MaxIterations1 MaxIterations2 : Z) (Epsilon1 Epsilon2 : float) :
  RayMarch' m RayStart RayDir MaxIterations1 Epsilon1
  = RayMarch' m RayStart RayDir MaxIterations2 Epsilon2
  /\ RayMarch' m RayStart RayDir MaxIterations1 Epsilon1
     = (fun e =>
          SDFNode_RayMarch e
            (ApplyInv (LocalToWorld m) RayStart)
            (rotate (inverse (Rotation (LocalToWorld m))) RayDir)
            1000) <$> Evaluator m.
Proof.
  split; [reflexivity|].
  unfold RayMarch. now destruct (Evaluator m).
Qed.

End RayMarch.
End RayMarchFacts.

Module UpdateColorsFacts.
Import SDFModel.
Import ListFacts.

Section UpdateColors.
Context {vec3 vec4 Transform SDFNode : Type}.

Local Abbreviation Model := (SDFModel.t vec3 vec4 Transform SDFNode).
Local Abbreviation Group := (InstanceColoringGroup.t vec4).

(** *** Writing a list of (index, color) pairs *)

Lemma apply_writes_app (ws1 ws2 : list (nat * vec4)) (cs : list vec4) :
  apply_writes (ws1 ++ ws2) cs = apply_writes ws2 (apply_writes ws1 cs).
Proof. unfold apply_writes. apply fold_left_app. Qed.

Lemma apply_writes_length (ws : list (nat * vec4)) (cs : list vec4) :
  length (apply_writes ws cs) = length cs.
Proof.
  unfold apply_writes. revert cs. induction ws as [|w ws IH]; intros cs;
    cbn [fold_left]; [reflexivity|].
  rewrite IH. apply length_insert.
Qed.

(** An index no write addresses keeps its color. *)
Lemma apply_writes_frame (ws : list (nat * vec4)) (cs : list vec4) (p : nat) :
  (forall w, w ∈ ws -> fst w <> p) ->
  apply_writes ws cs !! p = cs !! p.
Proof.
  unfold apply_writes. revert cs. induction ws as [|w ws IH]; intros cs H;
    cbn [fold_left]; [reflexivity|].
  rewrite IH by (intros w' Hw'; apply H; now right).
  apply list_lookup_insert_ne. apply H. left.
Qed.

(** A write that no later write overrides is what the array holds. *)
Lemma apply_writes_last (ws1 ws2 : list (nat * vec4)) (cs : list vec4)
    (p : nat) (c : vec4) :
  (p < length cs)%nat ->
  (forall w, w ∈ ws2 -> fst w <> p) ->
  apply_writes (ws1 ++ (p, c) :: ws2) cs !! p = Some c.
Proof.
  intros Hp Hlater. rewrite apply_writes_app.
  change (apply_writes ((p, c) :: ws2) (apply_writes ws1 cs))
    with (apply_writes ws2 (<[p := c]> (apply_writes ws1 cs))).
  rewrite apply_writes_frame by exact Hlater.
  apply list_lookup_insert_eq. now rewrite apply_writes_length.
Qed.

(** *** The inner loop *)

Lemma WriteColors_writes (Vertices : list Z) (IndexStart : Z)
    (NewColors : list vec4) (fuel : nat) (r : Z) (cs : list vec4) :
  0 <= IndexStart -> 0 <= r ->
  IndexStart + r + Z.of_nat fuel <= Z.of_nat (length Vertices) ->
  Z.of_nat (length Vertices) < 2 ^ 64 ->
  r + Z.of_nat fuel <= Z.of_nat (length NewColors) ->
  (forall (i : nat) (v : Z),
      (Z.to_nat r <= i < Z.to_nat r + fuel)%nat ->
      Vertices !! (Z.to_nat IndexStart + i)%nat = Some v ->
      0 <= v < Z.of_nat (length cs)) ->
  WriteColors fuel r Vertices IndexStart NewColors cs
  = Some (apply_writes
            (omap (fun i : nat =>
                     match Vertices !! (Z.to_nat IndexStart + i)%nat,
                           NewColors !! i with
                     | Some VertexIndex, Some c => Some (Z.to_nat VertexIndex, c)
                     | _, _ => None
                     end)
                  (seq (Z.to_nat r) fuel))
            cs).
Proof.
  revert r cs. induction fuel as [|fuel IH]; intros r cs HS Hr HV HVmax HN Hrange.
  - reflexivity.
  - cbn [WriteColors seq omap].
    rewrite wrap64_small by lia.
    replace (Z.to_nat (IndexStart + r)) with (Z.to_nat IndexStart + Z.to_nat r)%nat
      by lia.
    destruct (lookup_lt_is_Some_2 Vertices (Z.to_nat IndexStart + Z.to_nat r))
      as [v Ev]; [lia|].
    destruct (lookup_lt_is_Some_2 NewColors (Z.to_nat r)) as [c Ec]; [lia|].
    rewrite Ev, Ec.
    pose proof (Hrange (Z.to_nat r) v ltac:(lia) Ev) as Hv.
    replace ((0 <=? v) && (v <? Z.of_nat (length cs))) with true
      by (symmetry; apply andb_true_iff; split;
          [apply Z.leb_le | apply Z.ltb_lt]; lia).
    rewrite wrap64_small by lia.
    rewrite IH; try lia.
    + replace (Z.to_nat (r + 1)) with (S (Z.to_nat r)) by lia.
      rewrite omap_cons_eq. cbn beta. rewrite Ev, Ec. reflexivity.
    + intros i v' Hi Ev'. rewrite length_insert.
      apply (Hrange i v'); [lia | exact Ev'].
Qed.

(** The pairs of [group_writes], read off its definition. *)
Lemma group_writes_elem (MaterialSlots : list MaterialVertexGroup.t)
    (Batch : Group) (slot : MaterialVertexGroup.t) (i : nat) (v : Z) (c : vec4) :
  InstanceColoringGroup.Colors Batch <> [] ->
  MaterialSlots !! InstanceColoringGroup.VertexGroup Batch = Some slot ->
  Z.of_nat i < InstanceColoringGroup.IndexRange Batch ->
  MaterialVertexGroup.Vertices slot
    !! (Z.to_nat (InstanceColoringGroup.IndexStart Batch) + i)%nat = Some v ->
  InstanceColoringGroup.Colors Batch !! i = Some c ->
  (Z.to_nat v, c) ∈ group_writes MaterialSlots Batch.
Proof.
  intros Hne Hslot Hi Ev Ec. unfold group_writes. rewrite Hslot.
  destruct (InstanceColoringGroup.Colors Batch) as [|c0 pending] eqn:Ep;
    [congruence|].
  apply list_elem_of_omap. exists i. split.
  - apply elem_of_seq. lia.
  - now rewrite Ev, Ec.
Qed.

Lemma group_writes_range (MaterialSlots : list MaterialVertexGroup.t)
    (n : nat) (Batch : Group) (w : nat * vec4) :
  group_ok MaterialSlots n Batch ->
  w ∈ group_writes MaterialSlots Batch -> (fst w < n)%nat.
Proof.
  intros Hok Hw. unfold group_writes in Hw.
  destruct (InstanceColoringGroup.Colors Batch) as [|c0 pending] eqn:Ep.
  - inversion Hw.
  - destruct Hok as [Hemp | (slot & Hslot & HS & HR & HV & HVmax & HN & Hrange)];
      [congruence|].
    rewrite Hslot in Hw. apply list_elem_of_omap in Hw.
    destruct Hw as (i & Hi & Hwi). apply elem_of_seq in Hi.
    destruct (MaterialVertexGroup.Vertices slot
                !! (Z.to_nat (InstanceColoringGroup.IndexStart Batch) + i)%nat)
      as [v|] eqn:Ev; [|discriminate].
    destruct ((c0 :: pending) !! i) as [c|]; [|discriminate].
    injection Hwi as <-. cbn [fst].
    pose proof (Hrange i v ltac:(lia) Ev). lia.
Qed.

(** *** The outer loop *)

Lemma model_writes_cons (MaterialSlots : list MaterialVertexGroup.t)
    (Batch : Group) (rest : list Group) :
  model_writes MaterialSlots (Batch :: rest)
  = group_writes MaterialSlots Batch ++ model_writes MaterialSlots rest.
Proof. reflexivity. Qed.

Lemma UpdateGroups_writes (MaterialSlots : list MaterialVertexGroup.t)
    (groups : list Group) (cs : list vec4) :
  Forall (group_ok MaterialSlots (length cs)) groups ->
  UpdateGroups MaterialSlots groups cs
  = Some (map swapped_out groups,
          apply_writes (model_writes MaterialSlots groups) cs).
Proof.
  revert cs. induction groups as [|Batch rest IH]; intros cs Hok.
  - reflexivity.
  - apply Forall_cons in Hok. destruct Hok as [Hb Hrest].
    cbn [UpdateGroups]. rewrite model_writes_cons, apply_writes_app.
    assert (Hw : (if 0 <? Z.of_nat (length (InstanceColoringGroup.Colors Batch))
                  then
                    match MaterialSlots !! InstanceColoringGroup.VertexGroup Batch with
                    | Some slot =>
                        WriteColors (Z.to_nat (InstanceColoringGroup.IndexRange Batch)) 0
                          (MaterialVertexGroup.Vertices slot)
                          (InstanceColoringGroup.IndexStart Batch)
                          (InstanceColoringGroup.Colors Batch) cs
                    | None => None
                    end
                  else Some cs)
                 = Some (apply_writes (group_writes MaterialSlots Batch) cs)).
    { unfold group_writes.
      destruct (InstanceColoringGroup.Colors Batch) as [|c0 pending] eqn:Ep.
      - reflexivity.
      - destruct Hb as [Hemp | (slot & Hslot & HS & HR & HV & HVmax & HN & Hrange)];
          [congruence|].
        rewrite Hslot. rewrite Ep in HN.
        replace (0 <? Z.of_nat (length (c0 :: pending))) with true
          by (symmetry; apply Z.ltb_lt; cbn [length]; lia).
        rewrite WriteColors_writes; try lia.
        + reflexivity.
        + intros i v Hi Ev. apply (Hrange i v); [lia | exact Ev]. }
    rewrite Hw. rewrite IH.
    + reflexivity.
    + rewrite apply_writes_length. exact Hrest.
Qed.

Lemma model_writes_range (MaterialSlots : list MaterialVertexGroup.t)
    (n : nat) (groups : list Group) (w : nat * vec4) :
  Forall (group_ok MaterialSlots n) groups ->
  w ∈ model_writes MaterialSlots groups -> (fst w < n)%nat.
Proof.
  intros Hok Hw. unfold model_writes in Hw.
  apply elem_of_concat_map in Hw. destruct Hw as (Batch & HB & Hw).
  rewrite Forall_forall in Hok.
  apply (group_writes_range MaterialSlots n Batch w); [|exact Hw].
  apply Hok. exact HB.
Qed.

(** C8.  When every access of [UpdateColors] stays inside its vector
    the call returns: every group's pending buffer is then empty, the
    groups are otherwise as before, and the color array is the old one
    with the pairs of [model_writes] written in order, that is, for each
    group with a non-empty pending buffer, pending color [i] at index
    [Vertices[IndexStart + i]] for [i] in [0, IndexRange).  A written
    entry holds its color unless a later pair addresses the same index
    (never, when the addressed indices are pairwise distinct), and every
    entry that no pair addresses is unchanged. *)
Theorem UpdateColors_writes_pending
    (MaterialSlots : list MaterialVertexGroup.t) (m : Model)
    (NewCameraOrigin : vec3) :
  Forall (group_ok MaterialSlots (length (Colors m))) (ColoringGroups m) ->
  exists m' : Model,
    UpdateColors MaterialSlots m NewCameraOrigin = Some m'
    /\ ColoringGroups m' = map swapped_out (ColoringGroups m)
    /\ Forall (fun Batch => InstanceColoringGroup.Colors Batch = [])
         (ColoringGroups m')
    /\ Colors m'
       = apply_writes (model_writes MaterialSlots (ColoringGroups m)) (Colors m)
    /\ length (Colors m') = length (Colors m)
    /\ (forall (Batch : Group) slot (i : nat) (v : Z) (c : vec4),
          Batch ∈ ColoringGroups m ->
          InstanceColoringGroup.Colors Batch <> [] ->
          MaterialSlots !! InstanceColoringGroup.VertexGroup Batch = Some slot ->
          Z.of_nat i < InstanceColoringGroup.IndexRange Batch ->
          MaterialVertexGroup.Vertices slot
            !! (Z.to_nat (InstanceColoringGroup.IndexStart Batch) + i)%nat = Some v ->
          InstanceColoringGroup.Colors Batch !! i = Some c ->
          (Z.to_nat v, c) ∈ model_writes MaterialSlots (ColoringGroups m))
    /\ (forall ws1 (p : nat) (c : vec4) ws2,
          model_writes MaterialSlots (ColoringGroups m) = ws1 ++ (p, c) :: ws2 ->
          (forall w, w ∈ ws2 -> fst w <> p) ->
          Colors m' !! p = Some c)
    /\ (NoDup (map fst (model_writes MaterialSlots (ColoringGroups m))) ->
        forall (p : nat) (c : vec4),
          (p, c) ∈ model_writes MaterialSlots (ColoringGroups m) ->
          Colors m' !! p = Some c)
    /\ (forall p : nat,
          (forall w, w ∈ model_writes MaterialSlots (ColoringGroups m) ->
                     fst w <> p) ->
          Colors m' !! p = Colors m !! p)
    /\ AtomicCameraOrigin m' = NewCameraOrigin
    /\ Evaluator m' = Evaluator m /\ Painter m' = Painter m
    /\ LocalToWorld m' = LocalToWorld m.
Proof.
  intros Hok. unfold UpdateColors.
  rewrite (UpdateGroups_writes _ _ _ Hok).
  eexists. split; [reflexivity|].
  cbn [ColoringGroups Colors AtomicCameraOrigin Evaluator Painter LocalToWorld].
  set (ws := model_writes MaterialSlots (ColoringGroups m)).
  assert (Hlast : forall ws1 (p : nat) (c : vec4) ws2,
             ws = ws1 ++ (p, c) :: ws2 ->
             (forall w, w ∈ ws2 -> fst w <> p) ->
             apply_writes ws (Colors m) !! p = Some c).
  { intros ws1 p c ws2 E Hlater. rewrite E.
    apply apply_writes_last; [|exact Hlater].
    apply (model_writes_range MaterialSlots _ (ColoringGroups m) (p, c) Hok).
    fold ws. rewrite E. apply elem_of_app. right. left. }
  split; [reflexivity|].
  split.
  { apply Forall_forall. intros g Hg.
    apply elem_of_map in Hg. destruct Hg as (g0 & -> & _). reflexivity. }
  split; [reflexivity|].
  split; [apply apply_writes_length|].
  split.
  { intros Batch slot i v c HB Hne Hslot Hi Ev Ec. unfold ws, model_writes.
    apply elem_of_concat_map. exists Batch.
    split; [exact HB|]. now apply (group_writes_elem _ _ slot i). }
  split; [exact Hlast|].
  split.
  { intros Hnd p c Hin.
    apply list_elem_of_split in Hin. destruct Hin as (ws1 & ws2 & E).
    apply (Hlast ws1 p c ws2 E).
    intros w Hw Hfst. rewrite E, map_app in Hnd. cbn [map fst] in Hnd.
    apply NoDup_app in Hnd. destruct Hnd as (_ & _ & Hnd).
    apply NoDup_cons in Hnd. destruct Hnd as [Hnotin _].
    apply Hnotin. rewrite <- Hfst. apply elem_of_map. now exists w. }
  split; [intros p Hp; now apply apply_writes_frame|].
  repeat split; reflexivity.
Qed.

End UpdateColors.

Lemma UpdateColors_writes_pending_witness :
  let slots := [MaterialVertexGroup.Mk [2; 0; 1; 3]] in
  let m : SDFModel.t unit Z unit unit :=
    SDFModel.Mk None None tt tt [100; 101; 102; 103]
      [InstanceColoringGroup.Mk 0%nat 0 2 [11; 12] 0;
       InstanceColoringGroup.Mk 0%nat 2 2 [] 0] in
  UpdateColors slots m tt
  = Some (SDFModel.Mk None None tt tt [12; 101; 11; 103]
            [InstanceColoringGroup.Mk 0%nat 0 2 [] 0;
             InstanceColoringGroup.Mk 0%nat 2 2 [] 0]).
Proof.
  cbv zeta.
  destruct (UpdateColors_writes_pending (vec3 := unit) (Transform := unit)
              (SDFNode := unit)
              [MaterialVertexGroup.Mk [2; 0; 1; 3]]
              (SDFModel.Mk None None tt tt [100; 101; 102; 103]
                 [InstanceColoringGroup.Mk 0%nat 0 2 [11; 12] 0;
                  InstanceColoringGroup.Mk 0%nat 2 2 [] 0])
              tt)
    as (m' & Hm & _).
  { apply Forall_cons. split.
    - right. exists (MaterialVertexGroup.Mk [2; 0; 1; 3]).
      cbn. split; [reflexivity|]. repeat (split; [lia|]).
      intros i v Hi Ev.
      destruct i as [|[|i]]; [| |lia]; vm_compute in Ev;
        injection Ev as <-; lia.
    - apply Forall_cons. split; [left; reflexivity | constructor]. }
  rewrite Hm. vm_compute in Hm. injection Hm as <-. reflexivity.
Defined.

End UpdateColorsFacts.

Module ParallelTaskChainFacts.
Import ParallelTaskChain.
Import ListFacts.

Example built_three :
  built 2 7 = Some ([MkNode (Some 1%nat) (Some 7); MkNode (Some 2%nat) None;
                     MkNode None None], Some 0%nat).
Proof. reflexivity. Qed.

Example passes_three :
  (built 2 7 ≫= passes 1)
  = Some ([MkNode None None; MkNode (Some 2%nat) (Some 7); MkNode None None],
          Some 1%nat)
  /\ (built 2 7 ≫= passes 2)
     = Some ([MkNode None None; MkNode None None; MkNode None (Some 7)],
             Some 2%nat)
  /\ (built 2 7 ≫= passes 3)
     = Some ([MkNode None None; MkNode None None; MkNode None (Some 7)], None).
Proof. repeat split; reflexivity. Qed.

Section Chain.
Context {IntermediaryT : Type}.

Local Abbreviation Heap := (list (Node IntermediaryT)).

(** Case analysis on the comparisons of naturals in the goal. *)
Ltac nat_cases :=
  repeat match goal with
  | |- context [Nat.eqb ?a ?b] => destruct (Nat.eqb_spec a b)
  | |- context [Nat.leb ?a ?b] => destruct (Nat.leb_spec a b)
  | |- context [Nat.ltb ?a ?b] => destruct (Nat.ltb_spec a b)
  end; cbn [andb]; try reflexivity; try lia; try (subst; reflexivity);
  try congruence.

(** *** Building the chain *)

Lemma fresh_nodes_linking (n : nat) (payload : IntermediaryT) :
  MkNode None (Some payload) :: repeat (MkNode None None) n
  = linking n 0 payload.
Proof.
  unfold linking. cbn [seq map Nat.ltb Nat.leb Nat.eqb]. f_equal.
  rewrite <- seq_shift, map_map.
  induction n as [|n IH]; [reflexivity|].
  rewrite seq_S, map_app, <- IH. cbn [map app Nat.add Nat.eqb].
  now rewrite <- repeat_cons.
Qed.

Lemma Link_linking (n m : nat) (payload : IntermediaryT) :
  (m < n)%nat ->
  Link (S m) (MkBuilder (Some 0%nat) (Some m)) (linking n m payload)
  = Some (MkBuilder (Some 0%nat) (Some (S m)), linking n (S m) payload).
Proof.
  intros Hm. unfold Link, linking. cbn [Head Tail].
  rewrite lookup_map_seq.
  replace (Nat.ltb m (S n)) with true by (symmetry; apply Nat.ltb_lt; lia).
  cbn [IntermediaryData]. rewrite insert_map_seq.
  do 2 f_equal. apply map_seq_ext. intros i Hi. nat_cases.
Qed.

Lemma link_all_linking (n count m : nat) (payload : IntermediaryT) :
  (m + count)%nat = n ->
  link_all count (S m) (MkBuilder (Some 0%nat) (Some m)) (linking n m payload)
  = Some (MkBuilder (Some 0%nat) (Some n), linking n n payload).
Proof.
  revert m. induction count as [|count IH]; intros m Hn.
  - cbn [link_all]. replace m with n by lia. reflexivity.
  - cbn [link_all]. rewrite Link_linking by lia. apply IH. lia.
Qed.

Lemma built_pipeline (n : nat) (payload : IntermediaryT) :
  built n payload = Some (pipeline n 0 payload, Some 0%nat).
Proof.
  unfold built. rewrite fresh_nodes_linking.
  cbn [link_all]. unfold Link at 1. cbn [Head].
  rewrite link_all_linking by lia. cbn [Run snd Head].
  reflexivity.
Qed.

(** *** Passing the baton along the pipeline *)

Lemma BatonPass_pipeline (n k : nat) (payload : IntermediaryT) :
  (k < n)%nat ->
  BatonPass k (pipeline n k payload)
  = Some (pipeline n (S k) payload, Some (S k)).
Proof.
  intros Hk. unfold BatonPass, pipeline. rewrite lookup_map_seq.
  replace (Nat.ltb k (S n)) with true by (symmetry; apply Nat.ltb_lt; lia).
  assert (E1 : NextTask (stage n k payload k) = Some (S k)).
  { unfold stage. cbn [NextTask]. nat_cases. }
  rewrite E1. rewrite lookup_map_seq.
  replace (Nat.ltb (S k) (S n)) with true by (symmetry; apply Nat.ltb_lt; lia).
  rewrite insert_map_seq, !alter_map_seq.
  do 2 f_equal. apply map_seq_ext. intros i Hi.
  unfold stage. cbn [NextTask IntermediaryData].
  destruct (Nat.eqb_spec i k) as [->|Hik].
  - replace (Nat.eqb k (S k)) with false by (symmetry; apply Nat.eqb_neq; lia).
    cbn [NextTask IntermediaryData]. f_equal; nat_cases.
  - destruct (Nat.eqb_spec i (S k)) as [->|HiS].
    + f_equal; nat_cases.
    + f_equal; nat_cases.
Qed.

Lemma BatonPass_last (n : nat) (payload : IntermediaryT) :
  BatonPass n (pipeline n n payload) = Some (pipeline n n payload, None).
Proof.
  unfold BatonPass, pipeline. rewrite lookup_map_seq.
  replace (Nat.ltb n (S n)) with true by (symmetry; apply Nat.ltb_lt; lia).
  assert (E1 : NextTask (stage n n payload n) = None).
  { unfold stage. cbn [NextTask]. nat_cases. }
  now rewrite E1.
Qed.

Lemma passes_pipeline (n j k : nat) (payload : IntermediaryT) :
  (k <= n)%nat ->
  passes j (pipeline n k payload, Some k)
  = Some (pipeline n (Nat.min (k + j) n) payload,
          if Nat.leb (k + j) n then Some (k + j)%nat else None).
Proof.
  revert k. induction j as [|j IH]; intros k Hk.
  - cbn [passes]. rewrite Nat.add_0_r, Nat.min_l by lia.
    replace (Nat.leb k n) with true by (symmetry; apply Nat.leb_le; lia).
    reflexivity.
  - cbn [passes snd fst].
    destruct (decide (k < n)%nat) as [Hlt|Hge].
    + rewrite BatonPass_pipeline by exact Hlt. rewrite IH by lia.
      replace (S k + j)%nat with (k + S j)%nat by lia. reflexivity.
    + assert (k = n) by lia. subst k. rewrite BatonPass_last.
      rewrite Nat.min_r by lia.
      replace (Nat.leb (n + S j) n) with false
        by (symmetry; apply Nat.leb_gt; lia).
      clear IH. induction j as [|j IHj]; reflexivity.
Qed.

Lemma holds_pipeline (n k i : nat) (payload : IntermediaryT) :
  (i < S n)%nat -> holds (pipeline n k payload) i = Nat.eqb i k.
Proof.
  intros Hi. unfold holds, pipeline. rewrite lookup_map_seq.
  replace (Nat.ltb i (S n)) with true by (symmetry; apply Nat.ltb_lt; lia).
  unfold stage. cbn [IntermediaryData]. now destruct (Nat.eqb i k).
Qed.

Lemma holders_pipeline (n k : nat) (payload : IntermediaryT) :
  (k <= n)%nat -> holders (pipeline n k payload) = [k].
Proof.
  intros Hk. unfold holders.
  replace (length (pipeline n k payload)) with (S n)
    by (unfold pipeline; now rewrite length_map, length_seq).
  rewrite (filter_ext_in _ (fun i => Nat.eqb i k)).
  - rewrite filter_eqb_seq.
    replace (Nat.leb 0 k && Nat.ltb k (0 + S n)) with true; [reflexivity|].
    symmetry. apply andb_true_iff. split; [apply Nat.leb_le | apply Nat.ltb_lt]; lia.
  - intros i Hi. apply in_seq in Hi. apply holds_pipeline. lia.
Qed.

(** [BatonPass] on any node with a distinct, allocated successor: the
    two payload slots are exchanged and the link is cleared. *)
Lemma BatonPass_swaps (heap : Heap) (this next : nat)
    (self succ : Node IntermediaryT) :
  heap !! this = Some self -> NextTask self = Some next ->
  heap !! next = Some succ -> this <> next ->
  exists heap',
    BatonPass this heap = Some (heap', Some next)
    /\ heap' !! this = Some (MkNode None (IntermediaryData succ))
    /\ heap' !! next = Some (MkNode (NextTask succ) (IntermediaryData self))
    /\ (forall i, i <> this -> i <> next -> heap' !! i = heap !! i)
    /\ length heap' = length heap.
Proof.
  intros Hs Hn Hx Hne. unfold BatonPass. rewrite Hs, Hn, Hx.
  eexists. split; [reflexivity|].
  pose proof (lookup_lt_Some _ _ _ Hs) as Lt.
  pose proof (lookup_lt_Some _ _ _ Hx) as Ln.
  split; [|split; [|split]].
  - rewrite !list_lookup_alter_eq, list_lookup_insert_ne by congruence.
    now rewrite Hs.
  - rewrite !list_lookup_alter_ne by congruence.
    now rewrite list_lookup_insert_eq by exact Ln.
  - intros i Hi1 Hi2. rewrite !list_lookup_alter_ne by congruence.
    now rewrite list_lookup_insert_ne by congruence.
  - now rewrite !length_alter, length_insert.
Qed.

(** C7 (amended).  In a pipeline of [S n] stages assembled by [Link]
    whose first stage alone was constructed with the payload, after any
    number [j] of baton passes exactly one node holds a payload: stage
    [min j n], and it holds the very payload the first stage was given;
    every earlier stage holds none and has its link cleared; the active
    task is stage [j] while [j <= n] and none afterwards.  [BatonPass]
    on a node with a distinct successor exchanges the two payload
    slots, clears the node's link and leaves every other node alone; on
    a node without successor it changes nothing. *)
Theorem baton_has_one_holder (n j : nat) (payload : IntermediaryT) :
  (exists heap active,
      built n payload ≫= passes j = Some (heap, active)
      /\ holders heap = [Nat.min j n]
      /\ IntermediaryData <$> (heap !! Nat.min j n) = Some (Some payload)
      /\ active = (if Nat.leb j n then Some j else None)
      /\ (forall i nd, (i < Nat.min j n)%nat -> heap !! i = Some nd ->
                       NextTask nd = None /\ IntermediaryData nd = None)
      /\ (forall i, (i <= n)%nat ->
            negb (holds heap i && successor_holds heap i) = true))
  /\ (forall (heap : Heap) (this next : nat) (self succ : Node IntermediaryT),
        heap !! this = Some self -> NextTask self = Some next ->
        heap !! next = Some succ -> this <> next ->
        exists heap',
          BatonPass this heap = Some (heap', Some next)
          /\ heap' !! this = Some (MkNode None (IntermediaryData succ))
          /\ heap' !! next = Some (MkNode (NextTask succ) (IntermediaryData self))
          /\ (forall i, i <> this -> i <> next -> heap' !! i = heap !! i)
          /\ length heap' = length heap)
  /\ (forall (heap : Heap) (this : nat) (self : Node IntermediaryT),
        heap !! this = Some self -> NextTask self = None ->
        BatonPass this heap = Some (heap, None)).
Proof.
  split; [|split].
  - rewrite built_pipeline. cbn [mbind option_bind].
    rewrite passes_pipeline by lia. cbn [Nat.add].
    assert (Hk : (Nat.min j n <= n)%nat) by lia.
    exists (pipeline n (Nat.min j n) payload),
           (if Nat.leb j n then Some j else None).
    split; [reflexivity|].
    split; [now apply holders_pipeline|].
    split.
    { unfold pipeline. rewrite lookup_map_seq.
      replace (Nat.ltb (Nat.min j n) (S n)) with true
        by (symmetry; apply Nat.ltb_lt; lia).
      cbn [fmap option_fmap option_map]. unfold stage. cbn [IntermediaryData].
      now rewrite Nat.eqb_refl. }
    split; [reflexivity|].
    split.
    { intros i nd Hi Hnd. unfold pipeline in Hnd. rewrite lookup_map_seq in Hnd.
      destruct (Nat.ltb i (S n)); [|discriminate]. injection Hnd as <-.
      unfold stage. cbn [NextTask IntermediaryData]. split; nat_cases. }
    { intros i Hi. unfold successor_holds.
      rewrite holds_pipeline by lia.
      unfold pipeline at 1. rewrite lookup_map_seq.
      replace (Nat.ltb i (S n)) with true by (symmetry; apply Nat.ltb_lt; lia).
      unfold stage at 1. cbn [NextTask].
      destruct (Nat.eqb_spec i (Nat.min j n)) as [->|Hne]; [|reflexivity].
      cbn [andb].
      destruct (Nat.leb (Nat.min j n) (Nat.min j n) && Nat.ltb (Nat.min j n) n)
        eqn:E; [|reflexivity].
      apply andb_true_iff in E. destruct E as [_ E]. apply Nat.ltb_lt in E.
      rewrite holds_pipeline by lia.
      replace (Nat.eqb (S (Nat.min j n)) (Nat.min j n)) with false
        by (symmetry; apply Nat.eqb_neq; lia).
      reflexivity. }
  - intros heap this next self succ. apply BatonPass_swaps.
  - intros heap this self Hs Hn. unfold BatonPass. now rewrite Hs, Hn.
Qed.

End Chain.

(** C7 as stated fails on a three-stage pipeline A -> B -> C in which A
    was constructed with the payload: for the middle stage B neither B
    nor its successor C holds the payload before the first baton pass,
    and after it the retired stage A holds nothing and has no successor
    left. *)
Lemma middle_stage_counterexample :
  exists heap,
    built 2 7 = Some (heap, Some 0%nat)
    /\ holds heap 1 = false /\ successor_holds heap 1 = false
    /\ xorb (holds heap 1) (successor_holds heap 1) = false
    /\ exists heap',
         BatonPass 0 heap = Some (heap', Some 1%nat)
         /\ xorb (holds heap' 0) (successor_holds heap' 0) = false.
Proof.
  eexists. split; [reflexivity|].
  split; [reflexivity|]. split; [reflexivity|]. split; [reflexivity|].
  eexists. split; reflexivity.
Qed.

End ParallelTaskChainFacts.

Module ParallelDomainTaskChainFacts.
Import ParallelDomainTaskChain.
Import ListFacts.

Example run_random_access :
  let m := run id (concat (repeat [0; 1]%nat 8))
             (start (RandomAccess [10; 20; 30]) 2) in
  calls m = [Setup; Loop 10 0; Loop 20 1; Loop 30 2]
  /\ all_returned m = true.
Proof. split; reflexivity. Qed.

Example run_forward_only :
  let m := run id (concat (repeat [1; 1; 0]%nat 8))
             (start (ForwardOnly [10; 20; 30]) 2) in
  calls m = [Setup; Loop 10 (-1); Loop 30 (-1); Loop 20 (-1)]
  /\ all_returned m = true.
Proof. split; reflexivity. Qed.

Example run_generator :
  exists g : SequenceGenerator.t,
    SequenceGenerator.Reset (2 ^ 59 - 1) 5 2 = Some g
    /\ let m := run id (repeat 0%nat 20) (start (Generator g) 1) in
       calls m = [Setup; Loop 0 0; Loop 1 1; Loop 2 2; Loop 3 3; Loop 4 4]
       /\ all_returned m = true.
Proof. eexists. split; [reflexivity|]. split; reflexivity. Qed.

Example run_accumulator :
  let m := run id (repeat 0%nat 20)
             (start (Accumulator (ParallelAccumulator.Mk [[10]; [20; 21]; []; [30]] 0)) 1) in
  calls m = [Setup; Loop 10 0; Loop 20 0; Loop 21 1; Loop 30 0]
  /\ all_returned m = true.
Proof. split; reflexivity. Qed.

(** *** Conversions between [int] and [size_t] *)

Lemma wrap_int_small z : - 2 ^ 31 <= z < 2 ^ 31 -> wrap_int z = z.
Proof. intros H. unfold wrap_int. rewrite Z.mod_small by lia. lia. Qed.

Lemma wrap_int_range z : - 2 ^ 31 <= wrap_int z < 2 ^ 31.
Proof.
  unfold wrap_int. pose proof (Z.mod_pos_bound (z + 2 ^ 31) (2 ^ 32)). lia.
Qed.

Lemma wrap_int_top : wrap_int (2 ^ 31) = - 2 ^ 31.
Proof. reflexivity. Qed.

Lemma int_to_size_t_nonneg z : 0 <= z < 2 ^ 64 -> int_to_size_t z = z.
Proof. intros H. unfold int_to_size_t. now apply Z.mod_small. Qed.

Lemma int_to_size_t_neg z : - 2 ^ 31 <= z < 0 -> int_to_size_t z = z + 2 ^ 64.
Proof.
  intros H. unfold int_to_size_t.
  replace z with (z + 2 ^ 64 + (-1) * 2 ^ 64) at 1 by lia.
  rewrite Z.mod_add by lia. apply Z.mod_small. lia.
Qed.

Section Stage.
Context {ElementT : Type}.
Variable of_index : Z -> ElementT.

Local Abbreviation Domain := (@Domain ElementT).
Local Abbreviation Stage := (@Stage ElementT).
Local Abbreviation Worker := (@Worker ElementT).
Local Abbreviation Machine := (@Machine ElementT).
Local Abbreviation claim' := (claim of_index).
Local Abbreviation remaining' := (remaining of_index).
Local Abbreviation expected' := (expected_calls of_index).
Local Abbreviation exec' := (exec of_index).
Local Abbreviation run' := (run of_index).

Local Abbreviation Locals := (@Locals ElementT).
Local Abbreviation claim_effect' := (claim_effect of_index).

(** *** One claim *)

Lemma claim_RandomAccess (w : nat) (d : list ElementT) sp ni it nl (l : Locals) :
  sustains (S w) (MkStage (RandomAccess d) sp ni it nl) -> snd l = 0 ->
  claim_effect' w (MkStage (RandomAccess d) sp ni it nl) l
    (claim' (MkStage (RandomAccess d) sp ni it nl) l).
Proof.
  intros [Hw | (HK & Hr & Hb)] Hl; [lia|].
  cbn [TheDomain NextIndex] in *. unfold claims_made in Hb.
  unfold claim. cbn [TheDomain NextIndex SetupPending NextIter NextLeaf].
  destruct (0 <=? ni) eqn:Eni.
  - apply Z.leb_le in Eni. rewrite int_to_size_t_nonneg by lia.
    assert (Hnext : claims_made (wrap_int (ni + 1)) = ni + 1
                    /\ - 2 ^ 31 <= wrap_int (ni + 1) < 2 ^ 31
                    /\ (0 <= wrap_int (ni + 1) -> wrap_int (ni + 1) = ni + 1)).
    { split; [|split; [apply wrap_int_range|]].
      - unfold claims_made. destruct (Z.eq_dec (ni + 1) (2 ^ 31)) as [E|E].
        + rewrite E. reflexivity.
        + rewrite wrap_int_small by lia.
          replace (0 <=? ni + 1) with true by (symmetry; apply Z.leb_le; lia).
          reflexivity.
      - destruct (Z.eq_dec (ni + 1) (2 ^ 31)) as [E|E].
        + rewrite E, wrap_int_top. lia.
        + intros _. apply wrap_int_small. lia. }
    destruct Hnext as (Hcm & Hrange & Hpos).
    destruct (ni <? Z.of_nat (length d)) eqn:Elt.
    + apply Z.ltb_lt in Elt.
      destruct (lookup_lt_is_Some_2 d (Z.to_nat ni)) as [e Ee]; [lia|].
      rewrite Ee. unfold claim_effect.
      split; [exact Hl|]. split; [reflexivity|].
      unfold remaining, sustains, todo.
      cbn [TheDomain NextIndex expected_calls].
      replace (0 <=? ni) with true by (symmetry; apply Z.leb_le; lia).
      split; [|split].
      * rewrite (drop_S _ (e, ni) (Z.to_nat ni)).
        2:{ rewrite list_lookup_imap, Ee. cbn. now rewrite Z2Nat.id by lia. }
        cbn [app]. f_equal.
        destruct (0 <=? wrap_int (ni + 1)) eqn:E2.
        -- apply Z.leb_le in E2. rewrite (Hpos E2).
           now replace (Z.to_nat (ni + 1)) with (S (Z.to_nat ni)) by lia.
        -- apply Z.leb_gt in E2. apply drop_ge. rewrite length_imap.
           destruct (Z.eq_dec (ni + 1) (2 ^ 31)) as [E|E]; [lia|].
           rewrite wrap_int_small in E2 by lia. lia.
      * right. rewrite Hcm. repeat split; lia.
      * destruct (0 <=? wrap_int (ni + 1)) eqn:E2.
        -- apply Z.leb_le in E2. rewrite (Hpos E2). lia.
        -- lia.
    + apply Z.ltb_ge in Elt. unfold claim_effect.
      split; [exact Hl|]. split; [reflexivity|].
      unfold remaining, sustains.
      cbn [TheDomain NextIndex expected_calls].
      replace (0 <=? ni) with true by (symmetry; apply Z.leb_le; lia).
      split; [|split].
      * apply drop_ge. rewrite length_imap. lia.
      * destruct (0 <=? wrap_int (ni + 1)) eqn:E2; [|reflexivity].
        apply Z.leb_le in E2. rewrite (Hpos E2).
        apply drop_ge. rewrite length_imap. lia.
      * destruct w as [|w]; [now left|]. right. rewrite Hcm.
        repeat split; lia.
  - apply Z.leb_gt in Eni. rewrite int_to_size_t_neg by lia.
    replace (ni + 2 ^ 64 <? Z.of_nat (length d)) with false
      by (symmetry; apply Z.ltb_ge; lia).
    unfold claim_effect.
    split; [exact Hl|]. split; [reflexivity|].
    unfold remaining, sustains.
    cbn [TheDomain NextIndex expected_calls].
    replace (0 <=? ni) with false by (symmetry; apply Z.leb_gt; lia).
    rewrite wrap_int_small by lia.
    replace (0 <=? ni + 1) with false by (symmetry; apply Z.leb_gt; lia).
    split; [reflexivity|]. split; [reflexivity|].
    destruct w as [|w]; [now left|]. right. unfold claims_made.
    replace (0 <=? ni + 1) with false by (symmetry; apply Z.leb_gt; lia).
    repeat split; lia.
Qed.

Lemma claim_ForwardOnly (w : nat) (d : list ElementT) sp ni it nl (l : Locals) :
  sustains (S w) (MkStage (ForwardOnly d) sp ni it nl) -> snd l = 0 ->
  claim_effect' w (MkStage (ForwardOnly d) sp ni it nl) l
    (claim' (MkStage (ForwardOnly d) sp ni it nl) l).
Proof.
  intros [Hw | Hprimed] Hl; [lia|]. cbn [TheDomain NextIter] in Hprimed.
  unfold claim. cbn [TheDomain NextIndex SetupPending NextIter NextLeaf].
  destruct it as [[|e rest]|]; [| |congruence]; unfold claim_effect;
    (split; [exact Hl|]); (split; [reflexivity|]);
    unfold remaining, sustains, todo; cbn [TheDomain NextIter map length app].
  - split; [reflexivity|]. split; [reflexivity|].
    destruct w; [now left | right; discriminate].
  - split; [reflexivity|]. split; [right; discriminate | lia].
Qed.

Lemma claim_OctreeLeaves (w : nat) (leaves : list ElementT) sp ni it nl (l : Locals) :
  snd l = 0 ->
  claim_effect' w (MkStage (OctreeLeaves leaves) sp ni it nl) l
    (claim' (MkStage (OctreeLeaves leaves) sp ni it nl) l).
Proof.
  intros Hl.
  unfold claim. cbn [TheDomain NextIndex SetupPending NextIter NextLeaf].
  destruct nl as [|e rest]; unfold claim_effect;
    (split; [exact Hl|]); (split; [reflexivity|]);
    unfold remaining, sustains, todo; cbn [TheDomain NextLeaf map length app].
  - split; [reflexivity|]. split; [reflexivity|]. now right.
  - split; [reflexivity|]. split; [now right | lia].
Qed.

Lemma claim_Generator (w : nat) (g : SequenceGenerator.t) sp ni it nl (l : Locals) :
  sustains (S w) (MkStage (Generator g) sp ni it nl) -> snd l = 0 ->
  claim_effect' w (MkStage (Generator g) sp ni it nl) l
    (claim' (MkStage (Generator g) sp ni it nl) l).
Proof.
  intros [Hw | (HP & Hb)] Hl; [lia|]. cbn [TheDomain] in *.
  destruct g as [lanes P]. cbn [SequenceGenerator.Progress SequenceGenerator.Lanes] in *.
  unfold claim. cbn [TheDomain NextIndex SetupPending NextIter NextLeaf].
  unfold SequenceGenerator.Advance.
  cbn [SequenceGenerator.Progress SequenceGenerator.Lanes].
  rewrite wrap64_small by lia.
  destruct (P <? Z.of_nat (length lanes)) eqn:Elt.
  - apply Z.ltb_lt in Elt.
    destruct (lookup_lt_is_Some_2 lanes (Z.to_nat P)) as [lane El]; [lia|].
    rewrite El. unfold claim_effect.
    split; [exact Hl|]. split; [reflexivity|].
    unfold remaining, sustains, todo.
    cbn [TheDomain expected_calls SequenceGenerator.Progress SequenceGenerator.Lanes].
    split; [|split].
    + rewrite (drop_S _ _ _ El). cbn [map concat].
      now replace (Z.to_nat (P + 1)) with (S (Z.to_nat P)) by lia.
    + right. split; lia.
    + lia.
  - apply Z.ltb_ge in Elt. unfold claim_effect.
    split; [exact Hl|]. split; [reflexivity|].
    unfold remaining, sustains.
    cbn [TheDomain expected_calls SequenceGenerator.Progress SequenceGenerator.Lanes].
    rewrite !drop_ge by lia.
    split; [reflexivity|]. split; [reflexivity|].
    destruct w; [now left|]. right. split; lia.
Qed.

Lemma claim_Accumulator (w : nat) (a : ParallelAccumulator.t ElementT)
    sp ni it nl (l : Locals) :
  sustains (S w) (MkStage (Accumulator a) sp ni it nl) -> snd l = 0 ->
  claim_effect' w (MkStage (Accumulator a) sp ni it nl) l
    (claim' (MkStage (Accumulator a) sp ni it nl) l).
Proof.
  intros [Hw | (HP & Hb)] Hl; [lia|]. cbn [TheDomain] in *.
  destruct a as [lanes P].
  cbn [ParallelAccumulator.Progress ParallelAccumulator.Lanes] in *.
  unfold claim. cbn [TheDomain NextIndex SetupPending NextIter NextLeaf].
  unfold ParallelAccumulator.call_Advance, ParallelAccumulator.Advance.
  cbn [ParallelAccumulator.Progress ParallelAccumulator.Lanes].
  rewrite wrap64_small by lia.
  destruct (P <? Z.of_nat (length lanes)) eqn:Elt.
  - apply Z.ltb_lt in Elt.
    destruct (lookup_lt_is_Some_2 lanes (Z.to_nat P)) as [lane El]; [lia|].
    rewrite El.
    cbn [ParallelAccumulator.acc ParallelAccumulator.ret
         ParallelAccumulator.OutBatch].
    unfold claim_effect. split; [exact Hl|]. split; [reflexivity|].
    unfold remaining, sustains, todo.
    cbn [TheDomain expected_calls ParallelAccumulator.Progress
         ParallelAccumulator.Lanes].
    rewrite length_insert.
    split; [|split].
    + rewrite (drop_S _ _ _ El). cbn [map concat]. rewrite Hl.
      replace (Z.to_nat (P + 1)) with (S (Z.to_nat P)) by lia.
      now rewrite drop_insert_lt by lia.
    + right. split; lia.
    + lia.
  - apply Z.ltb_ge in Elt.
    cbn [ParallelAccumulator.acc ParallelAccumulator.ret
         ParallelAccumulator.OutBatch].
    unfold claim_effect. split; [exact Hl|]. split; [reflexivity|].
    unfold remaining, sustains.
    cbn [TheDomain expected_calls ParallelAccumulator.Progress
         ParallelAccumulator.Lanes].
    rewrite !drop_ge by lia.
    split; [reflexivity|]. split; [reflexivity|].
    destruct w; [now left|]. right. split; lia.
Qed.

Lemma claim_correct (w : nat) (st : Stage) (l : Locals) :
  sustains (S w) st -> snd l = 0 -> claim_effect' w st l (claim' st l).
Proof.
  destruct st as [[d|d|g|a|leaves] sp ni it nl]; intros Hs Hl.
  - now apply claim_RandomAccess.
  - now apply claim_ForwardOnly.
  - now apply claim_Generator.
  - now apply claim_Accumulator.
  - now apply claim_OctreeLeaves.
Qed.

(** *** One step of the machine *)

Lemma all_owed_app (ws1 ws2 : list Worker) :
  all_owed (ws1 ++ ws2) = all_owed ws1 ++ all_owed ws2.
Proof. unfold all_owed. now rewrite map_app, concat_app. Qed.

Lemma all_owed_cons (w : Worker) (ws : list Worker) :
  all_owed (w :: ws) = owed w ++ all_owed ws.
Proof. reflexivity. Qed.

Lemma alive_app (ws1 ws2 : list Worker) :
  alive (ws1 ++ ws2) = (alive ws1 + alive ws2)%nat.
Proof. unfold alive. now rewrite List.filter_app, length_app. Qed.

Lemma alive_cons (w : Worker) (ws : list Worker) :
  alive (w :: ws) = ((if returned w then 0 else 1) + alive ws)%nat.
Proof. unfold alive. cbn [List.filter]. now destruct (returned w). Qed.

Lemma alive_le_length (ws : list Worker) : (alive ws <= length ws)%nat.
Proof. unfold alive. apply List.filter_length_le. Qed.

Lemma loop_calls_app (cs1 cs2 : list (@Call ElementT)) :
  loop_calls (cs1 ++ cs2) = loop_calls cs1 ++ loop_calls cs2.
Proof. unfold loop_calls. apply omap_app. Qed.

Lemma setup_calls_app (cs1 cs2 : list (@Call ElementT)) :
  setup_calls (cs1 ++ cs2) = (setup_calls cs1 + setup_calls cs2)%nat.
Proof. unfold setup_calls. now rewrite List.filter_app, length_app. Qed.

(** A worker and the others around it. *)
Lemma split_workers (ws : list Worker) (i : nat) (w w' : Worker) :
  ws !! i = Some w ->
  ws = take i ws ++ w :: drop (S i) ws
  /\ <[i := w']> ws = take i ws ++ w' :: drop (S i) ws.
Proof.
  intros H. split.
  - symmetry. now apply take_drop_middle.
  - apply insert_take_drop. now apply (lookup_lt_Some _ _ _ H).
Qed.

(** The machine with worker [i] replaced, the stage replaced and calls
    appended. *)
Lemma running_update (d : Domain) (m : Machine) (i : nat) (w w' : Worker)
    (st' : Stage) (cs : list (@Call ElementT)) :
  running of_index d m ->
  workers m !! i = Some w ->
  SetupPending st' = false ->
  setup_calls cs = 0%nat ->
  untouched_start w' ->
  Permutation (loop_calls cs ++ owed w' ++ remaining' st')
              (owed w ++ remaining' (stage m)) ->
  sustains (alive (workers m)
            - (if returned w then 0 else 1) + (if returned w' then 0 else 1))
           st' ->
  (remaining' (stage m) = [] -> remaining' st' = []) ->
  (returned w' = true -> remaining' st' = []) ->
  running of_index d (MkMachine st' (<[i := w']> (workers m)) (calls m ++ cs)).
Proof.
  intros (Hsp & Hperm & Hsus & Hset & Hdone & Hloc) Hw Hsp' Hcs Hw' Hp Hs' Hr Hret.
  destruct (split_workers _ _ _ w' Hw) as [E1 E2].
  set (pre := take i (workers m)) in *. set (post := drop (S i) (workers m)) in *.
  unfold running. cbn [stage workers calls].
  rewrite E2. rewrite E1 in Hperm, Hsus, Hdone, Hloc, Hs'.
  rewrite all_owed_app, all_owed_cons in *. rewrite alive_app, alive_cons in *.
  rewrite length_app in *. cbn [length] in *.
  split; [exact Hsp'|]. split; [|split; [|split; [|split]]].
  - rewrite loop_calls_app. etransitivity; [|exact Hperm].
    now apply Permutation_step.
  - pose proof (alive_le_length pre). pose proof (alive_le_length post).
    replace (alive pre + ((if returned w' then 0 else 1) + alive post))%nat
      with (alive pre + ((if returned w then 0 else 1) + alive post)
            - (if returned w then 0 else 1) + (if returned w' then 0 else 1))%nat
      by (destruct (returned w), (returned w'); lia).
    exact Hs'.
  - rewrite setup_calls_app. lia.
  - intros Hlt. destruct (returned w') eqn:Er'; [now apply Hret|].
    apply Hr. apply Hdone. destruct (returned w); lia.
  - apply Forall_app in Hloc. destruct Hloc as [L1 L2].
    apply Forall_cons in L2. destruct L2 as [_ L2].
    apply Forall_app. split; [exact L1|]. apply Forall_cons. now split.
Qed.

Lemma alive_pos (ws : list Worker) (i : nat) (w : Worker) :
  ws !! i = Some w -> returned w = false -> (1 <= alive ws)%nat.
Proof.
  intros H Hr. destruct (split_workers _ _ _ w H) as [E _].
  rewrite E, alive_app, alive_cons, Hr. lia.
Qed.

Lemma length_exec (m : Machine) (i : nat) :
  length (workers (exec' m i)) = length (workers m).
Proof.
  unfold exec. destruct (workers m !! i) as [w|]; [|reflexivity].
  destruct (worker_step of_index (stage m) w) as [[st' w'] cs].
  cbn [workers]. apply length_insert.
Qed.

(** Once the setup block has run, every step keeps [running]. *)
Lemma exec_running (d : Domain) (m : Machine) (i : nat) :
  running of_index d m -> running of_index d (exec' m i).
Proof.
  intros Hrun. unfold exec.
  destruct (workers m !! i) as [w|] eqn:Ew; [|exact Hrun].
  pose proof Hrun as (Hsp & Hperm & Hsus & Hset & Hdone & Hloc).
  assert (Hwl : untouched_start w)
    by (rewrite Forall_lookup in Hloc; apply (Hloc i w Ew)).
  assert (Hsame : returned w = false ->
                  sustains (alive (workers m) - 1 + 1) (stage m)).
  { intros Hr. pose proof (alive_pos _ _ _ Ew Hr).
    now replace (alive (workers m) - 1 + 1)%nat with (alive (workers m)) by lia. }
  destruct w as [l|l|b l|].
  - (* the setup block, already run by somebody else *)
    cbn [worker_step]. unfold setup_block. rewrite Hsp.
    apply (running_update d m i (AtSetup l));
      [exact Hrun | exact Ew | exact Hsp | reflexivity | exact Hwl
      | reflexivity | now apply Hsame | auto | discriminate].
  - (* a claim *)
    pose proof (alive_pos _ _ _ Ew eq_refl) as Hpos.
    cbn [untouched_start] in Hwl.
    assert (Hs1 : sustains (S (alive (workers m) - 1)) (stage m))
      by (now replace (S (alive (workers m) - 1)) with (alive (workers m)) by lia).
    pose proof (claim_correct _ _ l Hs1 Hwl) as Hc.
    cbn [worker_step].
    destruct (claim' (stage m) l) as [[st' l'] [batch|]];
      destruct Hc as (Hl' & Hsp' & Hc).
    + destruct Hc as (Hrem & Hsus' & _).
      apply (running_update d m i (AtClaim l));
        [exact Hrun | exact Ew | congruence | reflexivity | exact Hl'
        | | | | discriminate].
      * cbn [owed loop_calls omap app]. now rewrite Hrem.
      * cbn [returned].
        now replace (alive (workers m) - 1 + 1)%nat
          with (S (alive (workers m) - 1)) by lia.
      * rewrite Hrem. intros E. now apply app_eq_nil in E.
    + destruct Hc as (Hrem & Hrem' & Hsus').
      apply (running_update d m i (AtClaim l));
        [exact Hrun | exact Ew | congruence | reflexivity | exact I
        | | | auto | auto].
      * cbn [owed loop_calls omap app]. now rewrite Hrem, Hrem'.
      * cbn [returned]. now rewrite Nat.add_0_r.
  - (* inside a batch *)
    destruct b as [|[e idx] rest]; cbn [worker_step].
    + apply (running_update d m i (InBatch [] l));
        [exact Hrun | exact Ew | exact Hsp | reflexivity | exact Hwl
        | reflexivity | now apply Hsame | auto | discriminate].
    + apply (running_update d m i (InBatch ((e, idx) :: rest) l));
        [exact Hrun | exact Ew | exact Hsp | reflexivity | exact Hwl
        | reflexivity | now apply Hsame | auto | discriminate].
  - (* returned *)
    cbn [worker_step]. rewrite app_nil_r.
    rewrite list_insert_id by exact Ew. now destruct m.
Qed.

(** *** From the first step to the last *)

Lemma all_owed_nil (ws : list Worker) :
  Forall (fun w => owed w = []) ws -> all_owed ws = [].
Proof.
  induction 1 as [|w ws Hw _ IH]; [reflexivity|].
  now rewrite all_owed_cons, Hw, IH.
Qed.

Lemma alive_all (ws : list Worker) :
  Forall (fun w => returned w = false) ws -> alive ws = length ws.
Proof.
  induction 1 as [|w ws Hw _ IH]; [reflexivity|].
  rewrite alive_cons, Hw, IH. reflexivity.
Qed.

Lemma alive_none (ws : list Worker) :
  forallb returned ws = true -> alive ws = 0%nat /\ all_owed ws = [].
Proof.
  induction ws as [|w ws IH]; [auto|].
  cbn [forallb]. intros H. apply andb_true_iff in H. destruct H as [Hw Hws].
  destruct (IH Hws) as [IH1 IH2].
  rewrite alive_cons, all_owed_cons, Hw, IH1, IH2.
  destruct w; try discriminate. auto.
Qed.

(** What is left on a freshly primed stage is everything. *)
Lemma remaining_primed (d : Domain) :
  remaining' (fst (setup_block (fresh_stage d))) = expected' d.
Proof. destruct d; reflexivity. Qed.

Lemma sustains_primed (d : Domain) (W : nat) :
  fits d W -> sustains W (fst (setup_block (fresh_stage d))).
Proof.
  intros Hfit. right. destruct d as [d|d|g|a|leaves];
    cbn [setup_block fresh_stage SetupPending TheDomain fst NextIndex NextIter]
    in *.
  - destruct Hfit as [H1 H2]. unfold claims_made. cbn [Z.leb Z.compare].
    repeat split; lia.
  - discriminate.
  - exact Hfit.
  - exact Hfit.
  - exact I.
Qed.

(** The first step of anybody runs the setup block. *)
Lemma exec_start (d : Domain) (W i : nat) :
  fits d W -> (i < W)%nat ->
  running of_index d (exec' (start d W) i)
  /\ length (workers (exec' (start d W) i)) = W.
Proof.
  intros Hfit Hi. split; [|now rewrite length_exec; apply repeat_length].
  unfold exec, start. cbn [workers stage calls].
  rewrite (lookup_repeat_lt _ _ _ Hi). cbn [worker_step].
  pose proof (remaining_primed d) as Hrem.
  pose proof (sustains_primed d W Hfit) as Hsus.
  destruct (setup_block (fresh_stage d)) as [st' cs] eqn:Eset.
  assert (Hcs : cs = [Setup] /\ SetupPending st' = false).
  { unfold setup_block, fresh_stage in Eset. cbn [SetupPending TheDomain] in Eset.
    injection Eset as <- <-. split; [reflexivity|]. now destruct d. }
  destruct Hcs as [-> Hsp]. cbn [fst] in *.
  set (ws := <[i := AtClaim ([], 0)]> (repeat (AtSetup ([], 0)) W)).
  assert (Hall : Forall (fun w : Worker =>
                           owed w = [] /\ returned w = false /\ untouched_start w)
                        ws).
  { unfold ws. apply Forall_insert.
    - apply Forall_forall. intros w Hw. apply list_elem_of_In in Hw.
      apply repeat_spec in Hw. subst w. repeat split.
    - repeat split. }
  assert (Hlen : length ws = W) by (unfold ws; now rewrite length_insert, repeat_length).
  unfold running. cbn [stage workers calls].
  split; [exact Hsp|].
  rewrite all_owed_nil by (eapply Forall_impl; [exact Hall|]; now intros w (? & _)).
  rewrite alive_all by (eapply Forall_impl; [exact Hall|]; now intros w (_ & ? & _)).
  rewrite Hlen, Hrem. cbn [app loop_calls omap calls].
  split; [reflexivity|]. split; [exact Hsus|]. split; [reflexivity|].
  split; [lia|].
  eapply Forall_impl; [exact Hall|]. now intros w (_ & _ & ?).
Qed.

Lemma exec_start_idle (d : Domain) (W i : nat) :
  (W <= i)%nat -> exec' (start d W) i = start d W.
Proof.
  intros Hi. unfold exec, start. cbn [workers].
  now rewrite lookup_ge_None_2 by (rewrite repeat_length; lia).
Qed.

(** Every machine a schedule can reach is either untouched or running
    with all its [W] invocations. *)
Lemma run_reaches (d : Domain) (W : nat) (schedule : list nat) (m : Machine) :
  fits d W ->
  m = start d W \/ (running of_index d m /\ length (workers m) = W) ->
  run' schedule m = start d W
  \/ (running of_index d (run' schedule m)
      /\ length (workers (run' schedule m)) = W).
Proof.
  intros Hfit. unfold run. revert m.
  induction schedule as [|i schedule IH]; intros m Hm; cbn [fold_left]; [exact Hm|].
  apply IH. destruct Hm as [-> | [Hrun Hlen]].
  - destruct (Nat.lt_ge_cases i W) as [Hi|Hi].
    + right. now apply exec_start.
    + left. now apply exec_start_idle.
  - right. split; [now apply exec_running | now rewrite length_exec].
Qed.

(** When every invocation has returned, the [Loop] calls made are the
    expected ones in some order, after exactly one [Setup]. *)
Lemma finished_covers (d : Domain) (W : nat) (schedule : list nat) :
  (1 <= W)%nat -> fits d W ->
  all_returned (run' schedule (start d W)) = true ->
  Permutation (loop_calls (calls (run' schedule (start d W)))) (expected' d)
  /\ setup_calls (calls (run' schedule (start d W))) = 1%nat.
Proof.
  intros HW Hfit Hall.
  destruct (run_reaches d W schedule (start d W) Hfit (or_introl eq_refl))
    as [E | [Hrun Hlen]].
  - rewrite E in Hall. unfold all_returned, start in Hall. cbn [workers] in Hall.
    destruct W as [|W]; [lia|]. discriminate.
  - destruct Hrun as (_ & Hperm & _ & Hset & Hdone & _).
    unfold all_returned in Hall. destruct (alive_none _ Hall) as [Ha Ho].
    rewrite Ho, Hdone in Hperm by lia.
    rewrite !app_nil_r in Hperm. auto.
Qed.

(** *** Some schedule finishes *)

(** A step of invocation [i] lowers its rank and leaves the other
    invocations alone. *)
Lemma exec_rank (d : Domain) (m : Machine) (i : nat) (w : Worker) :
  running of_index d m -> workers m !! i = Some w ->
  exists w',
    workers (exec' m i) !! i = Some w'
    /\ (rank of_index (stage (exec' m i)) w' < rank of_index (stage m) w
        \/ w' = Returned)%nat
    /\ (forall j, j <> i -> workers (exec' m i) !! j = workers m !! j).
Proof.
  intros Hrun Ew. pose proof (lookup_lt_Some _ _ _ Ew) as Hi.
  pose proof Hrun as (Hsp & _ & Hsus & _ & _ & Hloc).
  assert (Hwl : untouched_start w)
    by (rewrite Forall_lookup in Hloc; apply (Hloc i w Ew)).
  unfold exec. rewrite Ew.
  destruct (worker_step of_index (stage m) w) as [[st' w'] cs] eqn:Estep.
  cbn [workers stage]. exists w'.
  split; [now apply list_lookup_insert_eq|].
  split; [|intros j Hj; now apply list_lookup_insert_ne].
  destruct w as [l|l|b l|]; cbn [worker_step] in Estep.
  - unfold setup_block in Estep. rewrite Hsp in Estep.
    injection Estep as <- <- <-. left. cbn [rank]. lia.
  - pose proof (alive_pos _ _ _ Ew eq_refl) as Hpos.
    assert (Hs1 : sustains (S (alive (workers m) - 1)) (stage m))
      by (now replace (S (alive (workers m) - 1)) with (alive (workers m)) by lia).
    pose proof (claim_correct _ _ l Hs1 Hwl) as Hc.
    destruct (claim' (stage m) l) as [[st1 l1] [batch|]];
      destruct Hc as (_ & _ & Hc); injection Estep as <- <- <-.
    + destruct Hc as (Hrem & _ & Htodo). left. cbn [rank].
      rewrite Hrem, length_app. lia.
    + now right.
  - destruct b as [|[e idx] rest]; injection Estep as <- <- <-;
      left; cbn [rank length]; lia.
  - injection Estep as <- <- <-. now right.
Qed.

(** Invocation [i], stepping alone, returns within [rank] steps. *)
Lemma solo_returns (d : Domain) (fuel : nat) (m : Machine) (i : nat) (w : Worker) :
  running of_index d m -> workers m !! i = Some w ->
  (rank of_index (stage m) w <= fuel)%nat \/ w = Returned ->
  running of_index d (run' (repeat i fuel) m)
  /\ workers (run' (repeat i fuel) m) !! i = Some Returned
  /\ (forall j, j <> i ->
        workers (run' (repeat i fuel) m) !! j = workers m !! j)
  /\ length (workers (run' (repeat i fuel) m)) = length (workers m).
Proof.
  unfold run. revert m w. induction fuel as [|fuel IH]; intros m w Hrun Ew Hrank.
  - cbn [repeat fold_left]. split; [exact Hrun|]. split; [|auto].
    destruct Hrank as [Hrank | ->]; [|exact Ew].
    destruct w; cbn [rank] in Hrank; try lia. exact Ew.
  - cbn [repeat fold_left].
    destruct (exec_rank d m i w Hrun Ew) as (w' & Ew' & Hlt & Hothers).
    destruct (IH (exec' m i) w' (exec_running d m i Hrun) Ew') as (R1 & R2 & R3 & R4).
    { destruct Hlt as [Hlt | ->]; [|now right].
      destruct Hrank as [Hrank | ->]; [left; lia|].
      cbn [rank] in Hlt. lia. }
    split; [exact R1|]. split; [exact R2|]. split.
    + intros j Hj. rewrite (R3 j Hj). now apply Hothers.
    + rewrite R4. apply length_exec.
Qed.

(** From a running machine, some schedule makes the first [k]
    invocations return. *)
Lemma first_return (d : Domain) (k : nat) (m : Machine) :
  running of_index d m -> (k <= length (workers m))%nat ->
  exists schedule,
    running of_index d (run' schedule m)
    /\ length (workers (run' schedule m)) = length (workers m)
    /\ (forall i, (i < k)%nat -> workers (run' schedule m) !! i = Some Returned).
Proof.
  intros Hrun. induction k as [|k IH]; intros Hk.
  - exists []. cbn. split; [exact Hrun|]. split; [reflexivity|]. intros i Hi. lia.
  - destruct IH as (s1 & R1 & L1 & D1); [lia|].
    destruct (lookup_lt_is_Some_2 (workers (run' s1 m)) k) as [w Ew]; [lia|].
    destruct (solo_returns d (rank of_index (stage (run' s1 m)) w)
                (run' s1 m) k w R1 Ew (or_introl (Nat.le_refl _)))
      as (R2 & D2 & O2 & L2).
    exists (s1 ++ repeat k (rank of_index (stage (run' s1 m)) w)).
    unfold run in *. rewrite fold_left_app.
    split; [exact R2|]. split; [congruence|].
    intros i Hi. destruct (decide (i = k)) as [->|Hne]; [exact D2|].
    rewrite O2 by exact Hne. apply D1. lia.
Qed.

Lemma all_returned_lookup (ws : list Worker) :
  (forall i, (i < length ws)%nat -> ws !! i = Some Returned) ->
  forallb returned ws = true.
Proof.
  induction ws as [|w ws IH]; intros H; [reflexivity|].
  cbn [forallb]. apply andb_true_iff. split.
  - specialize (H 0%nat ltac:(cbn; lia)). cbn in H. now injection H as ->.
  - apply IH. intros i Hi. apply (H (S i)). cbn. lia.
Qed.

(** Some schedule lets all [W] invocations return. *)
Lemma some_schedule_finishes (d : Domain) (W : nat) :
  (1 <= W)%nat -> fits d W ->
  exists schedule, all_returned (run' schedule (start d W)) = true.
Proof.
  intros HW Hfit.
  destruct (exec_start d W 0 Hfit HW) as [Hrun Hlen].
  destruct (first_return d W (exec' (start d W) 0) Hrun ltac:(lia))
    as (s & R & L & D).
  exists (0%nat :: s). unfold run in *. cbn [fold_left].
  unfold all_returned. apply all_returned_lookup.
  intros i Hi. apply D. lia.
Qed.

(** *** The expected calls *)

Lemma length_expected (d : Domain) : length (expected' d) = domain_size d.
Proof.
  destruct d as [d|d|g|a|leaves]; cbn [expected_calls domain_size].
  - apply length_imap.
  - apply length_map.
  - rewrite length_concat, map_map. f_equal. apply map_ext. intros s.
    unfold lane_calls, indices. now rewrite !length_map, length_seq.
  - rewrite length_concat, map_map. f_equal. apply map_ext. intros b.
    unfold batch_calls. apply length_imap.
  - apply length_map.
Qed.

Lemma expected_RandomAccess_indices (d : list ElementT) :
  map snd (expected' (RandomAccess d)) = map Z.of_nat (seq 0 (length d))
  /\ map fst (expected' (RandomAccess d)) = d.
Proof.
  cbn [expected_calls].
  assert (G : forall (k : nat) (l : list ElementT),
             map snd (imap (fun i e => (e, Z.of_nat (k + i))) l)
             = map Z.of_nat (seq k (length l))
             /\ map fst (imap (fun i e => (e, Z.of_nat (k + i))) l) = l).
  { intros k l. revert k. induction l as [|e l IH]; intros k; [auto|].
    cbn [imap map length seq fst snd]. rewrite Nat.add_0_r.
    destruct (IH (S k)) as [IH1 IH2].
    rewrite (imap_ext _ (fun i e0 => (e0, Z.of_nat (S k + i)))).
    2:{ intros i x _. cbn. do 2 f_equal. lia. }
    now rewrite IH1, IH2. }
  apply (G 0%nat d).
Qed.

(** C2 (amended).  Let a fresh stage over domain [d] be run by [W >= 1]
    invocations of [Run()] interleaved in any way, where a random-access
    domain has at most 2^31 elements and fewer than 2^32 claims are made
    on it, and a generator or accumulator sees fewer than 2^64.  Some
    schedule lets every invocation return.  Whenever every invocation
    has returned, [Setup] has been called exactly once and the [Loop]
    calls made are, in some order, exactly the expected ones: one per
    domain element and as many as the domain has elements, for a
    random-access domain with the indices 0 .. K-1 each once, for a
    forward-only or octree-leaf domain with index -1. *)
Theorem every_element_looped_once (d : Domain) (W : nat) :
  (1 <= W)%nat -> fits d W ->
  (exists schedule, all_returned (run' schedule (start d W)) = true)
  /\ (forall schedule,
        all_returned (run' schedule (start d W)) = true ->
        Permutation (loop_calls (calls (run' schedule (start d W))))
                    (expected' d)
        /\ length (loop_calls (calls (run' schedule (start d W))))
           = domain_size d
        /\ setup_calls (calls (run' schedule (start d W))) = 1%nat
        /\ match d with
           | RandomAccess l =>
               Permutation
                 (map snd (loop_calls (calls (run' schedule (start d W)))))
                 (map Z.of_nat (seq 0 (length l)))
               /\ Permutation
                    (map fst (loop_calls (calls (run' schedule (start d W)))))
                    l
           | ForwardOnly l | OctreeLeaves l =>
               Forall (fun c => snd c = -1)
                      (loop_calls (calls (run' schedule (start d W))))
               /\ Permutation
                    (map fst (loop_calls (calls (run' schedule (start d W)))))
                    l
           | _ => True
           end).
Proof.
  intros HW Hfit. split; [now apply some_schedule_finishes|].
  intros schedule Hall.
  destruct (finished_covers d W schedule HW Hfit Hall) as [Hperm Hset].
  split; [exact Hperm|].
  split; [rewrite (Permutation_length Hperm); apply length_expected|].
  split; [exact Hset|].
  destruct d as [l|l|g|a|l]; [| | exact I | exact I |].
  - destruct (expected_RandomAccess_indices l) as [E1 E2].
    split.
    + rewrite <- E1. now apply Permutation_map.
    + rewrite <- E2 at 2. now apply Permutation_map.
  - split.
    + eapply Permutation_Forall; [symmetry; exact Hperm|].
      cbn [expected_calls]. apply Forall_forall. intros c Hc.
      apply elem_of_map in Hc. destruct Hc as (e & -> & _). reflexivity.
    + etransitivity; [apply Permutation_map; exact Hperm|].
      cbn [expected_calls]. rewrite map_map. cbn [fst]. now rewrite map_id.
  - split.
    + eapply Permutation_Forall; [symmetry; exact Hperm|].
      cbn [expected_calls]. apply Forall_forall. intros c Hc.
      apply elem_of_map in Hc. destruct Hc as (e & -> & _). reflexivity.
    + etransitivity; [apply Permutation_map; exact Hperm|].
      cbn [expected_calls]. rewrite map_map. cbn [fst]. now rewrite map_id.
Qed.

(** *** Indices of a random-access stage stay inside [int] *)

Lemma int_indices_update (d : list ElementT) sp sp' ni ni' it it' nl nl'
    (ws : list Worker) (cs cs' : list (@Call ElementT)) (i : nat) (w' : Worker) :
  int_indices (MkMachine (MkStage (RandomAccess d) sp ni it nl) ws cs) ->
  - 2 ^ 31 <= ni' < 2 ^ 31 ->
  Forall (fun c => snd c < 2 ^ 31) (loop_calls cs') ->
  Forall (fun c => snd c < 2 ^ 31) (owed w') ->
  int_indices (MkMachine (MkStage (RandomAccess d) sp' ni' it' nl')
                 (<[i := w']> ws) (cs ++ cs')).
Proof.
  intros (_ & _ & Hc & Hw) Hr' Hc' Hw'. unfold int_indices.
  cbn [stage workers calls TheDomain NextIndex] in *.
  split; [now exists d|]. split; [exact Hr'|]. split.
  - rewrite loop_calls_app. apply Forall_app. now split.
  - now apply Forall_insert.
Qed.

Lemma exec_int_indices (m : Machine) (i : nat) :
  int_indices m -> int_indices (exec' m i).
Proof.
  intros Hm. pose proof Hm as ([d Hd] & Hr & Hc & Hw). unfold exec.
  destruct (workers m !! i) as [w|] eqn:Ew; [|exact Hm].
  assert (Hwi : Forall (fun c : ElementT * Z => snd c < 2 ^ 31) (owed w))
    by (rewrite Forall_lookup in Hw; apply (Hw i w Ew)).
  destruct m as [st ws cs]. cbn [stage workers calls] in *.
  destruct st as [D sp ni it nl]. cbn [TheDomain NextIndex] in *. subst D.
  destruct w as [l|l|b l|]; cbn [worker_step].
  - unfold setup_block. cbn [SetupPending TheDomain NextIndex NextIter NextLeaf].
    destruct sp; (eapply int_indices_update; [exact Hm | exact Hr | |]);
      constructor.
  - unfold claim. cbn [TheDomain NextIndex SetupPending NextIter NextLeaf].
    destruct (int_to_size_t ni <? Z.of_nat (length d));
      [destruct (d !! Z.to_nat ni) as [e|]|];
      (eapply int_indices_update; [exact Hm | apply wrap_int_range | |]);
      cbn [owed loop_calls omap]; repeat constructor.
    cbn [snd]. lia.
  - destruct b as [|[e idx] rest]; cbn [owed] in Hwi.
    + eapply int_indices_update; [exact Hm | exact Hr | |]; constructor.
    + apply Forall_cons in Hwi. destruct Hwi as [Hidx Hrest].
      eapply int_indices_update; [exact Hm | exact Hr | | exact Hrest].
      cbn. now constructor.
  - eapply int_indices_update; [exact Hm | exact Hr | |]; constructor.
Qed.

Lemma run_int_indices (schedule : list nat) (m : Machine) :
  int_indices m -> int_indices (run' schedule m).
Proof.
  unfold run. revert m. induction schedule as [|i schedule IH]; intros m H;
    cbn [fold_left]; [exact H|].
  apply IH. now apply exec_int_indices.
Qed.

Lemma start_int_indices (d : list ElementT) (W : nat) :
  int_indices (start (RandomAccess d) W).
Proof.
  unfold int_indices, start, fresh_stage. cbn.
  split; [now exists d|]. split; [lia|]. split; [constructor|].
  apply Forall_forall. intros w Hw. apply list_elem_of_In in Hw.
  apply repeat_spec in Hw. subst w. constructor.
Qed.

(** No schedule ever passes an index of 2^31 or more to [Loop]. *)
Lemma index_below_int_max (d : list ElementT) (W : nat) (schedule : list nat)
    (e : ElementT) (idx : Z) :
  (e, idx) ∈ loop_calls (calls (run' schedule (start (RandomAccess d) W))) ->
  idx < 2 ^ 31.
Proof.
  intros Hin.
  destruct (run_int_indices schedule _ (start_int_indices d W))
    as (_ & _ & Hc & _).
  rewrite Forall_forall in Hc. apply (Hc _ Hin).
Qed.

(** A domain of [n = 2^31 + 1] equal elements: its last element is owed
    a [Loop] call with index 2^31, which no schedule ever makes. *)
Lemma last_element_skipped (n : nat) (x : ElementT) :
  Z.of_nat n = 2 ^ 31 + 1 ->
  (x, 2 ^ 31) ∈ expected' (RandomAccess (repeat x n))
  /\ forall (W : nat) (schedule : list nat),
       (x, 2 ^ 31) ∉
         loop_calls (calls (run' schedule (start (RandomAccess (repeat x n)) W))).
Proof.
  intros Hn. split.
  - cbn [expected_calls]. apply elem_of_lookup_imap.
    exists (Nat.pred n), x. split; [f_equal; lia|].
    apply lookup_repeat_lt. lia.
  - intros W schedule Hin. apply index_below_int_max in Hin. lia.
Qed.

End Stage.

Lemma every_element_looped_once_witness :
  let d := RandomAccess [10; 20; 30] in
  let schedule := concat (repeat [0; 1]%nat 8) in
  all_returned (run id schedule (start d 2)) = true
  /\ calls (run id schedule (start d 2))
     = [Setup; Loop 10 0; Loop 20 1; Loop 30 2]
  /\ Permutation (loop_calls (calls (run id schedule (start d 2))))
                 [(10, 0); (20, 1); (30, 2)]
  /\ length (loop_calls (calls (run id schedule (start d 2)))) = 3%nat.
Proof.
  cbv zeta.
  destruct (every_element_looped_once id (RandomAccess [10; 20; 30]) 2)
    as [_ H]; [lia | split; cbn; lia |].
  destruct (H (concat (repeat [0; 1]%nat 8)) eq_refl) as (H1 & H2 & _).
  split; [reflexivity|]. split; [reflexivity|].
  split; [exact H1 | exact H2].
Defined.

(** C2 as stated fails for a random-access domain of 2^31 + 1 elements:
    [NextIndex] is a 32-bit [int], so the index 2^31 of the last element
    is never claimed, whatever the number of invocations and the
    schedule. *)
Lemma oversized_domain_counterexample :
  (tt, 2 ^ 31)
    ∈ expected_calls (fun _ => tt) (RandomAccess (repeat tt (Z.to_nat (2 ^ 31 + 1))))
  /\ forall (W : nat) (schedule : list nat),
       (tt, 2 ^ 31) ∉
         loop_calls
           (calls (run (fun _ => tt) schedule
                     (start (RandomAccess (repeat tt (Z.to_nat (2 ^ 31 + 1)))) W))).
Proof.
  apply last_element_skipped. apply Z2Nat.id. discriminate.
Qed.

End ParallelDomainTaskChainFacts.

(* ===================================================================== *)
(** * Part III: further properties of the embedded code                   *)
(* ===================================================================== *)

Module AccumulatorLaneFacts.
Import ParallelAccumulator.
Import ListFacts.

Section Lanes.
Context {ValueT : Type}.

Lemma Size_fold (lanes : list (list ValueT)) (acc0 : Z) :
  0 <= acc0 < 2 ^ 64 ->
  fold_left (fun TotalSize Lane => wrap64 (TotalSize + Z.of_nat (length Lane)))
    lanes acc0
  = wrap64 (acc0 + Z.of_nat (length (concat lanes))).
Proof.
  revert acc0. induction lanes as [|l lanes IH]; intros acc0 H; cbn [fold_left concat].
  - cbn [length]. rewrite Z.add_0_r. symmetry. now apply wrap64_small.
  - rewrite IH by apply wrap64_range.
    rewrite length_app, Nat2Z.inj_add. unfold wrap64.
    rewrite Zplus_mod_idemp_l. f_equal. lia.
Qed.

Lemma Read_concat (a : t ValueT) : Read a = concat (Lanes a).
Proof.
  unfold Read.
  assert (Hin : forall (Lane called : list ValueT),
             fold_left (fun called Value => called ++ [Value]) Lane called
             = called ++ Lane).
  { induction Lane as [|v Lane IH]; intros called; cbn [fold_left].
    - now rewrite app_nil_r.
    - rewrite IH, <- app_assoc. reflexivity. }
  assert (Hout : forall (lanes : list (list ValueT)) (called : list ValueT),
             fold_left
               (fun called Lane =>
                  fold_left (fun called Value => called ++ [Value]) Lane called)
               lanes called
             = called ++ concat lanes).
  { induction lanes as [|l lanes IH]; intros called; cbn [fold_left concat].
    - now rewrite app_nil_r.
    - rewrite IH, Hin, <- app_assoc. reflexivity. }
  apply Hout.
Qed.


Lemma Push_lookup (a : t ValueT) (i : Z) (v : ValueT) :
  0 <= i < Z.of_nat (length (Lanes a)) ->
  Z.of_nat (length (Lanes a)) <= 2 ^ 64 ->
  exists a', Push i v a = Some a'
    /\ Progress a' = Progress a
    /\ length (Lanes a') = length (Lanes a)
    /\ forall j : nat,
         Lanes a' !! j
         = (fun Lane => Lane ++ (if Z.of_nat j =? i then [v] else []))
             <$> Lanes a !! j.
Proof.
  intros Hi Hl. unfold Push, int_to_size_t.
  rewrite Z.mod_small by lia.
  replace (i <? Z.of_nat (length (Lanes a))) with true
    by (symmetry; apply Z.ltb_lt; lia).
  eexists. split; [reflexivity|]. cbn [Progress Lanes].
  split; [reflexivity|]. split; [apply length_alter|].
  intros j. destruct (Z.eqb_spec (Z.of_nat j) i) as [E|E].
  - subst i. rewrite Nat2Z.id. apply list_lookup_alter_eq.
  - rewrite list_lookup_alter_ne by lia.
    destruct (Lanes a !! j); cbn; [now rewrite app_nil_r | reflexivity].
Qed.

Lemma pushed_by_cons (i : Z) (v : ValueT) (rest : list (Z * ValueT)) (j : Z) :
  pushed_by ((i, v) :: rest) j
  = (if j =? i then [v] else []) ++ pushed_by rest j.
Proof.
  unfold pushed_by. cbn [List.filter fst]. rewrite (Z.eqb_sym i j).
  destruct (j =? i); reflexivity.
Qed.

Lemma Pushes_lookup (trace : list (Z * ValueT)) (a : t ValueT) :
  Forall (fun e => 0 <= fst e < Z.of_nat (length (Lanes a))) trace ->
  Z.of_nat (length (Lanes a)) <= 2 ^ 64 ->
  exists a', Pushes trace a = Some a'
    /\ Progress a' = Progress a
    /\ length (Lanes a') = length (Lanes a)
    /\ forall j : nat,
         Lanes a' !! j
         = (fun Lane => Lane ++ pushed_by trace (Z.of_nat j)) <$> Lanes a !! j.
Proof.
  revert a. induction trace as [|[i v] rest IH]; intros a HF Hl.
  - exists a. split; [reflexivity|]. split; [reflexivity|]. split; [reflexivity|].
    intros j. destruct (Lanes a !! j); cbn; [now rewrite app_nil_r | reflexivity].
  - apply Forall_cons in HF. destruct HF as [Hi HF]. cbn [fst] in Hi.
    destruct (Push_lookup a i v Hi Hl) as (a1 & E1 & P1 & L1 & K1).
    destruct (IH a1) as (a' & E' & P' & L' & K').
    { now rewrite L1. }
    { now rewrite L1. }
    exists a'. cbn [Pushes]. rewrite E1.
    split; [exact E'|]. split; [congruence|]. split; [congruence|].
    intros j. rewrite K', K1, pushed_by_cons.
    destruct (Lanes a !! j); cbn; [|reflexivity].
    now rewrite <- app_assoc.
Qed.

Lemma concat_insert_thread (X : nat -> list ValueT) (v : ValueT) (i len : nat) :
  (i < len)%nat ->
  Permutation
    (concat (map (fun j => (if Z.of_nat j =? Z.of_nat i then [v] else []) ++ X j)
                 (seq 0 len)))
    (v :: concat (map X (seq 0 len))).
Proof.
  intros Hi.
  replace len with (i + S (len - S i))%nat by lia.
  rewrite seq_app, !map_app, !concat_app. cbn [seq map concat Nat.add].
  rewrite Z.eqb_refl. cbn [app].
  rewrite (map_ext_in _ X (seq 0 i)).
  2:{ intros j Hj. apply in_seq in Hj.
      replace (Z.of_nat j =? Z.of_nat i) with false
        by (symmetry; apply Z.eqb_neq; lia).
      reflexivity. }
  rewrite (map_ext_in _ X (seq (S i) (len - S i))).
  2:{ intros j Hj. apply in_seq in Hj.
      replace (Z.of_nat j =? Z.of_nat i) with false
        by (symmetry; apply Z.eqb_neq; lia).
      reflexivity. }
  symmetry. apply Permutation_middle.
Qed.

Lemma pushed_by_all (trace : list (Z * ValueT)) (len : nat) :
  Forall (fun e => 0 <= fst e < Z.of_nat len) trace ->
  Permutation
    (concat (map (fun j => pushed_by trace (Z.of_nat j)) (seq 0 len)))
    (map snd trace).
Proof.
  induction trace as [|[i v] rest IH]; intros HF.
  - cbn [map]. unfold pushed_by. cbn [List.filter map].
    induction (seq 0 len) as [|x l IHl]; [reflexivity | exact IHl].
  - apply Forall_cons in HF. destruct HF as [Hi HF]. cbn [fst] in Hi.
    cbn [map snd].
    rewrite (map_ext _ (fun j => (if Z.of_nat j =? Z.of_nat (Z.to_nat i)
                                  then [v] else [])
                                 ++ pushed_by rest (Z.of_nat j))).
    2:{ intros j. rewrite pushed_by_cons. rewrite Z2Nat.id by lia. reflexivity. }
    rewrite concat_insert_thread by lia.
    constructor. apply IH, HF.
Qed.


Lemma Reset_lanes (ThreadPoolSize : Z) :
  0 <= ThreadPoolSize < 2 ^ 31 - 1 ->
  Lanes (@Reset ValueT ThreadPoolSize) = repeat [] (Z.to_nat (ThreadPoolSize + 1)).
Proof.
  intros H. unfold Reset. cbn [Lanes].
  rewrite ParallelDomainTaskChainFacts.wrap_int_small by lia.
  rewrite ParallelDomainTaskChainFacts.int_to_size_t_nonneg by lia.
  reflexivity.
Qed.

(** X1.  After [Reset()], pushes from threads of the pool leave in lane [j]
    what thread [j] pushed, in its push order, so [Join] and [Read] yield
    the pushed values grouped by thread: a rearrangement of all of
    them. *)
Theorem Join_collects_pushes (ThreadPoolSize : Z) (trace : list (Z * ValueT)) :
  0 <= ThreadPoolSize < 2 ^ 31 - 1 ->
  Forall (fun e => 0 <= fst e <= ThreadPoolSize) trace ->
  exists a : t ValueT,
    Pushes trace (Reset ThreadPoolSize) = Some a
    /\ Lanes a = map (fun j => pushed_by trace (Z.of_nat j))
                     (seq 0 (Z.to_nat (ThreadPoolSize + 1)))
    /\ Join a [] = concat (map (fun j => pushed_by trace (Z.of_nat j))
                               (seq 0 (Z.to_nat (ThreadPoolSize + 1))))
    /\ Read a = Join a []
    /\ Permutation (Join a []) (map snd trace)
    /\ Size a = wrap64 (Z.of_nat (length trace)).
Proof.
  intros Hp HF.
  pose proof (Reset_lanes ThreadPoolSize Hp) as HR.
  destruct (Pushes_lookup trace (Reset ThreadPoolSize)) as (a & E & _ & L & K).
  { rewrite HR, repeat_length. eapply Forall_impl; [exact HF|].
    cbn beta. intros e He. lia. }
  { rewrite HR, repeat_length. lia. }
  assert (HL : Lanes a = map (fun j => pushed_by trace (Z.of_nat j))
                             (seq 0 (Z.to_nat (ThreadPoolSize + 1)))).
  { apply list_eq. intros j. rewrite K, HR, lookup_map_seq.
    destruct (Nat.ltb j (Z.to_nat (ThreadPoolSize + 1))) eqn:Ej.
    - apply Nat.ltb_lt in Ej. now rewrite lookup_repeat_lt by exact Ej.
    - apply Nat.ltb_ge in Ej.
      replace (repeat [] (Z.to_nat (ThreadPoolSize + 1)) !! j)
        with (@None (list ValueT)); [reflexivity|].
      symmetry. apply lookup_ge_None. now rewrite repeat_length. }
  assert (HP : Permutation (concat (Lanes a)) (map snd trace)).
  { rewrite HL. apply pushed_by_all. eapply Forall_impl; [exact HF|].
    cbn beta. intros e He. lia. }
  exists a. split; [exact E|]. split; [exact HL|].
  rewrite ParallelAccumulatorFacts.Join_concat, Read_concat. cbn [app].
  split; [now rewrite HL|]. split; [reflexivity|]. split; [exact HP|].
  unfold Size. rewrite Size_fold by lia. rewrite Z.add_0_l.
  now rewrite (Permutation_length HP), length_map.
Qed.


Lemma Push_Some_inv (a a' : t ValueT) (i : Z) (v : ValueT) :
  - 2 ^ 31 <= i < 2 ^ 31 ->
  Z.of_nat (length (Lanes a)) <= 2 ^ 31 ->
  Push i v a = Some a' ->
  0 <= i < Z.of_nat (length (Lanes a))
  /\ length (Lanes a') = length (Lanes a).
Proof.
  intros Hi Hl. unfold Push.
  destruct (int_to_size_t i <? Z.of_nat (length (Lanes a))) eqn:E; [|discriminate].
  apply Z.ltb_lt in E. intros [= <-]. cbn [Lanes]. rewrite length_alter.
  split; [|reflexivity].
  destruct (Z.neg_nonneg_cases i) as [Hn|Hn].
  - rewrite ParallelDomainTaskChainFacts.int_to_size_t_neg in E by lia. lia.
  - rewrite ParallelDomainTaskChainFacts.int_to_size_t_nonneg in E by lia. lia.
Qed.

Lemma Pushes_Some_inv (trace : list (Z * ValueT)) (a a' : t ValueT) :
  Forall (fun e => - 2 ^ 31 <= fst e < 2 ^ 31) trace ->
  Z.of_nat (length (Lanes a)) <= 2 ^ 31 ->
  Pushes trace a = Some a' ->
  Forall (fun e => 0 <= fst e < Z.of_nat (length (Lanes a))) trace.
Proof.
  revert a. induction trace as [|[i v] rest IH]; intros a HF Hl E.
  - constructor.
  - apply Forall_cons in HF. destruct HF as [Hi HF]. cbn [fst] in Hi.
    cbn [Pushes] in E. destruct (Push i v a) as [a1|] eqn:E1; [|discriminate].
    destruct (Push_Some_inv a a1 i v Hi Hl E1) as [Hr Hlen].
    apply Forall_cons. split; [exact Hr|].
    rewrite <- Hlen. apply IH; [exact HF | rewrite Hlen; exact Hl | exact E].
Qed.

(** X2.  [Push] asserts that the calling thread has a lane: after [Reset()]
    a run of pushes goes through exactly when every thread index lies in
    [0, ThreadPoolSize]; an index beyond the pool, or a negative one,
    fails the assertion. *)
Theorem Pushes_need_a_lane (ThreadPoolSize : Z) (trace : list (Z * ValueT)) :
  0 <= ThreadPoolSize < 2 ^ 31 - 1 ->
  Forall (fun e => - 2 ^ 31 <= fst e < 2 ^ 31) trace ->
  is_Some (Pushes trace (Reset ThreadPoolSize))
  <-> Forall (fun e => 0 <= fst e <= ThreadPoolSize) trace.
Proof.
  intros Hp Hint.
  pose proof (Reset_lanes ThreadPoolSize Hp) as HR. split.
  - intros [a' E].
    apply Pushes_Some_inv in E;
      [|exact Hint | rewrite HR, repeat_length; lia].
    rewrite HR, repeat_length in E.
    eapply Forall_impl; [exact E|]. cbn beta. intros e He. lia.
  - intros HF.
    destruct (Pushes_lookup trace (Reset ThreadPoolSize)) as (a & E & _).
    + rewrite HR, repeat_length. eapply Forall_impl; [exact HF|].
      cbn beta. intros e He. lia.
    + rewrite HR, repeat_length. lia.
    + rewrite E. eexists. reflexivity.
Qed.

(** X22.  How the pushes of different threads interleave does not matter:
    two runs in which every thread pushes the same values in the same
    order leave the same accumulator. *)
Theorem Pushes_interleaving_is_immaterial (ThreadPoolSize : Z)
    (trace1 trace2 : list (Z * ValueT)) :
  0 <= ThreadPoolSize < 2 ^ 31 - 1 ->
  Forall (fun e => 0 <= fst e <= ThreadPoolSize) trace1 ->
  Forall (fun e => 0 <= fst e <= ThreadPoolSize) trace2 ->
  (forall ThreadIndex : Z,
      0 <= ThreadIndex <= ThreadPoolSize ->
      pushed_by trace1 ThreadIndex = pushed_by trace2 ThreadIndex) ->
  Pushes trace1 (Reset ThreadPoolSize) = Pushes trace2 (Reset ThreadPoolSize)
  /\ is_Some (Pushes trace1 (Reset ThreadPoolSize)).
Proof.
  intros Hp H1 H2 Hsame.
  pose proof (Reset_lanes ThreadPoolSize Hp) as HR.
  assert (Hin : forall trace : list (Z * ValueT),
             Forall (fun e => 0 <= fst e <= ThreadPoolSize) trace ->
             Forall (fun e => 0 <= fst e
                              < Z.of_nat (length (Lanes (@Reset ValueT ThreadPoolSize))))
                    trace).
  { intros trace HF. rewrite HR, repeat_length.
    eapply Forall_impl; [exact HF|]. cbn beta. intros e He. lia. }
  assert (Hle : Z.of_nat (length (Lanes (@Reset ValueT ThreadPoolSize))) <= 2 ^ 64)
    by (rewrite HR, repeat_length; lia).
  destruct (Pushes_lookup trace1 (Reset ThreadPoolSize) (Hin _ H1) Hle)
    as (a1 & E1 & P1 & L1 & K1).
  destruct (Pushes_lookup trace2 (Reset ThreadPoolSize) (Hin _ H2) Hle)
    as (a2 & E2 & P2 & L2 & K2).
  rewrite E1, E2. split; [|eexists; reflexivity].
  f_equal. destruct a1 as [lanes1 p1], a2 as [lanes2 p2].
  cbn [Lanes Progress] in *. f_equal; [|congruence].
  apply list_eq. intros j. rewrite K1, K2.
  destruct (Lanes (@Reset ValueT ThreadPoolSize) !! j) as [lane|] eqn:Ej;
    [|reflexivity].
  apply lookup_lt_Some in Ej. rewrite HR, repeat_length in Ej.
  cbn. rewrite Hsame by lia. reflexivity.
Qed.

(** *** Draining by [Advance] *)

Lemma Advance_step (a : t ValueT) Batch BatchStart (p : nat) (lane : list ValueT) :
  Progress a = Z.of_nat p -> Lanes a !! p = Some lane ->
  Z.of_nat (length (Lanes a)) < 2 ^ 64 ->
  Advance a Batch BatchStart
  = MkOutcome (Mk (<[p := []]> (Lanes a)) (Z.of_nat (S p))) true lane
              (PriorSizes (<[p := []]> (Lanes a)) (Z.of_nat p)).
Proof.
  intros Hp Hl Hb. pose proof (lookup_lt_Some _ _ _ Hl) as Hi.
  unfold Advance. rewrite Hp.
  replace (Z.of_nat p <? Z.of_nat (length (Lanes a))) with true
    by (symmetry; apply Z.ltb_lt; lia).
  rewrite Nat2Z.id, Hl. rewrite wrap64_small by lia.
  replace (Z.of_nat p + 1) with (Z.of_nat (S p)) by lia. reflexivity.
Qed.

Lemma Advance_past (a : t ValueT) Batch BatchStart :
  Z.of_nat (length (Lanes a)) <= Progress a ->
  ret (Advance a Batch BatchStart) = false
  /\ OutBatch (Advance a Batch BatchStart) = Batch
  /\ Lanes (acc (Advance a Batch BatchStart)) = Lanes a.
Proof.
  intros H. unfold Advance.
  replace (Progress a <? Z.of_nat (length (Lanes a))) with false
    by (symmetry; apply Z.ltb_ge; lia).
  cbn. auto.
Qed.

Lemma drain_from (k p : nat) (a : t ValueT) Batch BatchStart :
  Progress a = Z.of_nat p -> (p + k)%nat = length (Lanes a) ->
  Z.of_nat (length (Lanes a)) < 2 ^ 64 ->
  map fst (drain (S k) a Batch BatchStart) = drop p (Lanes a).
Proof.
  revert p a Batch BatchStart.
  induction k as [|k IH]; intros p a Batch BatchStart Hp Hk Hb.
  - cbn [drain]. unfold call_Advance.
    destruct (Advance_past a Batch BatchStart) as (Hr & _); [lia|].
    rewrite Hr. cbn [map]. symmetry. apply drop_ge. lia.
  - destruct (lookup_lt_is_Some_2 (Lanes a) p) as [lane Hl]; [lia|].
    change (drain (S (S k)) a Batch BatchStart)
      with (let '(a', ok, Batch', BatchStart') := call_Advance a Batch BatchStart in
            if ok then (Batch', BatchStart') :: drain (S k) a' Batch' BatchStart'
            else []).
    unfold call_Advance. rewrite (Advance_step a Batch BatchStart p lane Hp Hl Hb).
    cbn [acc ret OutBatch map fst].
    rewrite (IH (S p)).
    + cbn [Lanes]. rewrite drop_insert_lt by lia.
      symmetry. now apply drop_S.
    + reflexivity.
    + cbn [Lanes]. rewrite length_insert. lia.
    + cbn [Lanes]. rewrite length_insert. exact Hb.
Qed.

Lemma after_Advances_from (k p : nat) (a : t ValueT) :
  Progress a = Z.of_nat p -> (p + k)%nat = length (Lanes a) ->
  Z.of_nat (length (Lanes a)) < 2 ^ 64 ->
  Lanes (after_Advances k a) = take p (Lanes a) ++ repeat [] k
  /\ Progress (after_Advances k a) = Z.of_nat (p + k).
Proof.
  revert p a. induction k as [|k IH]; intros p a Hp Hk Hb.
  - cbn [after_Advances repeat]. rewrite app_nil_r, Nat.add_0_r.
    split; [|exact Hp]. symmetry. apply take_ge. lia.
  - destruct (lookup_lt_is_Some_2 (Lanes a) p) as [lane Hl]; [lia|].
    cbn [after_Advances].
    rewrite (Advance_step a [] 0 p lane Hp Hl Hb). cbn [acc].
    destruct (IH (S p) (Mk (<[p := []]> (Lanes a)) (Z.of_nat (S p)))) as [HL HP].
    + reflexivity.
    + cbn [Lanes]. rewrite length_insert. lia.
    + cbn [Lanes]. rewrite length_insert. exact Hb.
    + rewrite HL, HP. cbn [Lanes]. split; [|f_equal; lia].
      rewrite (take_S_r _ p []).
      2:{ apply list_lookup_insert_eq. lia. }
      rewrite take_insert_ge by lia. rewrite <- app_assoc. reflexivity.
Qed.

Lemma concat_repeat_nil (n : nat) : concat (repeat (@nil ValueT) n) = [].
Proof. induction n as [|n IH]; [reflexivity | exact IH]. Qed.

(** X3.  Iterating with [Advance] hands out every lane once, in lane order
    and empty lanes included, so the batches put together are what
    [Join] gave beforehand; after as many calls as there are lanes,
    [Advance] returns [false]. *)
Theorem Advance_hands_out_every_lane (a : t ValueT) (Batch : list ValueT)
    (BatchStart : Z) :
  Progress a = 0 -> Z.of_nat (length (Lanes a)) < 2 ^ 64 ->
  map fst (drain (S (length (Lanes a))) a Batch BatchStart) = Lanes a
  /\ concat (map fst (drain (S (length (Lanes a))) a Batch BatchStart))
     = Join a []
  /\ ret (Advance (after_Advances (length (Lanes a)) a) Batch BatchStart)
     = false.
Proof.
  intros Hp Hb.
  pose proof (drain_from (length (Lanes a)) 0 a Batch BatchStart Hp eq_refl Hb)
    as Hd.
  destruct (after_Advances_from (length (Lanes a)) 0 a Hp eq_refl Hb) as [HL HP].
  rewrite take_0 in HL. cbn [Nat.add app] in HL, HP. rewrite drop_0 in Hd.
  split; [exact Hd|].
  split; [rewrite Hd, ParallelAccumulatorFacts.Join_concat; reflexivity|].
  apply Advance_past. rewrite HL, HP, repeat_length. lia.
Qed.

(** X21.  Iterating with [Advance] uses the accumulator up: each lane is moved
    out and left empty, so once every lane has been handed out [Size()]
    is 0 and [Join] adds nothing. *)
Theorem Advance_uses_up_the_lanes (a : t ValueT) :
  Progress a = 0 -> Z.of_nat (length (Lanes a)) < 2 ^ 64 ->
  Lanes (after_Advances (length (Lanes a)) a) = repeat [] (length (Lanes a))
  /\ Size (after_Advances (length (Lanes a)) a) = 0
  /\ (forall Merged : list ValueT,
        Join (after_Advances (length (Lanes a)) a) Merged = Merged).
Proof.
  intros Hp Hb.
  destruct (after_Advances_from (length (Lanes a)) 0 a Hp eq_refl Hb) as [HL _].
  rewrite take_0 in HL. cbn [app] in HL.
  split; [exact HL|]. split.
  - unfold Size. rewrite Size_fold by lia. rewrite HL, concat_repeat_nil.
    reflexivity.
  - intros Merged. rewrite ParallelAccumulatorFacts.Join_concat, HL,
      concat_repeat_nil. apply app_nil_r.
Qed.

(** X4.  [Join] appends to [Merged] and leaves what was there; the number of
    values it appends is [Size()], up to the wrap of [size_t]. *)
Theorem Join_appends_Size (a : t ValueT) (Merged : list ValueT) :
  Join a Merged = Merged ++ Join a []
  /\ Size a = wrap64 (Z.of_nat (length (Join a [])))
  /\ Read a = Join a [].
Proof.
  rewrite !ParallelAccumulatorFacts.Join_concat, Read_concat. cbn [app].
  split; [reflexivity|]. split; [|reflexivity].
  unfold Size. rewrite Size_fold by lia. reflexivity.
Qed.

End Lanes.

Lemma Pushes_interleaving_is_immaterial_witness :
  Pushes [(0, 7); (1, 8); (0, 9)] (@Reset Z 1)
  = Pushes [(1, 8); (0, 7); (0, 9)] (@Reset Z 1).
Proof.
  apply (Pushes_interleaving_is_immaterial 1 [(0, 7); (1, 8); (0, 9)]
           [(1, 8); (0, 7); (0, 9)]).
  - lia.
  - repeat constructor; cbn; lia.
  - repeat constructor; cbn; lia.
  - intros j Hj. assert (Hc : j = 0 \/ j = 1) by lia.
    destruct Hc as [->| ->]; reflexivity.
Defined.

Lemma Pushes_need_a_lane_witness :
  is_Some (Pushes [(1, 7); (0, 8)] (@Reset Z 1))
  /\ Pushes [(1, 7); (2, 8)] (@Reset Z 1) = None
  /\ Pushes [(-1, 7)] (@Reset Z 1) = None.
Proof.
  split; [|split; reflexivity].
  apply (Pushes_need_a_lane 1 [(1, 7); (0, 8)]).
  - lia.
  - repeat constructor; cbn; lia.
  - repeat constructor; cbn; lia.
Defined.

Lemma Advance_hands_out_every_lane_witness :
  map fst (drain 4 (Mk [[10]; []; [30; 31]] 0) [] 0) = [[10]; []; [30; 31]].
Proof.
  apply (Advance_hands_out_every_lane (Mk [[10]; []; [30; 31]] 0) [] 0).
  - reflexivity.
  - cbn. lia.
Defined.

Lemma Advance_uses_up_the_lanes_witness :
  Size (after_Advances 3 (Mk [[10]; []; [30; 31]] 0)) = 0.
Proof.
  apply (Advance_uses_up_the_lanes (Mk [[10]; []; [30; 31]] 0)).
  - reflexivity.
  - cbn. lia.
Defined.

Lemma Join_collects_pushes_witness :
  exists a : t Z,
    Pushes [(1, 7); (0, 8); (1, 9)] (Reset 1) = Some a
    /\ Join a [] = [8; 7; 9].
Proof.
  destruct (Join_collects_pushes 1 [(1, 7); (0, 8); (1, 9)])
    as (a & E & _ & J & _).
  - lia.
  - repeat constructor; cbn; lia.
  - exists a. split; [exact E|]. rewrite J. reflexivity.
Defined.

End AccumulatorLaneFacts.

Module LaneSizeFacts.
Import SequenceGenerator.
Import ListFacts SequenceGeneratorFacts.






End LaneSizeFacts.

Module ChainLifetimeFacts.
Import ParallelTaskChain.
Import ListFacts ParallelTaskChainFacts.

Section Chain.
Context {IntermediaryT : Type}.
Variable Done : nat -> IntermediaryT -> IntermediaryT.

Local Abbreviation Heap := (list (Node IntermediaryT)).

Lemma pipeline_lookup (n k i : nat) (payload : IntermediaryT) :
  (i <= n)%nat -> pipeline n k payload !! i = Some (stage n k payload i).
Proof.
  intros Hi. unfold pipeline. rewrite lookup_map_seq.
  replace (Nat.ltb i (S n)) with true by (symmetry; apply Nat.ltb_lt; lia).
  reflexivity.
Qed.

(** *** Retiring the stages *)

Lemma Done_pipeline (n k : nat) (payload : IntermediaryT) :
  (k <= n)%nat ->
  <[k := MkNode (NextTask (stage n k payload k)) (Some (Done k payload))]>
    (pipeline n k payload)
  = pipeline n k (Done k payload).
Proof.
  intros Hk. unfold pipeline. rewrite insert_map_seq.
  apply map_seq_ext. intros i Hi. unfold stage. cbn [NextTask].
  destruct (Nat.eqb_spec i k) as [->|Hne]; reflexivity.
Qed.

Lemma Exhausted_pipeline (n k : nat) (payload : IntermediaryT) :
  (k <= n)%nat ->
  Exhausted Done k (pipeline n k payload)
  = Some (pipeline n (Nat.min (S k) n) (Done k payload),
          if Nat.ltb k n then Some (S k) else None).
Proof.
  intros Hk. unfold Exhausted. rewrite pipeline_lookup by exact Hk.
  assert (E : IntermediaryData (stage n k payload k) = Some payload).
  { unfold stage. cbn [IntermediaryData]. now rewrite Nat.eqb_refl. }
  rewrite E, Done_pipeline by exact Hk.
  destruct (Nat.ltb_spec k n) as [Hlt|Hge].
  - rewrite BatonPass_pipeline by exact Hlt. now rewrite Nat.min_l by lia.
  - assert (k = n) by lia. subst k. rewrite BatonPass_last.
    now rewrite Nat.min_r by lia.
Qed.

Lemma done_by_S (count : nat) (payload : IntermediaryT) :
  done_by Done (S count) payload = Done count (done_by Done count payload).
Proof.
  unfold done_by. rewrite seq_S, fold_left_app. reflexivity.
Qed.

Lemma retire_idle (j : nat) (heap : Heap) :
  retire Done j (heap, None) = Some (heap, None).
Proof. destruct j; reflexivity. Qed.

Lemma retire_pipeline (n j k : nat) (payload : IntermediaryT) :
  (k <= n)%nat ->
  retire Done j (pipeline n k (done_by Done k payload), Some k)
  = Some (pipeline n (Nat.min (k + j) n)
            (done_by Done (Nat.min (k + j) (S n)) payload),
          if Nat.leb (k + j) n then Some (k + j)%nat else None).
Proof.
  revert k. induction j as [|j IH]; intros k Hk.
  - cbn [retire]. rewrite Nat.add_0_r, !Nat.min_l by lia.
    replace (Nat.leb k n) with true by (symmetry; apply Nat.leb_le; lia).
    reflexivity.
  - cbn [retire snd fst]. rewrite Exhausted_pipeline by exact Hk.
    rewrite <- done_by_S.
    destruct (Nat.ltb_spec k n) as [Hlt|Hge].
    + rewrite Nat.min_l by lia. rewrite IH by lia.
      replace (S k + j)%nat with (k + S j)%nat by lia. reflexivity.
    + assert (k = n) by lia. subst k. rewrite retire_idle.
      rewrite !Nat.min_r by lia.
      replace (Nat.leb (n + S j) n) with false
        by (symmetry; apply Nat.leb_gt; lia).
      reflexivity.
Qed.

(** X6.  Retiring the stages of a built chain one after the other runs each
    stage's [Done] once, in link order, on the one payload: after [j]
    retirements the payload has been through [Done] of stages 0 to
    [j - 1] and sits in stage [j]; the last stage keeps it. *)
Theorem Done_runs_in_link_order (n j : nat) (payload : IntermediaryT) :
  built n payload ≫= retire Done j
  = Some (pipeline n (Nat.min j n) (done_by Done (Nat.min j (S n)) payload),
          if Nat.leb j n then Some j else None).
Proof.
  rewrite built_pipeline. cbn [mbind option_bind].
  apply (retire_pipeline n j 0 payload). lia.
Qed.

(** *** Destruction *)

Lemma delete_task_linked (n k d i fuel : nat) (payload : IntermediaryT) :
  (i + d = n)%nat -> (k <= i)%nat -> (d < fuel)%nat ->
  delete_task fuel i (pipeline n k payload) = Some (rev (seq i (S d))).
Proof.
  revert i fuel. induction d as [|d IH]; intros i fuel Hi Hk Hf;
    (destruct fuel as [|fuel]; [lia|]); cbn [delete_task];
    rewrite pipeline_lookup by lia; unfold stage at 1; cbn [NextTask].
  - replace (Nat.ltb i n) with false by (symmetry; apply Nat.ltb_ge; lia).
    rewrite andb_false_r. reflexivity.
  - replace (Nat.leb k i) with true by (symmetry; apply Nat.leb_le; lia).
    replace (Nat.ltb i n) with true by (symmetry; apply Nat.ltb_lt; lia).
    cbn [andb]. rewrite (IH (S i)) by lia.
    change (seq i (S (S d))) with (i :: seq (S i) (S d)).
    reflexivity.
Qed.

(** X7.  In a chain that has passed the baton [k] times, deleting a stage
    that has passed the baton on destroys that node alone; deleting the
    active stage, or one still waiting behind it, destroys it together
    with every stage linked after it, the last stage first. *)
Theorem delete_takes_the_linked_rest (n k i : nat) (payload : IntermediaryT) :
  (k <= n)%nat -> (i <= n)%nat ->
  exists heap : Heap,
    built n payload ≫= passes k = Some (heap, Some k)
    /\ delete_task (S n) i heap
       = Some (if Nat.ltb i k then [i] else rev (seq i (S n - i))).
Proof.
  intros Hk Hi. exists (pipeline n k payload). split.
  - rewrite built_pipeline. cbn [mbind option_bind].
    rewrite passes_pipeline by lia. cbn [Nat.add].
    rewrite Nat.min_l by lia.
    replace (Nat.leb k n) with true by (symmetry; apply Nat.leb_le; lia).
    reflexivity.
  - destruct (Nat.ltb_spec i k) as [Hlt|Hge].
    + cbn [delete_task]. rewrite pipeline_lookup by lia.
      unfold stage. cbn [NextTask].
      replace (Nat.leb k i) with false by (symmetry; apply Nat.leb_gt; lia).
      reflexivity.
    + replace (S n - i)%nat with (S (n - i)) by lia.
      apply delete_task_linked; lia.
Qed.

End Chain.

Lemma delete_takes_the_linked_rest_witness :
  exists heap : list (Node Z),
    built 2 7 ≫= passes 1 = Some (heap, Some 1%nat)
    /\ delete_task 3 1 heap = Some [2%nat; 1%nat].
Proof.
  apply (delete_takes_the_linked_rest 2 1 1 7); lia.
Defined.

End ChainLifetimeFacts.

Module StageOrderFacts.
Import ParallelDomainTaskChain.
Import ListFacts ParallelDomainTaskChainFacts.

Section Stage.
Context {ElementT : Type}.
Variable of_index : Z -> ElementT.

Local Abbreviation Domain := (@Domain ElementT).
Local Abbreviation Stage := (@Stage ElementT).
Local Abbreviation Worker := (@Worker ElementT).
Local Abbreviation Machine := (@Machine ElementT).
Local Abbreviation Locals := (@Locals ElementT).
Local Abbreviation claim' := (claim of_index).
Local Abbreviation remaining' := (remaining of_index).
Local Abbreviation expected' := (expected_calls of_index).
Local Abbreviation exec' := (exec of_index).
Local Abbreviation run' := (run of_index).

(** *** [Setup] comes first *)

Lemma claim_SetupPending (st : Stage) (l : Locals) :
  SetupPending (fst (fst (claim' st l))) = SetupPending st.
Proof.
  unfold claim. destruct (TheDomain st) as [d|d|g|a|leaves].
  - destruct (int_to_size_t (NextIndex st) <? Z.of_nat (length d));
      [destruct (d !! Z.to_nat (NextIndex st))|]; reflexivity.
  - destruct (NextIter st) as [[|e rest]|]; reflexivity.
  - destruct (SequenceGenerator.Advance g) as [g' [[ok s] e]].
    destruct ok; reflexivity.
  - destruct (ParallelAccumulator.call_Advance a (fst l) (snd l))
      as [[[a' ok] B] S].
    destruct ok; reflexivity.
  - destruct (NextLeaf st); reflexivity.
Qed.

Lemma exec_setup_first (m : Machine) (i : nat) :
  setup_first m -> setup_first (exec' m i).
Proof.
  intros H. unfold exec.
  destruct (workers m !! i) as [w|] eqn:Ew; [|exact H].
  destruct H as [(Hsp & Hc & Hw)|(Hsp & loops & Hc)].
  - (* the first invocation to reach the setup block *)
    rewrite Forall_lookup in Hw. specialize (Hw i w Ew).
    destruct w as [l| | |]; try contradiction.
    cbn [worker_step]. unfold setup_block. rewrite Hsp.
    right. cbn [stage calls]. rewrite Hc. split.
    + destruct (TheDomain (stage m)); reflexivity.
    + exists []. reflexivity.
  - right. destruct w as [l|l|b l|]; cbn [worker_step].
    + unfold setup_block. rewrite Hsp. cbn [stage calls].
      split; [exact Hsp|]. exists loops. now rewrite app_nil_r.
    + pose proof (claim_SetupPending (stage m) l) as Hk.
      destruct (claim' (stage m) l) as [[st' l'] [batch|]];
        cbn [fst] in Hk; cbn [stage calls];
        (split; [congruence|]); exists loops; now rewrite app_nil_r.
    + destruct b as [|[e idx] rest]; cbn [stage calls].
      * split; [exact Hsp|]. exists loops. now rewrite app_nil_r.
      * split; [exact Hsp|]. exists (loops ++ [(e, idx)]).
        rewrite Hc, map_app. reflexivity.
    + cbn [stage calls]. split; [exact Hsp|]. exists loops.
      now rewrite app_nil_r.
Qed.

Lemma run_setup_first (schedule : list nat) (m : Machine) :
  setup_first m -> setup_first (run' schedule m).
Proof.
  revert m. induction schedule as [|i schedule IH]; intros m H; [exact H|].
  cbn [run fold_left]. apply IH, exec_setup_first, H.
Qed.

(** X8.  However the invocations of [Run()] interleave, and at every moment
    of the run, the calls the stage has made are [Setup] once, first,
    and [Loop] calls after it: no element is processed before [Setup]
    has returned, and [Setup] is never repeated. *)
Theorem Setup_precedes_every_Loop (d : Domain) (W : nat) (schedule : list nat) :
  (calls (run' schedule (start d W)) = []
   /\ SetupPending (stage (run' schedule (start d W))) = true)
  \/ (SetupPending (stage (run' schedule (start d W))) = false
      /\ exists loops : list (ElementT * Z),
           calls (run' schedule (start d W))
           = Setup :: map (fun c => Loop (fst c) (snd c)) loops).
Proof.
  assert (H0 : setup_first (start d W)).
  { left. cbn. split; [reflexivity|]. split; [reflexivity|].
    apply Forall_forall. intros w Hw. apply list_elem_of_In in Hw.
    apply repeat_spec in Hw. now subst w. }
  destruct (run_setup_first schedule _ H0) as [(Hsp & Hc & _)|H].
  - left. auto.
  - right. exact H.
Qed.

(** *** One invocation keeps the order of the domain *)




End Stage.


End StageOrderFacts.

Module StageDomainFacts.
Import ParallelDomainTaskChain.
Import ListFacts ParallelDomainTaskChainFacts.

Section Stage.
Context {ElementT : Type}.
Variable of_index : Z -> ElementT.

Local Abbreviation Domain := (@Domain ElementT).
Local Abbreviation expected' := (expected_calls of_index).
Local Abbreviation run' := (run of_index).

(** *** A stage over a [SequenceGenerator] *)

Lemma Reset_tiles (max_size Count Partitions : Z) :
  0 <= Count -> 1 <= Partitions <= max_size ->
  Count + Partitions - 1 < 2 ^ 64 ->
  exists g : SequenceGenerator.t,
    SequenceGenerator.Reset max_size Count Partitions = Some g
    /\ SequenceGenerator.Progress g = 0
    /\ SequenceGenerator.tiles 0 Count (SequenceGenerator.Lanes g)
    /\ Z.of_nat (length (SequenceGenerator.Lanes g)) <= Partitions.
Proof.
  intros HC HP Hb.
  eexists. split; [apply SequenceGeneratorFacts.Reset_Some; exact HP|].
  cbn [SequenceGenerator.Lanes SequenceGenerator.Progress].
  split; [reflexivity|].
  rewrite SequenceGeneratorFacts.Reset_SliceCount by lia.
  set (SliceCount := (Count + Partitions - 1) / Partitions).
  assert (Hdiv : Partitions * SliceCount <= Count + Partitions - 1)
    by (apply Z.mul_div_le; lia).
  assert (Hmod : 0 <= (Count + Partitions - 1) mod Partitions < Partitions)
    by (apply Z.mod_pos_bound; lia).
  assert (Heq : Count + Partitions - 1
                = Partitions * SliceCount
                  + (Count + Partitions - 1) mod Partitions)
    by (apply Z.div_mod; lia).
  assert (HSC : 0 <= SliceCount) by (apply Z.div_pos; lia).
  destruct (SequenceGeneratorFacts.ResetLoop_tiles (Z.to_nat Partitions)
              SliceCount Count 0) as [Ht Hl];
    [lia | exact HSC | rewrite Z2Nat.id by lia; lia
    | rewrite Z2Nat.id by lia; lia |].
  split; [exact Ht | lia].
Qed.

Lemma map_seq_from {A} (f : nat -> A) (n len : nat) :
  map f (seq n len) = map (fun k => f (n + k)%nat) (seq 0 len).
Proof.
  revert n. induction len as [|len IH]; intros n; [reflexivity|].
  cbn [seq map]. rewrite Nat.add_0_r. f_equal.
  rewrite IH, <- seq_shift, map_map.
  apply map_ext. intros k. f_equal. lia.
Qed.

Lemma indices_app (a b c : Z) :
  a <= b <= c -> indices a b ++ indices b c = indices a c.
Proof.
  intros H. unfold indices.
  replace (Z.to_nat (c - a)) with (Z.to_nat (b - a) + Z.to_nat (c - b))%nat
    by lia.
  rewrite seq_app, map_app. f_equal. cbn [Nat.add].
  rewrite (map_seq_from _ (Z.to_nat (b - a))). apply map_ext. intros k. lia.
Qed.

Lemma tiles_indices (from to : Z) (lanes : list SequenceGenerator.Slice) :
  SequenceGenerator.tiles from to lanes ->
  concat (map (fun s => indices (SequenceGenerator.Start s)
                                (SequenceGenerator.StopBefore s)) lanes)
  = indices from to.
Proof.
  revert from. induction lanes as [|s rest IH]; intros from;
    cbn [SequenceGenerator.tiles map concat].
  - intros <-. unfold indices. now rewrite Z.sub_diag.
  - intros (Hs & Hlt & Ht). rewrite (IH _ Ht), Hs.
    apply indices_app.
    pose proof (SequenceGeneratorFacts.tiles_ordered _ _ _ Ht). lia.
Qed.

(** X23.  A [SequenceGenerator] reset over [Count] indices, below 2^31, with
    [Partitions] within the [max_size()] of its lane vector serves as
    the domain of a stage: once its invocations of [Run()] have
    returned, the stage has called [Loop] exactly once for every index
    from 0 to [Count - 1], with the element made from the index and the
    index itself, however many invocations shared the work and however
    they interleaved. *)
Theorem generator_stage_covers_range
    (max_size Count Partitions : Z) (W : nat) (schedule : list nat) :
  0 <= Count < 2 ^ 31 -> 1 <= Partitions < 2 ^ 32 ->
  Partitions <= max_size ->
  (1 <= W)%nat -> Z.of_nat W < 2 ^ 32 ->
  exists g : SequenceGenerator.t,
    SequenceGenerator.Reset max_size Count Partitions = Some g
    /\ (all_returned (run' schedule (start (Generator g) W)) = true ->
        Permutation
          (loop_calls (calls (run' schedule (start (Generator g) W))))
          (map (fun i : nat => (of_index (Z.of_nat i), Z.of_nat i))
               (seq 0 (Z.to_nat Count)))).
Proof.
  intros HC HP Hmax HW HWb.
  destruct (Reset_tiles max_size Count Partitions
              ltac:(lia) ltac:(lia) ltac:(lia))
    as (g & Hg & Hp & Ht & Hl).
  exists g. split; [exact Hg|]. intros Hall.
  assert (Hfit : fits (ElementT := ElementT) (Generator g) W).
  { cbn [fits]. rewrite Hp. lia. }
  destruct (finished_covers of_index _ W schedule HW Hfit Hall) as [Hperm _].
  etransitivity; [exact Hperm|].
  cbn [expected_calls]. rewrite Hp.
  change (Z.to_nat 0) with 0%nat. rewrite drop_0.
  unfold lane_calls.
  rewrite <- (map_map (fun s => indices (SequenceGenerator.Start s)
                                        (SequenceGenerator.StopBefore s))
                      (map (fun Index => (of_index Index, size_t_to_int Index)))).
  rewrite <- concat_map, (tiles_indices _ _ _ Ht). unfold indices.
  rewrite Z.sub_0_r, map_map.
  apply Permutation_refl'. apply map_ext_in. intros i Hi.
  apply in_seq in Hi. cbn [Z.add]. f_equal.
  unfold size_t_to_int. apply wrap_int_small. lia.
Qed.

(** *** A stage over a [ParallelAccumulator] *)

Lemma batch_calls_elements (Batch : list ElementT) (BatchStart : Z) :
  map fst (batch_calls Batch BatchStart) = Batch.
Proof.
  unfold batch_calls. apply list_eq. intros i.
  change (map fst ?l) with (fst <$> l).
  rewrite list_lookup_fmap, list_lookup_imap.
  now destruct (Batch !! i).
Qed.

(** X24.  What one stage pushes into a [ParallelAccumulator] the next stage
    processes: after [Reset()] and any pushes from threads of the pool,
    a stage with the accumulator for domain calls [Loop] on the pushed
    values, each of them once, however many invocations of [Run()]
    share the work and however they interleave. *)
Theorem accumulator_stage_processes_pushes
    (ThreadPoolSize : Z) (trace : list (Z * ElementT))
    (a : ParallelAccumulator.t ElementT) (W : nat) (schedule : list nat) :
  0 <= ThreadPoolSize < 2 ^ 31 - 1 ->
  Forall (fun e => 0 <= fst e <= ThreadPoolSize) trace ->
  ParallelAccumulator.Pushes trace (ParallelAccumulator.Reset ThreadPoolSize)
  = Some a ->
  (1 <= W)%nat -> Z.of_nat W < 2 ^ 32 ->
  all_returned (run' schedule (start (Accumulator a) W)) = true ->
  Permutation
    (map fst (loop_calls (calls (run' schedule (start (Accumulator a) W)))))
    (map snd trace).
Proof.
  intros Hp HF Ea HW HWb Hall.
  pose proof (AccumulatorLaneFacts.Reset_lanes (ValueT := ElementT)
                ThreadPoolSize Hp) as HR.
  destruct (AccumulatorLaneFacts.Pushes_lookup trace
              (ParallelAccumulator.Reset ThreadPoolSize))
    as (a' & E & Hprog & Hlen & K).
  { rewrite HR, repeat_length. eapply Forall_impl; [exact HF|].
    cbn beta. intros e He. lia. }
  { rewrite HR, repeat_length. lia. }
  rewrite Ea in E. injection E as <-.
  change (ParallelAccumulator.Progress (ParallelAccumulator.Reset ThreadPoolSize))
    with 0 in Hprog.
  rewrite HR, repeat_length in Hlen.
  assert (HL : ParallelAccumulator.Lanes a
               = map (fun j => ParallelAccumulator.pushed_by trace (Z.of_nat j))
                     (seq 0 (Z.to_nat (ThreadPoolSize + 1)))).
  { apply list_eq. intros j. rewrite K, HR, lookup_map_seq.
    destruct (Nat.ltb j (Z.to_nat (ThreadPoolSize + 1))) eqn:Ej.
    - apply Nat.ltb_lt in Ej. now rewrite lookup_repeat_lt by exact Ej.
    - apply Nat.ltb_ge in Ej.
      replace (repeat [] (Z.to_nat (ThreadPoolSize + 1)) !! j)
        with (@None (list ElementT)); [reflexivity|].
      symmetry. apply lookup_ge_None. now rewrite repeat_length. }
  assert (Hfit : fits (Accumulator a) W).
  { cbn [fits]. rewrite Hprog, Hlen. lia. }
  destruct (finished_covers of_index _ W schedule HW Hfit Hall) as [Hperm _].
  rewrite Hperm. cbn [expected_calls]. rewrite Hprog.
  change (Z.to_nat 0) with 0%nat. rewrite drop_0.
  rewrite concat_map, map_map.
  rewrite (map_ext _ id) by (intros B; apply batch_calls_elements).
  rewrite map_id, HL.
  apply AccumulatorLaneFacts.pushed_by_all.
  eapply Forall_impl; [exact HF|]. cbn beta. intros e He. lia.
Qed.

End Stage.

Lemma generator_stage_covers_range_witness :
  exists g : SequenceGenerator.t,
    SequenceGenerator.Reset (2 ^ 59 - 1) 5 2 = Some g
    /\ all_returned (run id (concat (repeat [0; 1]%nat 12))
                       (start (Generator g) 2)) = true
    /\ Permutation
         (loop_calls
            (calls (run id (concat (repeat [0; 1]%nat 12))
                      (start (Generator g) 2))))
         [(0, 0); (1, 1); (2, 2); (3, 3); (4, 4)].
Proof.
  destruct (generator_stage_covers_range id (2 ^ 59 - 1) 5 2 2
              (concat (repeat [0; 1]%nat 12))
              ltac:(lia) ltac:(lia) ltac:(lia) ltac:(lia) ltac:(lia))
    as (g & Hg & Hperm).
  exists g. split; [exact Hg|].
  assert (Hall : all_returned (run id (concat (repeat [0; 1]%nat 12))
                                 (start (Generator g) 2)) = true)
    by (injection Hg as <-; reflexivity).
  split; [exact Hall | exact (Hperm Hall)].
Defined.

Lemma accumulator_stage_processes_pushes_witness :
  Permutation
    (map fst
       (loop_calls
          (calls (run id (repeat 0%nat 20)
                    (start (Accumulator (ParallelAccumulator.Mk [[8]; [7; 9]] 0))
                           1)))))
    [7; 8; 9].
Proof.
  apply (accumulator_stage_processes_pushes id 1 [(1, 7); (0, 8); (1, 9)]
           (ParallelAccumulator.Mk [[8]; [7; 9]] 0) 1 (repeat 0%nat 20)).
  - lia.
  - repeat constructor; cbn; lia.
  - reflexivity.
  - lia.
  - lia.
  - reflexivity.
Defined.

End StageDomainFacts.

Module MeshReadyFacts.
Import SDFModel MeshReady.
Import ListFacts.

Section MeshReady.
Context {vec3 vec4 Transform SDFNode : Type}.

Local Abbreviation Model := (SDFModel.t vec3 vec4 Transform SDFNode).
Local Abbreviation Group := (InstanceColoringGroup.t vec4).
Local Abbreviation windows := (@windows vec4).
Local Abbreviation paints := (@paints vec4).

(** *** The windows of one vertex group *)

Lemma window_count_small (R : Z) : 0 < R <= 512 -> (R + 511) / 512 = 1.
Proof. intros H. symmetry. apply Z.div_unique with (r := R - 1); lia. Qed.

Lemma window_count_step (R : Z) :
  512 < R -> (R + 511) / 512 = (R - 512 + 511) / 512 + 1.
Proof.
  intros H. replace (R + 511) with (R - 512 + 511 + 1 * 512) by lia.
  apply Z.div_add. lia.
Qed.

Lemma window_count_nonneg (R : Z) : 0 <= R -> 0 <= (R + 511) / 512.
Proof. intros H. apply Z.div_pos; lia. Qed.

(** A window index below the count starts inside the vertex group. *)
Lemma window_start_inside (n : Z) (j : nat) :
  0 <= n -> (j < Z.to_nat ((n + 511) / 512))%nat -> 512 * Z.of_nat j < n.
Proof.
  intros Hn Hj. pose proof (window_count_nonneg n Hn) as Hq.
  assert (Hj' : Z.of_nat j < (n + 511) / 512) by lia.
  pose proof (Z.mul_div_le (n + 511) 512 ltac:(lia)) as Hle.
  nia.
Qed.

Lemma window_of_position (n i : Z) :
  0 <= i < n -> (Z.to_nat (i / 512) < Z.to_nat ((n + 511) / 512))%nat.
Proof.
  intros Hi.
  assert (H0 : 0 <= i / 512) by (apply Z.div_pos; lia).
  assert (H1 : i / 512 < (n + 511) / 512).
  { apply Z.div_lt_upper_bound; [lia|].
    pose proof (Z.mod_pos_bound (n + 511) 512 ltac:(lia)) as Hm.
    pose proof (Z.div_mod (n + 511) 512 ltac:(lia)) as Hd. lia. }
  lia.
Qed.

Lemma SplitRange_windows (fuel slot : nat) (Offset RemainingRange : Z)
    (groups : list Group) :
  0 <= Offset -> 0 <= RemainingRange -> Offset + RemainingRange < 2 ^ 64 ->
  (Z.to_nat RemainingRange <= fuel)%nat ->
  SplitRange fuel slot Offset RemainingRange groups
  = groups
    ++ map (fun j : nat =>
              InstanceColoringGroup.Mk slot (Offset + 512 * Z.of_nat j)
                (Z.min 512 (RemainingRange - 512 * Z.of_nat j)) [] 0)
           (seq 0 (Z.to_nat ((RemainingRange + 511) / 512))).
Proof.
  revert Offset RemainingRange groups.
  induction fuel as [|fuel IH]; intros O R groups HO HR Hb Hf.
  - assert (R = 0) by lia. subst R. cbn. now rewrite app_nil_r.
  - cbn [SplitRange]. destruct (Z.ltb_spec 0 R) as [Hpos|Hz].
    + destruct (Z.le_gt_cases R 512) as [Hs|Hl].
      * rewrite Z.min_l by lia.
        rewrite (wrap64_small (O + R)) by lia.
        replace (R - R) with 0 by lia. rewrite (wrap64_small 0) by lia.
        rewrite IH by lia.
        change ((0 + 511) / 512) with 0.
        rewrite (window_count_small R) by lia.
        change (Z.to_nat 1) with 1%nat. change (Z.to_nat 0) with 0%nat.
        cbn [seq map]. rewrite app_nil_r.
        replace (O + 512 * Z.of_nat 0) with O by lia.
        replace (Z.min 512 (R - 512 * Z.of_nat 0)) with R by lia.
        reflexivity.
      * rewrite Z.min_r by lia.
        rewrite (wrap64_small (O + 512)), (wrap64_small (R - 512)) by lia.
        rewrite IH by lia.
        rewrite (window_count_step R Hl).
        pose proof (window_count_nonneg (R - 512) ltac:(lia)) as Hq.
        rewrite Z2Nat.inj_add by lia.
        change (Z.to_nat 1) with 1%nat. rewrite Nat.add_1_r.
        cbn [seq map]. rewrite <- seq_shift, map_map, <- app_assoc.
        cbn [app]. f_equal. f_equal; [do 2 f_equal; lia|].
        apply map_ext. intros j. f_equal; lia.
    + assert (R = 0) by lia. subst R. cbn. now rewrite app_nil_r.
Qed.

Lemma SplitSlots_windows (slots : list MaterialVertexGroup.t) (slot : nat)
    (groups : list Group) :
  Forall (fun VG => Z.of_nat (length (MaterialVertexGroup.Vertices VG)) < 2 ^ 64)
         slots ->
  SplitSlots slot slots groups
  = groups
    ++ concat (imap (fun k VG =>
                       windows (slot + k)
                         (Z.of_nat (length (MaterialVertexGroup.Vertices VG))))
                    slots).
Proof.
  revert slot groups. induction slots as [|VG rest IH]; intros slot groups HF.
  - cbn. now rewrite app_nil_r.
  - apply Forall_cons in HF. destruct HF as [Hv HF].
    cbn [SplitSlots]. rewrite IH by exact HF.
    rewrite SplitRange_windows by lia.
    rewrite imap_cons. cbn [concat]. rewrite <- app_assoc.
    f_equal. f_equal.
    + unfold windows. rewrite Nat.add_0_r. reflexivity.
    + f_equal. apply imap_ext. intros k x _. simpl. f_equal. lia.
Qed.

(** Every window lies inside its vertex group and is 1 to 512 long. *)
Lemma windows_inside (slot : nat) (n : Z) (g : Group) :
  0 <= n -> g ∈ windows slot n ->
  InstanceColoringGroup.VertexGroup g = slot
  /\ 0 <= InstanceColoringGroup.IndexStart g
  /\ 1 <= InstanceColoringGroup.IndexRange g <= 512
  /\ InstanceColoringGroup.IndexStart g + InstanceColoringGroup.IndexRange g <= n
  /\ InstanceColoringGroup.Colors g = []
  /\ InstanceColoringGroup.LastRepaint g = 0.
Proof.
  intros Hn Hg. unfold windows in Hg. apply elem_of_map in Hg.
  destruct Hg as (j & -> & Hj). apply list_elem_of_In, in_seq in Hj.
  pose proof (window_start_inside n j Hn ltac:(lia)) as Hs.
  cbn. repeat split; lia.
Qed.

Lemma paints_windows_other (slot slot' : nat) (i n : Z) :
  slot' <> slot -> List.filter (paints slot i) (windows slot' n) = [].
Proof.
  intros Hne. unfold windows. rewrite filter_map_swap.
  rewrite (filter_ext_elem _ (fun _ => false)).
  - induction (seq 0 (Z.to_nat ((n + 511) / 512))) as [|x l IHl];
      [reflexivity | exact IHl].
  - intros j _. unfold paints. cbn.
    replace (Nat.eqb slot' slot) with false
      by (symmetry; now apply Nat.eqb_neq).
    reflexivity.
Qed.

Lemma paints_windows_same (slot : nat) (i n : Z) :
  0 <= i < n -> length (List.filter (paints slot i) (windows slot n)) = 1%nat.
Proof.
  intros Hi. unfold windows. rewrite filter_map_swap, length_map.
  rewrite (filter_ext_elem _ (fun j => Nat.eqb j (Z.to_nat (i / 512)))).
  - rewrite filter_eqb_seq.
    pose proof (window_of_position n i Hi) as Hw.
    replace (Nat.leb 0 (Z.to_nat (i / 512))) with true
      by (symmetry; apply Nat.leb_le; lia).
    replace (Nat.ltb (Z.to_nat (i / 512)) (0 + Z.to_nat ((n + 511) / 512)))
      with true by (symmetry; apply Nat.ltb_lt; lia).
    reflexivity.
  - intros j Hj. apply list_elem_of_In, in_seq in Hj.
    pose proof (window_start_inside n j ltac:(lia) ltac:(lia)) as Hs.
    unfold paints. cbn. rewrite Nat.eqb_refl. cbn [andb].
    assert (H0 : 0 <= i / 512) by (apply Z.div_pos; lia).
    pose proof (Z.div_mod i 512 ltac:(lia)) as Hd.
    pose proof (Z.mod_pos_bound i 512 ltac:(lia)) as Hm.
    destruct (Nat.eqb_spec j (Z.to_nat (i / 512))) as [->|Hne].
    + rewrite Z2Nat.id by lia.
      apply andb_true_iff. split; [apply Z.leb_le | apply Z.ltb_lt]; lia.
    + apply andb_false_iff.
      destruct (Z.lt_ge_cases (Z.of_nat j) (i / 512)) as [Hlt|Hge].
      * right. apply Z.ltb_ge. lia.
      * left. apply Z.leb_gt. assert (i / 512 < Z.of_nat j) by lia. nia.
Qed.

Lemma paints_slots (slots : list MaterialVertexGroup.t) (s0 slot : nat) (i : Z) :
  length
    (List.filter (paints slot i)
       (concat (imap (fun k VG =>
                        windows (s0 + k)
                          (Z.of_nat (length (MaterialVertexGroup.Vertices VG))))
                     slots)))
  = match (if Nat.leb s0 slot then slots !! (slot - s0)%nat else None) with
    | Some VG =>
        if (0 <=? i) && (i <? Z.of_nat (length (MaterialVertexGroup.Vertices VG)))
        then 1%nat else 0%nat
    | None => 0%nat
    end.
Proof.
  revert s0. induction slots as [|VG rest IH]; intros s0.
  - cbn. destruct (Nat.leb s0 slot); reflexivity.
  - rewrite imap_cons. cbn [concat]. rewrite List.filter_app, length_app.
    rewrite (imap_ext _ (fun k VG =>
               windows (S s0 + k)
                 (Z.of_nat (length (MaterialVertexGroup.Vertices VG))))).
    2:{ intros k x _. simpl. f_equal. lia. }
    rewrite IH. rewrite Nat.add_0_r.
    destruct (Nat.eqb_spec s0 slot) as [->|Hne].
    + replace (Nat.leb (S slot) slot) with false
        by (symmetry; apply Nat.leb_gt; lia).
      rewrite Nat.leb_refl, Nat.sub_diag. cbn [lookup list_lookup].
      rewrite Nat.add_0_r.
      destruct ((0 <=? i)
                && (i <? Z.of_nat (length (MaterialVertexGroup.Vertices VG))))
        eqn:E.
      * apply andb_true_iff in E. destruct E as [E1 E2].
        apply Z.leb_le in E1. apply Z.ltb_lt in E2.
        now rewrite paints_windows_same by lia.
      * idtac.
        rewrite (filter_ext_elem _ (fun _ => false)).
        { induction (windows slot _) as [|x l IHl]; [reflexivity | exact IHl]. }
        intros g Hg. apply windows_inside in Hg; [|lia].
        destruct Hg as (Hv & Hs & Hr & Hin & _).
        unfold MeshReady.paints. rewrite Hv, Nat.eqb_refl. cbn [andb].
        apply andb_false_iff.
        apply andb_false_iff in E. destruct E as [E|E].
        -- apply Z.leb_gt in E. left. apply Z.leb_gt. lia.
        -- apply Z.ltb_ge in E. right. apply Z.ltb_ge. lia.
    + rewrite paints_windows_other by exact Hne. cbn [length Nat.add].
      destruct (Nat.leb_spec (S s0) slot) as [H1|H1];
        destruct (Nat.leb_spec s0 slot) as [H2|H2]; try lia; try reflexivity.
      replace (slot - s0)%nat with (S (slot - S s0)) by lia. reflexivity.
Qed.

(** X10.  [MeshReadyInner] gives a model without coloring groups the colors of
    the Painter and, for every vertex group, windows of 512 vertex
    positions from 0 on (the last one shorter when need be), in slot
    order.  Each window is 1 to 512 long and lies inside its vertex
    group, and every vertex position of every group is painted by
    exactly one window. *)
Theorem MeshReadyInner_windows
    (MaterialSlots : list MaterialVertexGroup.t) (PainterColors : list vec4)
    (m : Model) :
  ColoringGroups m = [] ->
  Forall (fun VG => Z.of_nat (length (MaterialVertexGroup.Vertices VG)) < 2 ^ 64)
         MaterialSlots ->
  exists m' : Model,
    MeshReadyInner MaterialSlots PainterColors m = Some m'
    /\ Colors m' = PainterColors
    /\ ColoringGroups m'
       = concat (imap (fun slot VG =>
                         windows slot
                           (Z.of_nat (length (MaterialVertexGroup.Vertices VG))))
                      MaterialSlots)
    /\ Forall (fun g =>
                 exists VG,
                   MaterialSlots !! InstanceColoringGroup.VertexGroup g = Some VG
                   /\ 0 <= InstanceColoringGroup.IndexStart g
                   /\ 1 <= InstanceColoringGroup.IndexRange g <= 512
                   /\ InstanceColoringGroup.IndexStart g
                      + InstanceColoringGroup.IndexRange g
                      <= Z.of_nat (length (MaterialVertexGroup.Vertices VG)))
              (ColoringGroups m')
    /\ (forall (slot : nat) (VG : MaterialVertexGroup.t) (i : Z),
          MaterialSlots !! slot = Some VG ->
          0 <= i < Z.of_nat (length (MaterialVertexGroup.Vertices VG)) ->
          length (List.filter (paints slot i) (ColoringGroups m')) = 1%nat)
    /\ Evaluator m' = Evaluator m /\ Painter m' = Painter m.
Proof.
  intros Hg HF. unfold MeshReadyInner. rewrite Hg. cbn [length Nat.eqb].
  eexists. split; [reflexivity|]. cbn [Colors ColoringGroups Evaluator Painter].
  rewrite SplitSlots_windows by exact HF. cbn [app Nat.add].
  split; [reflexivity|]. split; [reflexivity|]. split; [|split; [|auto]].
  - apply Forall_concat. apply Forall_lookup. intros k ws Hk.
    rewrite list_lookup_imap in Hk.
    destruct (MaterialSlots !! k) as [VG|] eqn:EVG; [|discriminate].
    cbn in Hk. injection Hk as <-.
    apply Forall_forall. intros g Hgin.
    apply windows_inside in Hgin; [|lia].
    destruct Hgin as (Hv & Hs & Hr & Hin & _).
    exists VG. rewrite Hv. auto.
  - intros slot VG i Hs Hi.
    pose proof (paints_slots MaterialSlots 0 slot i) as Hp.
    cbn [Nat.add Nat.leb] in Hp. rewrite Nat.sub_0_r, Hs in Hp.
    rewrite Hp.
    replace (0 <=? i) with true by (symmetry; apply Z.leb_le; lia).
    replace (i <? Z.of_nat (length (MaterialVertexGroup.Vertices VG)))
      with true by (symmetry; apply Z.ltb_lt; lia).
    reflexivity.
Qed.


(** X11.  The groups [MeshReadyInner] makes keep [UpdateColors] inside its
    vectors.  Let the vertex indices of every slot be valid for the
    Painter's colors, and let each group's pending buffer have been
    filled since with nothing or with at least [IndexRange] colors:
    then [UpdateColors] reads and writes within bounds, keeps the number
    of colors and leaves every pending buffer empty. *)
Theorem UpdateColors_after_MeshReadyInner
    (MaterialSlots : list MaterialVertexGroup.t) (PainterColors : list vec4)
    (m m' : Model) (groups : list Group) (NewCameraOrigin : vec3) :
  Forall (fun VG =>
            Z.of_nat (length (MaterialVertexGroup.Vertices VG)) < 2 ^ 64
            /\ Forall (fun v => 0 <= v < Z.of_nat (length PainterColors))
                      (MaterialVertexGroup.Vertices VG))
         MaterialSlots ->
  MeshReadyInner MaterialSlots PainterColors m = Some m' ->
  Forall2 (fun made filled =>
             InstanceColoringGroup.VertexGroup filled
             = InstanceColoringGroup.VertexGroup made
             /\ InstanceColoringGroup.IndexStart filled
                = InstanceColoringGroup.IndexStart made
             /\ InstanceColoringGroup.IndexRange filled
                = InstanceColoringGroup.IndexRange made
             /\ (InstanceColoringGroup.Colors filled = []
                 \/ InstanceColoringGroup.IndexRange made
                    <= Z.of_nat (length (InstanceColoringGroup.Colors filled))))
          (ColoringGroups m') groups ->
  exists m'' : Model,
    UpdateColors MaterialSlots
      (Mk (Evaluator m') (Painter m') (LocalToWorld m') (AtomicCameraOrigin m')
          (Colors m') groups)
      NewCameraOrigin
    = Some m''
    /\ length (Colors m'') = length PainterColors
    /\ Forall (fun g => InstanceColoringGroup.Colors g = []) (ColoringGroups m'').
Proof.
  intros Hslots Hready Hfill.
  assert (Hempty : ColoringGroups m = []).
  { unfold MeshReadyInner in Hready.
    destruct (ColoringGroups m); [reflexivity | discriminate]. }
  destruct (MeshReadyInner_windows MaterialSlots PainterColors m Hempty)
    as (m1 & E1 & Hc & _ & Hin & _).
  { eapply Forall_impl; [exact Hslots|]. now intros VG [H _]. }
  rewrite Hready in E1. injection E1 as <-.
  assert (Hok : Forall (group_ok MaterialSlots (length PainterColors)) groups).
  { apply Forall_lookup. intros k filled Hk.
    destruct (Forall2_lookup_r _ _ _ _ _ Hfill Hk)
      as (made & Hmade & Hv & Hs & Hr & Hcol).
    rewrite Forall_lookup in Hin.
    destruct (Hin k made Hmade) as (VG & HVG & H0 & H1 & H2).
    destruct Hcol as [Hnil|Hlen]; [left; exact Hnil|].
    right. exists VG. rewrite Hv, Hs, Hr.
    rewrite Forall_lookup in Hslots.
    destruct (Hslots _ _ HVG) as [Hb Hvs].
    split; [exact HVG|]. split; [lia|]. split; [lia|]. split; [lia|].
    split; [exact Hb|]. split; [exact Hlen|].
    intros i v _ Hlook. rewrite Forall_lookup in Hvs. exact (Hvs _ _ Hlook). }
  unfold UpdateColors. cbn [ColoringGroups Colors]. rewrite Hc.
  rewrite (UpdateColorsFacts.UpdateGroups_writes MaterialSlots groups
             PainterColors Hok).
  eexists. split; [reflexivity|]. cbn [Colors ColoringGroups].
  split.
  - apply UpdateColorsFacts.apply_writes_length.
  - apply Forall_forall. intros g Hg. apply elem_of_map in Hg.
    destruct Hg as (g0 & -> & _). reflexivity.
Qed.

(** X27.  [MeshReadyInner] is for a model's first mesh only: once it has made
    a coloring group, which it does as soon as some vertex group has a
    vertex, every further call on that model fails the assertion,
    whatever Painter it is given. *)
Theorem MeshReadyInner_only_once
    (MaterialSlots MaterialSlots' : list MaterialVertexGroup.t)
    (PainterColors PainterColors' : list vec4) (m m' : Model) :
  Forall (fun VG => Z.of_nat (length (MaterialVertexGroup.Vertices VG)) < 2 ^ 64)
         MaterialSlots ->
  Exists (fun VG => MaterialVertexGroup.Vertices VG <> []) MaterialSlots ->
  MeshReadyInner MaterialSlots PainterColors m = Some m' ->
  ColoringGroups m' <> []
  /\ MeshReadyInner MaterialSlots' PainterColors' m' = None.
Proof.
  intros HF Hex Hready.
  assert (Hne : ColoringGroups m' <> []).
  { unfold MeshReadyInner in Hready.
    destruct (Nat.eqb_spec (length (ColoringGroups m)) 0) as [Hz|]; [|discriminate].
    injection Hready as <-. cbn [ColoringGroups].
    destruct (ColoringGroups m); [|discriminate].
    rewrite SplitSlots_windows by exact HF. cbn [app Nat.add].
    apply Exists_exists in Hex. destruct Hex as (VG & Hin & Hv).
    apply list_elem_of_lookup in Hin. destruct Hin as [slot Hslot].
    pose proof (paints_slots MaterialSlots 0 slot 0) as Hp.
    cbn [Nat.add Nat.leb] in Hp. rewrite Nat.sub_0_r, Hslot in Hp.
    replace (0 <? Z.of_nat (length (MaterialVertexGroup.Vertices VG)))
      with true in Hp
      by (symmetry; apply Z.ltb_lt;
          destruct (MaterialVertexGroup.Vertices VG);
          [contradiction | cbn [length]; lia]).
    intros Hnil. rewrite Hnil in Hp. discriminate. }
  split; [exact Hne|].
  unfold MeshReadyInner. destruct (ColoringGroups m'); [contradiction|].
  reflexivity.
Qed.

End MeshReady.

Lemma MeshReadyInner_windows_witness :
  exists m' : SDFModel.t unit Z unit unit,
    MeshReadyInner [MaterialVertexGroup.Mk (map Z.of_nat (seq 0 600))]
      (repeat 0 600) (SDFModel.Mk None None tt tt [] [])
    = Some m'
    /\ ColoringGroups m'
       = [InstanceColoringGroup.Mk 0%nat 0 512 [] 0;
          InstanceColoringGroup.Mk 0%nat 512 88 [] 0].
Proof.
  destruct (MeshReadyInner_windows (vec3 := unit) (Transform := unit)
              (SDFNode := unit)
              [MaterialVertexGroup.Mk (map Z.of_nat (seq 0 600))]
              (repeat 0 600) (SDFModel.Mk None None tt tt [] []))
    as (m' & E & _ & Hg & _).
  - reflexivity.
  - repeat constructor.
  - exists m'. split; [exact E|]. rewrite Hg. reflexivity.
Defined.

Lemma MeshReadyInner_only_once_witness :
  MeshReadyInner [MaterialVertexGroup.Mk [0; 1; 2]] [7; 8; 9]
    (SDFModel.Mk (@None unit) None tt tt [7; 8; 9]
       [InstanceColoringGroup.Mk 0%nat 0 3 [] 0])
  = None.
Proof.
  apply (MeshReadyInner_only_once (vec3 := unit) (Transform := unit)
           (SDFNode := unit)
           [MaterialVertexGroup.Mk [0; 1; 2]] [MaterialVertexGroup.Mk [0; 1; 2]]
           [7; 8; 9] [7; 8; 9] (SDFModel.Mk None None tt tt [] [])).
  - repeat constructor.
  - left. discriminate.
  - reflexivity.
Defined.

Lemma UpdateColors_after_MeshReadyInner_witness :
  exists m'' : SDFModel.t unit Z unit unit,
    UpdateColors [MaterialVertexGroup.Mk [2; 0; 1]]
      (SDFModel.Mk None None tt tt [100; 101; 102]
         [InstanceColoringGroup.Mk 0%nat 0 3 [7; 8; 9] 0])
      tt
    = Some m''
    /\ length (Colors m'') = 3%nat.
Proof.
  destruct (UpdateColors_after_MeshReadyInner (vec3 := unit) (Transform := unit)
              (SDFNode := unit)
              [MaterialVertexGroup.Mk [2; 0; 1]] [100; 101; 102]
              (SDFModel.Mk None None tt tt [] [])
              (SDFModel.Mk None None tt tt [100; 101; 102]
                 [InstanceColoringGroup.Mk 0%nat 0 3 [] 0])
              [InstanceColoringGroup.Mk 0%nat 0 3 [7; 8; 9] 0] tt)
    as (m'' & E & Hl & _).
  - repeat constructor; cbn; lia.
  - reflexivity.
  - constructor; [|constructor].
    split; [reflexivity|]. split; [reflexivity|]. split; [reflexivity|].
    right. cbn. lia.
  - exists m''. split; [exact E | exact Hl].
Defined.

End MeshReadyFacts.

Module ConstructionFacts.
Import Process SDFModel.
Import ListFacts.

Section Construction.
Context {vec3 vec4 Transform SDFNode : Type}.
Variable Transform_default : Transform.
Variable vec3_zero : vec3.
Variable SDFNode_Copy : SDFNode -> SDFNode.
Variable get : SDFNode -> Z.

Local Abbreviation bind := (bind_Painter SDFNode_Copy get).
Local Abbreviation step' := (step SDFNode_Copy get).
Local Abbreviation run' := (run SDFNode_Copy get).
Local Abbreviation P := (Process.t SDFNode).
Local Abbreviation new_SDFModel :=
  (@SDFModel vec3 vec4 Transform SDFNode Transform_default vec3_zero
     SDFNode_Copy get).

(** Drawables are populated as they are made. *)
Lemma step_populated (p : P) (o : Op) :
  Populated p = seq 0 (length (Drawables p)) ->
  Populated (step' p o) = seq 0 (length (Drawables (step' p o))).
Proof.
  intros HP. destruct o as [ev|h|h|]; cbn [step].
  - unfold bind_Painter.
    destruct (find_live p (DrawableCache p) (get ev)) as [h|] eqn:Ef.
    + cbn [snd]. unfold share.
      destruct (Drawables p !! h) as [d|] eqn:Ed; [|auto].
      destruct (live p h); [|auto]. cbn [Populated Drawables].
      now rewrite length_insert.
    + cbn [snd Populated Drawables]. rewrite length_app. cbn [length].
      now rewrite Nat.add_1_r, seq_S, HP.
  - unfold share. destruct (Drawables p !! h) as [d|] eqn:Ed; [|auto].
    destruct (live p h); [|auto]. cbn [Populated Drawables].
    now rewrite length_insert.
  - unfold release. destruct (Drawables p !! h) as [d|] eqn:Ed; [|auto].
    cbn [Populated Drawables]. now rewrite length_insert.
  - auto.
Qed.

Lemma run_populated (trace : list Op) (p : P) :
  Populated p = seq 0 (length (Drawables p)) ->
  Populated (run' trace p) = seq 0 (length (Drawables (run' trace p))).
Proof.
  revert p. induction trace as [|o trace IH]; intros p HP; [auto|].
  cbn [run fold_left]. apply IH. now apply step_populated.
Qed.

(** Every cache entry leads to a Drawable whose evaluator is the copy of
    a tree that a constructor was given, at the address the entry has
    for key. *)
Local Abbreviation copies_of given p :=
  (Forall (fun Entry : Z * nat =>
             exists (d : Drawable.t SDFNode) (ev : SDFNode),
               Drawables p !! snd Entry = Some d
               /\ Drawable.Evaluator d = SDFNode_Copy ev
               /\ get ev = fst Entry
               /\ In (Construct ev) given)
          (DrawableCache p)).

Lemma copies_of_same_Evaluator (given : list Op) (p : P) (h : nat)
    (d : Drawable.t SDFNode) (n : nat) :
  Drawables p !! h = Some d ->
  copies_of given p ->
  copies_of given
    (Process.Mk (<[h := Drawable.Mk n (Drawable.Evaluator d)]> (Drawables p))
                (DrawableCache p) (Populated p)).
Proof.
  intros Hd HI. cbn [Drawables DrawableCache].
  eapply Forall_impl; [exact HI|]. intros [k h'] (d' & ev & Hd' & He & Hk & Hg).
  cbn [fst snd] in *. destruct (Nat.eq_dec h h') as [<-|Hne].
  - exists (Drawable.Mk n (Drawable.Evaluator d)), ev.
    rewrite list_lookup_insert_eq by (eapply lookup_lt_Some; exact Hd).
    rewrite Hd in Hd'. injection Hd' as <-. auto.
  - exists d', ev. rewrite list_lookup_insert_ne by exact Hne. auto.
Qed.

Lemma step_copies_of (given : list Op) (p : P) (o : Op) :
  copies_of given p -> copies_of (given ++ [o]) (step' p o).
Proof.
  intros HI.
  assert (HI' : copies_of (given ++ [o]) p).
  { eapply Forall_impl; [exact HI|]. intros e (d & ev & H1 & H2 & H3 & H4).
    exists d, ev. repeat split; try assumption. apply in_or_app. now left. }
  clear HI. destruct o as [ev|h|h|]; cbn [step].
  - unfold bind_Painter.
    destruct (find_live p (DrawableCache p) (get ev)) as [h|] eqn:Ef.
    + cbn [snd]. unfold share.
      destruct (Drawables p !! h) as [d|] eqn:Ed; [|exact HI'].
      destruct (live p h); [|exact HI'].
      now apply copies_of_same_Evaluator.
    + cbn [snd Drawables DrawableCache].
      apply Forall_app. split.
      * eapply Forall_impl; [exact HI'|].
        intros e (d & ev' & H1 & H2 & H3 & H4). exists d, ev'.
        split; [|auto]. now apply lookup_app_l_Some.
      * constructor; [|constructor]. cbn [fst snd].
        exists (Drawable.Mk 1 (SDFNode_Copy ev)), ev.
        split; [now apply list_lookup_middle|].
        split; [reflexivity|]. split; [reflexivity|].
        apply in_or_app. right. now left.
  - unfold share. destruct (Drawables p !! h) as [d|] eqn:Ed; [|exact HI'].
    destruct (live p h); [|exact HI'].
    now apply copies_of_same_Evaluator.
  - unfold release. destruct (Drawables p !! h) as [d|] eqn:Ed; [|exact HI'].
    now apply copies_of_same_Evaluator.
  - unfold PruneStaleDrawableFromCache. cbn [Drawables DrawableCache].
    apply Forall_forall. intros e He.
    apply CacheFacts.erase_first_expired_subset in He.
    rewrite Forall_forall in HI'. exact (HI' e He).
Qed.

Lemma run_copies_of (trace given : list Op) (p : P) :
  copies_of given p -> copies_of (given ++ trace) (run' trace p).
Proof.
  revert given p. induction trace as [|o trace IH]; intros given p HI.
  - now rewrite app_nil_r.
  - cbn [run fold_left].
    replace (given ++ o :: trace) with ((given ++ [o]) ++ trace)
      by (now rewrite <- app_assoc).
    apply IH. now apply step_copies_of.
Qed.

(** X15.  Whatever was constructed, shared, released and pruned before,
    [Sodapop::Populate] has been called exactly once for every Drawable
    made, in the order they were made; and a new instance evaluates the
    evaluator of its Painter, which is what [SDFNode::Copy] returned for
    a tree at the address of [InEvaluator]: for [InEvaluator] itself
    when this call makes the Drawable, and otherwise for the tree of an
    earlier constructor call. *)
Theorem every_Drawable_populated_once (trace : list Op) (InEvaluator : SDFNode) :
  Populated (run' trace start) = seq 0 (length (Drawables (run' trace start)))
  /\ (forall h, (h < length (Drawables (run' trace start)))%nat ->
                builds (run' trace start) h = 1%nat)
  /\ (exists (h : nat) (d : Drawable.t SDFNode) (ev : SDFNode),
        Painter (fst (new_SDFModel InEvaluator (run' trace start))) = Some h
        /\ Drawables (snd (new_SDFModel InEvaluator (run' trace start))) !! h
           = Some d
        /\ Evaluator (fst (new_SDFModel InEvaluator (run' trace start)))
           = Some (Drawable.Evaluator d)
        /\ Drawable.Evaluator d = SDFNode_Copy ev
        /\ get ev = get InEvaluator
        /\ ((h = length (Drawables (run' trace start)) /\ ev = InEvaluator)
            \/ ((h < length (Drawables (run' trace start)))%nat
                /\ In (Construct ev) trace))).
Proof.
  pose proof (run_populated trace start eq_refl) as HP.
  split; [exact HP|]. split.
  - intros h Hh. unfold builds. rewrite HP.
    rewrite (filter_ext_elem _ (fun i => Nat.eqb i h))
      by (intros x _; apply Nat.eqb_sym).
    rewrite filter_eqb_seq.
    replace (Nat.leb 0 h) with true by (symmetry; apply Nat.leb_le; lia).
    replace (Nat.ltb h (0 + length (Drawables (run' trace start)))) with true
      by (symmetry; apply Nat.ltb_lt; lia).
    reflexivity.
  - pose proof (run_copies_of trace [] start (Forall_nil_2 _)) as HI.
    cbn [app] in HI.
    set (p := run' trace start) in *.
    unfold SDFModel.SDFModel, bind_Painter.
    destruct (find_live p (DrawableCache p) (get InEvaluator)) as [h|] eqn:Ef.
    + cbn [fst snd Painter Evaluator].
      destruct (CacheFacts.find_live_Some _ _ _ _ Ef) as [Hin Hl].
      rewrite Forall_forall in HI.
      destruct (HI _ Hin) as (d & ev & Hd & He & Hk & Hg). cbn [fst snd] in *.
      pose proof (lookup_lt_Some _ _ _ Hd) as Hlt.
      unfold share. rewrite Hd, Hl. cbn [Drawables].
      exists h, (Drawable.Mk (S (Drawable.use_count d)) (Drawable.Evaluator d)), ev.
      cbn [Drawable.Evaluator].
      split; [reflexivity|].
      split; [now apply list_lookup_insert_eq|].
      split; [reflexivity|]. split; [exact He|]. split; [exact Hk|].
      right. split; [exact Hlt | exact Hg].
    + cbn [fst snd Painter Evaluator Drawables].
      exists (length (Drawables p)), (Drawable.Mk 1 (SDFNode_Copy InEvaluator)),
        InEvaluator.
      split; [reflexivity|]. split; [now apply list_lookup_middle|].
      split; [reflexivity|]. split; [reflexivity|]. split; [reflexivity|].
      left. split; reflexivity.
Qed.

End Construction.
End ConstructionFacts.

Module UpdateTwiceFacts.
Import SDFModel.
Import ListFacts.

Section Update.
Context {vec3 vec4 Transform SDFNode : Type}.

Local Abbreviation Model := (SDFModel.t vec3 vec4 Transform SDFNode).
Local Abbreviation Group := (InstanceColoringGroup.t vec4).

Lemma UpdateGroups_swaps (MaterialSlots : list MaterialVertexGroup.t)
    (groups groups' : list Group) (cs cs' : list vec4) :
  UpdateGroups MaterialSlots groups cs = Some (groups', cs') ->
  groups' = map swapped_out groups.
Proof.
  revert groups' cs cs'. induction groups as [|Batch rest IH];
    intros groups' cs cs'; cbn [UpdateGroups].
  - now intros [= <- _].
  - match goal with
    | |- match ?w with _ => _ end = _ -> _ => destruct w as [cs1|]
    end; [|discriminate].
    destruct (UpdateGroups MaterialSlots rest cs1) as [[rest' cs2]|] eqn:E;
      [|discriminate].
    intros [= <- _]. cbn [map]. f_equal. exact (IH _ _ _ E).
Qed.

Lemma UpdateGroups_nothing_pending (MaterialSlots : list MaterialVertexGroup.t)
    (groups : list Group) (cs : list vec4) :
  Forall (fun g => InstanceColoringGroup.Colors g = []) groups ->
  UpdateGroups MaterialSlots groups cs = Some (groups, cs).
Proof.
  induction 1 as [|Batch rest Hb _ IH]; cbn [UpdateGroups]; [reflexivity|].
  rewrite Hb. change (0 <? Z.of_nat (@length vec4 [])) with false.
  cbv iota. rewrite IH.
  destruct Batch as [v s r c l]. cbn in Hb. subst c. reflexivity.
Qed.

(** X12.  [UpdateColors] consumes what is pending: when a call has gone
    through, a second call with no new colors delivered in between
    changes nothing but the camera origin, whatever state the groups
    and vertex indices are in. *)
Theorem UpdateColors_consumes_pending
    (MaterialSlots : list MaterialVertexGroup.t) (m m' : Model)
    (CameraOrigin CameraOrigin' : vec3) :
  UpdateColors MaterialSlots m CameraOrigin = Some m' ->
  UpdateColors MaterialSlots m' CameraOrigin'
  = Some (Mk (Evaluator m') (Painter m') (LocalToWorld m') CameraOrigin'
             (Colors m') (ColoringGroups m'))
  /\ Forall (fun g => InstanceColoringGroup.Colors g = []) (ColoringGroups m').
Proof.
  unfold UpdateColors.
  destruct (UpdateGroups MaterialSlots (ColoringGroups m) (Colors m))
    as [[groups' cs']|] eqn:E; [|discriminate].
  intros [= <-]. cbn [ColoringGroups Colors Evaluator Painter LocalToWorld].
  apply UpdateGroups_swaps in E. subst groups'.
  assert (Hempty : Forall (fun g : Group => InstanceColoringGroup.Colors g = [])
                          (map swapped_out (ColoringGroups m))).
  { apply Forall_forall. intros g Hg. apply elem_of_map in Hg.
    destruct Hg as (g0 & -> & _). reflexivity. }
  rewrite UpdateGroups_nothing_pending by exact Hempty. auto.
Qed.

(** *** A pending buffer that is too short *)

Lemma WriteColors_short (fuel : nat) (r : Z) (Vertices : list Z) (IndexStart : Z)
    (NewColors cs : list vec4) :
  0 <= r <= Z.of_nat (length NewColors) ->
  Z.of_nat (length NewColors) < r + Z.of_nat fuel ->
  r + Z.of_nat fuel < 2 ^ 64 ->
  WriteColors fuel r Vertices IndexStart NewColors cs = None.
Proof.
  revert r cs. induction fuel as [|fuel IH]; intros r cs Hr Hshort Hb; [lia|].
  cbn [WriteColors].
  destruct (Vertices !! Z.to_nat (wrap64 (IndexStart + r))) as [v|];
    [|reflexivity].
  destruct (NewColors !! Z.to_nat r) as [c|] eqn:Ec; [|reflexivity].
  apply lookup_lt_Some in Ec.
  destruct ((0 <=? v) && (v <? Z.of_nat (length cs))); [|reflexivity].
  rewrite (wrap64_small (r + 1)) by lia. apply IH; lia.
Qed.

Lemma UpdateGroups_short (MaterialSlots : list MaterialVertexGroup.t)
    (groups : list Group) (cs : list vec4) :
  Exists (fun Batch =>
            0 < Z.of_nat (length (InstanceColoringGroup.Colors Batch))
              < InstanceColoringGroup.IndexRange Batch
            /\ InstanceColoringGroup.IndexRange Batch < 2 ^ 64)
         groups ->
  UpdateGroups MaterialSlots groups cs = None.
Proof.
  intros Hex. revert cs.
  induction Hex as [Batch rest (Hlen & Hb)|Batch rest _ IH]; intros cs;
    cbn [UpdateGroups].
  - replace (0 <? Z.of_nat (length (InstanceColoringGroup.Colors Batch)))
      with true by (symmetry; apply Z.ltb_lt; lia).
    destruct (MaterialSlots !! InstanceColoringGroup.VertexGroup Batch) as [slot|];
      [|reflexivity].
    rewrite WriteColors_short by lia. reflexivity.
  - match goal with
    | |- match ?w with _ => _ end = _ => destruct w as [cs1|]
    end; [|reflexivity].
    now rewrite IH.
Qed.

(** X28.  [UpdateColors] trusts a non-empty pending buffer to hold
    [IndexRange] colors: the only check is for emptiness.  When some
    group's buffer is non-empty and shorter than that, the call does not
    go through: it fails at an earlier access or reads past the end of
    that buffer. *)
Theorem UpdateColors_needs_full_buffers
    (MaterialSlots : list MaterialVertexGroup.t) (m : Model)
    (NewCameraOrigin : vec3) :
  Exists (fun Batch =>
            0 < Z.of_nat (length (InstanceColoringGroup.Colors Batch))
              < InstanceColoringGroup.IndexRange Batch
            /\ InstanceColoringGroup.IndexRange Batch < 2 ^ 64)
         (ColoringGroups m) ->
  UpdateColors MaterialSlots m NewCameraOrigin = None.
Proof.
  intros Hex. unfold UpdateColors.
  now rewrite UpdateGroups_short by exact Hex.
Qed.

End Update.

Lemma UpdateColors_needs_full_buffers_witness :
  UpdateColors [MaterialVertexGroup.Mk [2; 0; 1]]
    (SDFModel.Mk (@None unit) None tt tt [100; 101; 102]
       [InstanceColoringGroup.Mk 0%nat 0 3 [7; 9] 0])
    tt
  = None.
Proof.
  apply (UpdateColors_needs_full_buffers (vec3 := unit) (Transform := unit)
           (SDFNode := unit)).
  left. cbn. lia.
Defined.

Lemma UpdateColors_consumes_pending_witness :
  UpdateColors [MaterialVertexGroup.Mk [2; 0; 1]]
    (SDFModel.Mk (@None unit) None tt tt [9; 101; 7]
       [InstanceColoringGroup.Mk 0%nat 0 2 [] 0])
    tt
  = Some (SDFModel.Mk None None tt tt [9; 101; 7]
            [InstanceColoringGroup.Mk 0%nat 0 2 [] 0]).
Proof.
  apply (UpdateColors_consumes_pending (vec3 := unit) (Transform := unit)
           (SDFNode := unit)
           [MaterialVertexGroup.Mk [2; 0; 1]]
           (SDFModel.Mk None None tt tt [100; 101; 102]
              [InstanceColoringGroup.Mk 0%nat 0 2 [7; 9] 0])
           (SDFModel.Mk None None tt tt [9; 101; 7]
              [InstanceColoringGroup.Mk 0%nat 0 2 [] 0])
           tt tt).
  reflexivity.
Defined.

End UpdateTwiceFacts.

Module PruneFacts.
Import Process.
Import ListFacts.

Section Prune.
Context {SDFNode : Type}.

Local Abbreviation P := (Process.t SDFNode).
Local Abbreviation Prune := (@PruneStaleDrawableFromCache SDFNode).

Lemma erase_first_expired_split (p : P) (l1 l2 : list (Z * nat)) (e : Z * nat) :
  Forall (fun e => live p (snd e) = true) l1 -> expired p (snd e) = true ->
  erase_first_expired p (l1 ++ e :: l2) = l1 ++ l2.
Proof.
  intros Hl He. induction Hl as [|x l1 Hx _ IH]; cbn [app erase_first_expired].
  - now rewrite He.
  - unfold expired at 1. rewrite Hx. cbn [negb]. now rewrite IH.
Qed.

Lemma erase_first_expired_none (p : P) (cache : list (Z * nat)) :
  Forall (fun e => live p (snd e) = true) cache ->
  erase_first_expired p cache = cache.
Proof.
  induction 1 as [|x l Hx _ IH]; cbn [erase_first_expired]; [reflexivity|].
  unfold expired. rewrite Hx. cbn [negb]. now rewrite IH.
Qed.

Lemma erase_first_expired_count (p : P) (cache : list (Z * nat)) :
  length (List.filter (fun e => expired p (snd e)) (erase_first_expired p cache))
  = Nat.pred (length (List.filter (fun e => expired p (snd e)) cache)).
Proof.
  induction cache as [|x l IH]; cbn [erase_first_expired List.filter];
    [reflexivity|].
  destruct (expired p (snd x)) eqn:E.
  - reflexivity.
  - cbn [List.filter]. rewrite E. exact IH.
Qed.

Lemma no_expired_all_live (p : P) (cache : list (Z * nat)) :
  length (List.filter (fun e => expired p (snd e)) cache) = 0%nat ->
  Forall (fun e => live p (snd e) = true) cache.
Proof.
  induction cache as [|x l IH]; cbn [List.filter]; [constructor|].
  unfold expired at 1. destruct (live p (snd x)) eqn:E; cbn [negb].
  - intros H. constructor; [exact E | exact (IH H)].
  - discriminate.
Qed.

Lemma filter_live_all (p : P) (cache : list (Z * nat)) :
  Forall (fun e => live p (snd e) = true) cache ->
  List.filter (fun e => live p (snd e)) cache = cache.
Proof.
  induction 1 as [|x l Hx _ IH]; cbn [List.filter]; [reflexivity|].
  now rewrite Hx, IH.
Qed.

Lemma erase_first_expired_same_Drawables (p p' : P) (cache : list (Z * nat)) :
  Drawables p' = Drawables p ->
  erase_first_expired p' cache = erase_first_expired p cache.
Proof.
  intros H. induction cache as [|x l IH]; cbn [erase_first_expired];
    [reflexivity|].
  unfold expired, live. rewrite H, IH. reflexivity.
Qed.

(** X13.  One call of [PruneStaleDrawableFromCache] erases the first expired
    entry of the cache and nothing else: the entries before and after it
    keep their order, live entries are never erased, a cache without
    expired entries is left as it is, and the Drawables themselves are
    not touched. *)
Theorem Prune_erases_first_expired (p : P) :
  Drawables (Prune p) = Drawables p
  /\ Populated (Prune p) = Populated p
  /\ (Forall (fun e => live p (snd e) = true) (DrawableCache p) ->
      DrawableCache (Prune p) = DrawableCache p)
  /\ (forall (l1 l2 : list (Z * nat)) (e : Z * nat),
        DrawableCache p = l1 ++ e :: l2 ->
        Forall (fun e => live p (snd e) = true) l1 ->
        expired p (snd e) = true ->
        DrawableCache (Prune p) = l1 ++ l2)
  /\ List.filter (fun e => live p (snd e)) (DrawableCache (Prune p))
     = List.filter (fun e => live p (snd e)) (DrawableCache p)
  /\ (length (DrawableCache p) - 1 <= length (DrawableCache (Prune p))
      <= length (DrawableCache p))%nat.
Proof.
  unfold PruneStaleDrawableFromCache. cbn [Drawables Populated DrawableCache].
  split; [reflexivity|]. split; [reflexivity|].
  split; [apply erase_first_expired_none|].
  split.
  { intros l1 l2 e -> Hl He. now apply erase_first_expired_split. }
  split.
  { apply CacheFacts.erase_first_expired_filter. auto. }
  generalize (DrawableCache p) as cache.
  induction cache as [|x l IH]; cbn [erase_first_expired length]; [lia|].
  destruct (expired p (snd x)); cbn [length]; lia.
Qed.

Lemma iter_Prune (k : nat) (p : P) :
  Drawables (Nat.iter k Prune p) = Drawables p
  /\ List.filter (fun e => live p (snd e)) (DrawableCache (Nat.iter k Prune p))
     = List.filter (fun e => live p (snd e)) (DrawableCache p)
  /\ length (List.filter (fun e => expired p (snd e))
               (DrawableCache (Nat.iter k Prune p)))
     = (length (List.filter (fun e => expired p (snd e)) (DrawableCache p))
        - k)%nat.
Proof.
  induction k as [|k (IH1 & IH2 & IH3)].
  - change (Nat.iter 0 Prune p) with p.
    split; [reflexivity|]. split; [reflexivity|]. lia.
  - rewrite Nat.iter_succ.
    unfold PruneStaleDrawableFromCache at 1 3 5.
    cbn [Drawables DrawableCache].
    rewrite (erase_first_expired_same_Drawables p _ _ IH1).
    split; [exact IH1|]. split.
    + rewrite CacheFacts.erase_first_expired_filter by auto. exact IH2.
    + rewrite erase_first_expired_count, IH3. lia.
Qed.

(** X14.  Each call clears one expired entry, so the cache is clean after as
    many calls as it has expired entries, and not before: after [k]
    calls all but [k] of them are left, and from then on the cache
    holds exactly its live entries, in their order. *)
Theorem Prunes_clear_the_cache (p : P) (k : nat) :
  length (List.filter (fun e => expired p (snd e))
            (DrawableCache (Nat.iter k Prune p)))
  = (length (List.filter (fun e => expired p (snd e)) (DrawableCache p)) - k)%nat
  /\ ((length (List.filter (fun e => expired p (snd e)) (DrawableCache p)) <= k)%nat ->
      DrawableCache (Nat.iter k Prune p)
      = List.filter (fun e => live p (snd e)) (DrawableCache p))
  /\ Drawables (Nat.iter k Prune p) = Drawables p.
Proof.
  destruct (iter_Prune k p) as (H1 & H2 & H3).
  split; [exact H3|]. split; [|exact H1].
  intros Hk. rewrite <- H2. symmetry. apply filter_live_all.
  apply no_expired_all_live. rewrite H3. lia.
Qed.

End Prune.
End PruneFacts.

Module DrawableSlotsFacts.
Import DrawableSlots.

(** The lookup table and the slot vector say the same, and no material
    has two slots. *)
Lemma WalkCallback_keeps (Material : Z) (d : t) :
  (forall M i, SlotLookup d !! M = Some i <-> MaterialSlots d !! i = Some M) ->
  NoDup (MaterialSlots d) ->
  (forall M i,
      SlotLookup (WalkCallback Material d) !! M = Some i
      <-> MaterialSlots (WalkCallback Material d) !! i = Some M)
  /\ NoDup (MaterialSlots (WalkCallback Material d))
  /\ MaterialSlots (WalkCallback Material d)
     = MaterialSlots d
       ++ (if decide (Material ∈ MaterialSlots d) then [] else [Material]).
Proof.
  intros Hinv Hnd. unfold WalkCallback.
  destruct (SlotLookup d !! Material) as [i0|] eqn:E.
  - split; [exact Hinv|]. split; [exact Hnd|].
    apply Hinv in E. apply list_elem_of_lookup_2 in E.
    destruct (decide (Material ∈ MaterialSlots d)); [|contradiction].
    now rewrite app_nil_r.
  - assert (Hnew : Material ∉ MaterialSlots d).
    { intros Hin. apply list_elem_of_lookup in Hin. destruct Hin as [i Hi].
      apply Hinv in Hi. congruence. }
    cbn [MaterialSlots SlotLookup].
    destruct (decide (Material ∈ MaterialSlots d)); [contradiction|].
    split; [|split; [|reflexivity]].
    + intros M i. destruct (decide (Material = M)) as [<-|Hne].
      * rewrite lookup_insert_eq. split.
        -- intros [= <-]. now apply list_lookup_middle.
        -- intros Hi. f_equal.
           destruct (Nat.lt_trichotomy i (length (MaterialSlots d)))
             as [Hlt|[Heq|Hgt]].
           ++ rewrite lookup_app_l in Hi by exact Hlt.
              apply list_elem_of_lookup_2 in Hi. contradiction.
           ++ now symmetry.
           ++ rewrite lookup_ge_None_2 in Hi; [discriminate|].
              rewrite length_app. cbn [length]. lia.
      * rewrite lookup_insert_ne by exact Hne. rewrite Hinv. split.
        -- intros Hi. rewrite lookup_app_l; [exact Hi|].
           now apply lookup_lt_Some in Hi.
        -- intros Hi.
           destruct (Nat.lt_ge_cases i (length (MaterialSlots d))) as [Hlt|Hge].
           ++ now rewrite lookup_app_l in Hi by exact Hlt.
           ++ rewrite lookup_app_r in Hi by exact Hge.
              destruct (i - length (MaterialSlots d))%nat as [|j];
                cbn in Hi; [congruence | discriminate].
    + apply NoDup_app. split; [exact Hnd|]. split; [|apply NoDup_singleton].
      intros x Hx Hx'. apply list_elem_of_singleton in Hx'. now subst x.
Qed.

Lemma walk_keeps (walk : list Z) (d : t) :
  (forall M i, SlotLookup d !! M = Some i <-> MaterialSlots d !! i = Some M) ->
  NoDup (MaterialSlots d) ->
  let d' := fold_left (fun d Material => WalkCallback Material d) walk d in
  (forall M i, SlotLookup d' !! M = Some i <-> MaterialSlots d' !! i = Some M)
  /\ NoDup (MaterialSlots d')
  /\ (forall M, M ∈ MaterialSlots d' <-> M ∈ MaterialSlots d \/ M ∈ walk).
Proof.
  revert d. induction walk as [|Material walk IH]; intros d Hinv Hnd;
    cbn [fold_left].
  - split; [exact Hinv|]. split; [exact Hnd|]. intros M. split; [auto|].
    intros [H|H]; [exact H|]. now apply elem_of_nil in H.
  - destruct (WalkCallback_keeps Material d Hinv Hnd) as (H1 & H2 & H3).
    destruct (IH _ H1 H2) as (K1 & K2 & K3).
    split; [exact K1|]. split; [exact K2|].
    intros M. rewrite K3, H3, elem_of_app, elem_of_cons.
    destruct (decide (Material ∈ MaterialSlots d)) as [Hin|Hnin].
    + rewrite elem_of_nil. split; [tauto|].
      intros [H|[->|H]]; auto.
    + rewrite list_elem_of_singleton. tauto.
Qed.

(** X16.  The constructor gives every material the walk reports one slot, and
    no other slots: [MaterialSlots] holds the reported materials without
    repetition, [SlotLookup] maps a material to the index of its slot
    and to nothing else, and a material that is reported again later
    changes neither, so slots are numbered by first appearance. *)
Theorem Drawable_one_slot_per_material (walk : list Z) :
  NoDup (MaterialSlots (Drawable walk))
  /\ (forall M, M ∈ MaterialSlots (Drawable walk) <-> M ∈ walk)
  /\ (forall M i,
        SlotLookup (Drawable walk) !! M = Some i
        <-> MaterialSlots (Drawable walk) !! i = Some M)
  /\ (forall Material,
        MaterialSlots (Drawable (walk ++ [Material]))
        = MaterialSlots (Drawable walk)
          ++ (if decide (Material ∈ walk) then [] else [Material])).
Proof.
  assert (H0 : forall M i,
             SlotLookup (Mk [] ∅) !! M = Some i
             <-> MaterialSlots (Mk [] ∅) !! i = Some M).
  { intros M i. cbn. rewrite lookup_empty. split; discriminate. }
  assert (N0 : NoDup (MaterialSlots (Mk [] ∅))) by constructor.
  destruct (walk_keeps walk _ H0 N0) as (K1 & K2 & K3).
  fold (Drawable walk) in K1, K2, K3.
  assert (Hel : forall M, M ∈ MaterialSlots (Drawable walk) <-> M ∈ walk).
  { intros M. rewrite K3. cbn. rewrite elem_of_nil. tauto. }
  split; [exact K2|]. split; [exact Hel|]. split; [exact K1|].
  intros Material. unfold Drawable at 1. rewrite fold_left_app.
  fold (Drawable walk). cbn [fold_left].
  destruct (WalkCallback_keeps Material (Drawable walk) K1 K2) as (_ & _ & H3).
  rewrite H3.
  destruct (decide (Material ∈ MaterialSlots (Drawable walk))) as [Hin|Hnin];
    destruct (decide (Material ∈ walk)) as [Hw|Hnw]; try reflexivity.
  - apply Hel in Hin. contradiction.
  - apply Hel in Hw. contradiction.
Qed.

End DrawableSlotsFacts.

Module RenderingFacts.
Import Rendering.
Import ListFacts.

Section OneBackend.
Variable DrawOne : Draw -> bool -> bool * list Call.
Variable draw_calls : Draw -> list Call.

Hypothesis DrawOne_shape : forall (d : Draw) (MeshUploaded : bool),
  DrawOne d MeshUploaded
  = if is_Imminent (Visibility d) then (MeshUploaded, [])
    else (true,
          (if negb MeshUploaded then
             [Upload IndexBuffer (wrap64 (Indices_size d * 4));
              Upload PositionBuffer (wrap64 (Positions_size d * 16))]
           else [])
          ++ draw_calls d).
Hypothesis draw_calls_no_mesh : forall d : Draw,
  List.filter is_mesh_upload (draw_calls d) = [].
Hypothesis draw_calls_draw : forall d : Draw,
  length (List.filter is_draw (draw_calls d))
  = if 0 <? Colors_size d then 1%nat else 0%nat.

Lemma Draws_Imminent (ds : list Draw) (MeshUploaded : bool) :
  Forall (fun d => is_Imminent (Visibility d) = true) ds ->
  Draws DrawOne ds MeshUploaded = (MeshUploaded, []).
Proof.
  induction 1 as [|d ds Hd _ IH]; cbn [Draws]; [reflexivity|].
  rewrite DrawOne_shape, Hd, IH. reflexivity.
Qed.

Lemma Draws_uploaded (ds : list Draw) :
  exists log : list Call,
    Draws DrawOne ds true
    = (true, log)
    /\ List.filter is_mesh_upload log = []
    /\ length (List.filter is_draw log)
       = length (List.filter
                   (fun d => negb (is_Imminent (Visibility d))
                             && (0 <? Colors_size d)) ds).
Proof.
  induction ds as [|d ds (log & E & Hm & Hd)]; cbn [Draws List.filter].
  - exists []. auto.
  - rewrite DrawOne_shape. destruct (is_Imminent (Visibility d)).
    + rewrite E. cbn [negb andb app]. exists log. auto.
    + rewrite E. cbn [negb andb app]. exists (draw_calls d ++ log).
      split; [reflexivity|].
      rewrite !List.filter_app, draw_calls_no_mesh, Hm, length_app,
        draw_calls_draw, Hd.
      split; [reflexivity|].
      destruct (0 <? Colors_size d); reflexivity.
Qed.

Lemma Draws_first (before after : list Draw) (d : Draw) :
  Forall (fun d => is_Imminent (Visibility d) = true) before ->
  is_Imminent (Visibility d) = false ->
  exists rest : list Call,
    Draws DrawOne (before ++ d :: after) false
    = (true,
       Upload IndexBuffer (wrap64 (Indices_size d * 4))
       :: Upload PositionBuffer (wrap64 (Positions_size d * 16)) :: rest)
    /\ List.filter is_mesh_upload rest = []
    /\ length (List.filter is_draw rest)
       = length (List.filter
                   (fun d => negb (is_Imminent (Visibility d))
                             && (0 <? Colors_size d)) (d :: after)).
Proof.
  intros Hb Hd. induction Hb as [|b before Hbi _ IH]; cbn [app Draws].
  - rewrite DrawOne_shape, Hd. cbn [negb].
    destruct (Draws_uploaded after) as (log & E & Hm & Hc). rewrite E.
    exists (draw_calls d ++ log). split; [reflexivity|].
    rewrite !List.filter_app, draw_calls_no_mesh, Hm, length_app,
      draw_calls_draw, Hc.
    split; [reflexivity|]. cbn [List.filter]. rewrite Hd. cbn [negb andb].
    destruct (0 <? Colors_size d); reflexivity.
  - rewrite DrawOne_shape, Hbi.
    destruct IH as (rest & E & Hm & Hc). rewrite E. cbn [app].
    exists rest. auto.
Qed.

End OneBackend.

(** X25.  The mesh of a Drawable is uploaded by the first draw that comes from
    an instance that is not Imminent, whether or not that instance has
    colors, with the sizes [Indices] and [Positions] have at that
    moment, before anything else is sent, and never again; draws from
    Imminent instances send nothing.  After that there is one draw call
    for each draw from an instance that is not Imminent and has colors.
    This holds of [DrawGL4] and of [DrawES2]. *)
Theorem mesh_uploaded_by_first_draw
    (DrawOne : Draw -> bool -> bool * list Call)
    (before after : list Draw) (d : Draw) :
  DrawOne = DrawGL4
  \/ (exists PositionBinding ColorBinding : Z,
        DrawOne = DrawES2 PositionBinding ColorBinding) ->
  Forall (fun d => is_Imminent (Visibility d) = true) before ->
  is_Imminent (Visibility d) = false ->
  Draws DrawOne before false = (false, [])
  /\ exists rest : list Call,
       Draws DrawOne (before ++ d :: after) false
       = (true,
          Upload IndexBuffer (wrap64 (Indices_size d * 4))
          :: Upload PositionBuffer (wrap64 (Positions_size d * 16)) :: rest)
       /\ List.filter is_mesh_upload rest = []
       /\ length (List.filter is_draw rest)
          = length (List.filter
                      (fun d => negb (is_Imminent (Visibility d))
                                && (0 <? Colors_size d)) (d :: after)).
Proof.
  intros [->|(pb & cb & ->)] Hb Hd.
  - set (calls := fun d : Draw =>
          if 0 <? Colors_size d then
            [Upload ColorBuffer (wrap64 (Colors_size d * 16));
             Bind IndexBuffer; Bind PositionBuffer; Bind ColorBuffer;
             glDrawArrays (size_t_to_int (Indices_size d))]
          else []).
    assert (Hshape : forall (d : Draw) (up : bool),
               DrawGL4 d up
               = if is_Imminent (Visibility d) then (up, [])
                 else (true,
                       (if negb up then
                          [Upload IndexBuffer (wrap64 (Indices_size d * 4));
                           Upload PositionBuffer (wrap64 (Positions_size d * 16))]
                        else [])
                       ++ calls d)) by reflexivity.
    split.
    + apply (Draws_Imminent DrawGL4 calls Hshape). exact Hb.
    + apply (Draws_first DrawGL4 calls Hshape); try assumption;
        intros x; unfold calls; destruct (0 <? Colors_size x); reflexivity.
  - set (calls := fun d : Draw =>
          if 0 <? Colors_size d then
            [Bind IndexBuffer; Bind PositionBuffer; glVertexAttribPointer pb;
             Upload ColorBuffer (wrap64 (Colors_size d * 16)); Bind ColorBuffer;
             glVertexAttribPointer cb;
             glDrawElements (size_t_to_int (Indices_size d))]
          else []).
    assert (Hshape : forall (d : Draw) (up : bool),
               DrawES2 pb cb d up
               = if is_Imminent (Visibility d) then (up, [])
                 else (true,
                       (if negb up then
                          [Upload IndexBuffer (wrap64 (Indices_size d * 4));
                           Upload PositionBuffer (wrap64 (Positions_size d * 16))]
                        else [])
                       ++ calls d)) by reflexivity.
    split.
    + apply (Draws_Imminent (DrawES2 pb cb) calls Hshape). exact Hb.
    + apply (Draws_first (DrawES2 pb cb) calls Hshape); try assumption;
        intros x; unfold calls; destruct (0 <? Colors_size x); reflexivity.
Qed.

Lemma mesh_uploaded_by_first_draw_witness :
  Draws DrawGL4
    ([MkDraw 0 0 Imminent 0] ++ MkDraw 0 0 Visible 0 :: [MkDraw 6 4 Visible 4])
    false
  = (true,
     [Upload IndexBuffer 0; Upload PositionBuffer 0;
      Upload ColorBuffer 64; Bind IndexBuffer; Bind PositionBuffer;
      Bind ColorBuffer; glDrawArrays 6]).
Proof.
  destruct (mesh_uploaded_by_first_draw DrawGL4 [MkDraw 0 0 Imminent 0]
              [MkDraw 6 4 Visible 4] (MkDraw 0 0 Visible 0))
    as (_ & rest & E & _).
  - left. reflexivity.
  - repeat constructor.
  - reflexivity.
  - rewrite E. vm_compute in E. injection E as <-. reflexivity.
Defined.

End RenderingFacts.

Module MouseFacts.
Import Rendering Mouse.
Import ListFacts.

Section Mouse.
Context {vec3 float : Type}.
Variable MOUSE_FLAG : Z -> Z.
Variable MOUSE_DOWN MOUSE_UP : Z.
Variable float_lt : float -> float -> bool.
Variable infinity : float.
Variable OnMouseEvent : nat -> MouseEvent vec3 -> bool -> MouseEvent vec3.

Local Abbreviation Instance := (Mouse.Instance vec3 float).
Local Abbreviation Gathered := (Mouse.Gathered vec3 float).
Local Abbreviation MatchEvent' := (MatchEvent MOUSE_FLAG (float := float)).
Local Abbreviation Gather := (GatherThunk MOUSE_FLAG float_lt).
Local Abbreviation Deliver :=
  (DeliverMouseButton MOUSE_FLAG MOUSE_DOWN MOUSE_UP float_lt infinity
     OnMouseEvent).

(** The model at address [n] listens, is visible and was hit, and the
    event carries its hit. *)
Local Abbreviation nearest_is Models E0 g n :=
  (exists Model : Instance,
      Model ∈ Models /\ this Model = n
      /\ MatchEvent' Model E0 = true
      /\ Visibility Model = Visible
      /\ Hit (RayMarch Model (RayOrigin E0) (RayDir E0)) = true
      /\ Event g
         = MkEvent (Type_ E0) (RayOrigin E0) (RayDir E0) true
             (Position (RayMarch Model (RayOrigin E0) (RayDir E0)))).

Lemma gather_keeps (Release : bool) (E0 : MouseEvent vec3)
    (seen rest : list Instance) (g : Gathered) :
  Type_ (Event g) = Type_ E0 -> RayOrigin (Event g) = RayOrigin E0 ->
  RayDir (Event g) = RayDir E0 ->
  MouseUpRecipients g
  = (if Release then map this (List.filter (fun M => MatchEvent' M E0) seen)
     else []) ->
  match NearestMatch g with
  | Some n => nearest_is seen E0 g n
  | None => Event g = E0
  end ->
  let g' := fold_left (Gather Release) rest g in
  MouseUpRecipients g'
  = (if Release
     then map this (List.filter (fun M => MatchEvent' M E0) (seen ++ rest))
     else [])
  /\ match NearestMatch g' with
     | Some n => nearest_is (seen ++ rest) E0 g' n
     | None => Event g' = E0
     end.
Proof.
  revert seen g. induction rest as [|Model rest IH];
    intros seen g HT HO HD HR HN; cbn [fold_left].
  - rewrite app_nil_r. auto.
  - assert (Hmatch : MatchEvent' Model (Event g) = MatchEvent' Model E0)
      by (unfold MatchEvent; now rewrite HT).
    assert (Hweak : forall (g0 : Gathered) (n : nat),
               nearest_is seen E0 g0 n -> nearest_is (seen ++ [Model]) E0 g0 n).
    { intros g0 n (M & Hin & H). exists M.
      split; [apply elem_of_app; now left | exact H]. }
    replace (seen ++ Model :: rest) with ((seen ++ [Model]) ++ rest)
      by (now rewrite <- app_assoc).
    apply IH; clear IH; unfold GatherThunk; rewrite Hmatch;
      destruct (MatchEvent' Model E0) eqn:EM;
      try (destruct Release; cbn [Event MouseUpRecipients Nearest NearestMatch];
           destruct (is_Visible (Visibility Model)) eqn:EV;
           cbn [Event MouseUpRecipients Nearest NearestMatch];
           try (destruct (Hit (RayMarch Model (RayOrigin (Event g))
                                 (RayDir (Event g)))
                          && float_lt _ _) eqn:EH);
           cbn [Event MouseUpRecipients Nearest NearestMatch Type_ RayOrigin
                  RayDir]);
      try assumption; try reflexivity;
      try (rewrite List.filter_app, map_app; cbn [List.filter];
           rewrite EM; cbn [map]; rewrite ?app_nil_r; now rewrite HR);
      try (rewrite List.filter_app; cbn [List.filter]; rewrite EM;
           now rewrite app_nil_r);
      try (destruct (NearestMatch g); [now apply Hweak | exact HN]).
    all: apply andb_true_iff in EH; destruct EH as [EHit _];
      rewrite HO, HD in EHit;
      exists Model; (split; [apply elem_of_app; right; apply list_elem_of_here|]);
      (split; [reflexivity|]); (split; [exact EM|]);
      (split; [now destruct (Visibility Model)|]);
      (split; [exact EHit|]); now rewrite HT, HO, HD.
Qed.

Lemma gathered (Release : bool) (Models : list Instance) (E0 : MouseEvent vec3) :
  let g := fold_left (Gather Release) Models (MkGathered infinity None [] E0) in
  MouseUpRecipients g
  = (if Release then map this (List.filter (fun M => MatchEvent' M E0) Models)
     else [])
  /\ match NearestMatch g with
     | Some n => nearest_is Models E0 g n
     | None => Event g = E0
     end.
Proof.
  apply (gather_keeps Release E0 [] Models (MkGathered infinity None [] E0));
    try reflexivity.
  now destruct Release.
Qed.

Lemma NotifyRecipients_who (Recipients : list nat) (nearest : option nat)
    (E : MouseEvent vec3) :
  map (fun c => fst (fst c)) (NotifyRecipients OnMouseEvent Recipients nearest E)
  = Recipients.
Proof.
  revert E. induction Recipients as [|r rest IH]; intros E; [reflexivity|].
  cbn [NotifyRecipients map fst]. now rewrite IH.
Qed.

(** X26.  [DeliverMouseButton] returns [true] exactly when it has called no
    handler.  A button release is handed to every model that listens for
    it, visible or not, once each and in visiting order; a button press
    is handed to at most one model, which listens, is visible and was
    hit by the ray, with [Picked] set and the event carrying that hit;
    an event that is neither is handed to nobody. *)
Theorem mouse_button_routing (Models : list Instance) (E0 : MouseEvent vec3) :
  (fst (Deliver Models E0) = true <-> snd (Deliver Models E0) = [])
  /\ (Type_ E0 = MOUSE_UP -> Type_ E0 <> MOUSE_DOWN ->
      map (fun c => fst (fst c)) (snd (Deliver Models E0))
      = map this (List.filter (fun M => MatchEvent' M E0) Models))
  /\ (Type_ E0 = MOUSE_DOWN -> Type_ E0 <> MOUSE_UP ->
      snd (Deliver Models E0) = []
      \/ exists Model : Instance,
           Model ∈ Models /\ MatchEvent' Model E0 = true
           /\ Visibility Model = Visible
           /\ Hit (RayMarch Model (RayOrigin E0) (RayDir E0)) = true
           /\ snd (Deliver Models E0)
              = [(this Model,
                  MkEvent (Type_ E0) (RayOrigin E0) (RayDir E0) true
                    (Position (RayMarch Model (RayOrigin E0) (RayDir E0))),
                  true)])
  /\ (Type_ E0 <> MOUSE_DOWN -> Type_ E0 <> MOUSE_UP ->
      Deliver Models E0 = (true, [])).
Proof.
  unfold DeliverMouseButton.
  destruct (gathered (Type_ E0 =? MOUSE_UP) Models E0) as [HR HN].
  cbv zeta in HR, HN.
  set (g := fold_left (Gather (Type_ E0 =? MOUSE_UP)) Models
              (MkGathered infinity None [] E0)) in *.
  split; [|split; [|split]].
  - destruct (Type_ E0 =? MOUSE_DOWN), (NearestMatch g) as [n|];
      destruct (MouseUpRecipients g) as [|r rest]; cbn; split;
      try discriminate; reflexivity.
  - intros Hup Hdown.
    replace (Type_ E0 =? MOUSE_DOWN) with false
      by (symmetry; now apply Z.eqb_neq).
    replace (Type_ E0 =? MOUSE_UP) with true in HR
      by (symmetry; now apply Z.eqb_eq).
    destruct (MouseUpRecipients g) as [|r rest] eqn:ER.
    + cbn. exact HR.
    + change (0 <? Z.of_nat (length (r :: rest))) with true. cbv iota.
      cbn [snd app]. rewrite NotifyRecipients_who. exact HR.
  - intros Hdown Hup.
    replace (Type_ E0 =? MOUSE_DOWN) with true
      by (symmetry; now apply Z.eqb_eq).
    replace (Type_ E0 =? MOUSE_UP) with false in HR
      by (symmetry; now apply Z.eqb_neq).
    rewrite HR. cbn [length Z.of_nat Z.ltb Z.compare].
    destruct (NearestMatch g) as [n|]; [|left; reflexivity].
    right. destruct HN as (Model & Hin & Hn & Hm & Hv & Hh & He).
    exists Model. cbn [snd]. rewrite He, Hn. auto.
  - intros Hdown Hup.
    replace (Type_ E0 =? MOUSE_DOWN) with false
      by (symmetry; now apply Z.eqb_neq).
    replace (Type_ E0 =? MOUSE_UP) with false in HR
      by (symmetry; now apply Z.eqb_neq).
    rewrite HR. reflexivity.
Qed.

End Mouse.
End MouseFacts.

Module Base64Facts.
Import Base64.
Import ListFacts.

(** *** Reading a word *)

Lemma land_shifted_byte (c b : Z) : 0 <= b < 256 -> Z.land (c * 2 ^ 8) b = 0.
Proof.
  intros Hb. apply Z.bits_inj'. intros n Hn.
  rewrite Z.land_spec, Z.bits_0.
  destruct (Z.lt_ge_cases n 8) as [Hlo|Hhi].
  - rewrite Z.mul_pow2_bits_low by lia. reflexivity.
  - destruct (Z.eq_dec b 0) as [->|Hne].
    + rewrite Z.bits_0. apply andb_false_r.
    + rewrite (Z.bits_above_log2 b n); [apply andb_false_r | lia |].
      apply Z.log2_lt_pow2; [lia|].
      assert (2 ^ 8 <= 2 ^ n) by (apply Z.pow_le_mono_r; lia). lia.
Qed.

Lemma lor_shifted_byte (c b : Z) :
  0 <= b < 256 -> Z.lor (c * 2 ^ 8) b = c * 256 + b.
Proof.
  intros Hb. pose proof (Z.add_lor_land (c * 2 ^ 8) b) as H.
  rewrite land_shifted_byte in H by exact Hb. lia.
Qed.

Lemma byte_at_range (Bytes : list Byte.byte) (i : Z) :
  0 <= byte_at Bytes i < 256.
Proof.
  unfold byte_at. destruct (Bytes !! Z.to_nat i) as [x|]; [|lia].
  pose proof (Byte.to_N_bounded x). lia.
Qed.

Lemma byte_at_beyond (Bytes : list Byte.byte) (i : Z) :
  Z.of_nat (length Bytes) <= i -> byte_at Bytes i = 0.
Proof.
  intros H. unfold byte_at. rewrite lookup_ge_None_2 by lia. reflexivity.
Qed.

Lemma chunk_index (w b : Z) :
  0 <= w -> 0 <= b -> 3 * w + b < 2 ^ 31 ->
  size_t_to_int (wrap64 (wrap64 (3 * int_to_size_t w) + int_to_size_t b))
  = 3 * w + b.
Proof.
  intros Hw Hb Hi. unfold size_t_to_int.
  rewrite (ParallelDomainTaskChainFacts.int_to_size_t_nonneg w) by lia.
  rewrite (ParallelDomainTaskChainFacts.int_to_size_t_nonneg b) by lia.
  rewrite (wrap64_small (3 * w)) by lia.
  rewrite (wrap64_small (3 * w + b)) by lia.
  apply ParallelDomainTaskChainFacts.wrap_int_small. lia.
Qed.

Lemma ReadChunk_value (Bytes : list Byte.byte) (w : Z) :
  0 <= w -> 3 * w + 2 < 2 ^ 31 ->
  ReadChunk Bytes w
  = byte_at Bytes (3 * w) * 65536 + byte_at Bytes (3 * w + 1) * 256
    + byte_at Bytes (3 * w + 2).
Proof.
  intros Hw Hi. unfold ReadChunk.
  match goal with |- fold_left ?f _ _ = _ => set (F := f) end.
  assert (Hstep : forall c b,
             0 <= c < 2 ^ 16 -> 0 <= b <= 2 ->
             F c b = c * 256 + byte_at Bytes (3 * w + b)).
  { intros c b Hc Hb. unfold F. cbv zeta. rewrite (chunk_index w b) by lia.
    rewrite (ParallelDomainTaskChainFacts.int_to_size_t_nonneg (3 * w + b))
      by lia.
    rewrite Z.shiftl_mul_pow2 by lia. rewrite Z.mod_small by lia.
    pose proof (byte_at_range Bytes (3 * w + b)) as Hr.
    destruct (Z.ltb_spec (3 * w + b) (Z.of_nat (length Bytes))) as [Hlt|Hge].
    - unfold byte_at in *.
      destruct (Bytes !! Z.to_nat (3 * w + b)) as [x|].
      + now apply lor_shifted_byte.
      + lia.
    - rewrite byte_at_beyond by lia. lia. }
  cbn [fold_left].
  pose proof (byte_at_range Bytes (3 * w)) as H0.
  pose proof (byte_at_range Bytes (3 * w + 1)) as H1.
  pose proof (byte_at_range Bytes (3 * w + 2)) as H2.
  rewrite (Hstep 0 0) by lia.
  replace (3 * w + 0) with (3 * w) by lia.
  rewrite (Hstep _ 1) by lia.
  rewrite (Hstep _ 2) by lia.
  lia.
Qed.

Lemma ReadChunk_range (Bytes : list Byte.byte) (w : Z) :
  0 <= w -> 3 * w + 2 < 2 ^ 31 -> 0 <= ReadChunk Bytes w < 2 ^ 24.
Proof.
  intros Hw Hi. rewrite ReadChunk_value by assumption.
  pose proof (byte_at_range Bytes (3 * w)).
  pose proof (byte_at_range Bytes (3 * w + 1)).
  pose proof (byte_at_range Bytes (3 * w + 2)). lia.
Qed.

(** *** Writing the glyphs *)

Lemma alphabet_checked :
  forallb (fun n : nat =>
             match String.get n Base64 with
             | Some c => place c Base64 =? Z.of_nat n
             | None => false
             end)
          (seq 0 64)
  = true.
Proof. vm_compute. reflexivity. Qed.

Lemma glyph_get (g : Z) :
  0 <= g < 64 ->
  String.get (Z.to_nat g) Base64 = Some (glyph g)
  /\ place (glyph g) Base64 = g.
Proof.
  intros Hg. pose proof alphabet_checked as H.
  rewrite forallb_forall in H. specialize (H (Z.to_nat g)).
  unfold glyph.
  destruct (String.get (Z.to_nat g) Base64) as [c|].
  - split; [reflexivity|].
    assert (Hin : In (Z.to_nat g) (seq 0 64)) by (apply in_seq; lia).
    apply H in Hin. apply Z.eqb_eq in Hin. lia.
  - assert (Hin : In (Z.to_nat g) (seq 0 64)) by (apply in_seq; lia).
    apply H in Hin. discriminate.
Qed.

Lemma WriteGlyphs_value (Chunk : Z) (Encoded : list Ascii.ascii) :
  0 <= Chunk ->
  WriteGlyphs Chunk Encoded
  = Encoded ++ [glyph ((Chunk / 64 ^ 3) mod 64); glyph ((Chunk / 64 ^ 2) mod 64);
                glyph ((Chunk / 64) mod 64); glyph (Chunk mod 64)].
Proof.
  intros Hc. unfold WriteGlyphs.
  match goal with |- fold_left ?f _ _ = _ => set (F := f) end.
  assert (Hstep : forall (E : list Ascii.ascii) (k : Z),
             0 <= k <= 3 ->
             F E k = E ++ [glyph ((Chunk / 2 ^ (6 * (3 - k))) mod 64)]).
  { intros E k Hk. unfold F. cbv zeta. unfold size_t_to_int.
    rewrite (ParallelDomainTaskChainFacts.int_to_size_t_nonneg k) by lia.
    rewrite (wrap64_small (3 - k)) by lia.
    rewrite (ParallelDomainTaskChainFacts.wrap_int_small (3 - k)) by lia.
    rewrite (ParallelDomainTaskChainFacts.int_to_size_t_nonneg (3 - k)) by lia.
    rewrite (wrap64_small ((3 - k) * 6)) by lia.
    rewrite Z.shiftr_div_pow2 by lia.
    change 63 with (Z.ones 6). rewrite Z.land_ones by lia.
    change (2 ^ 6) with 64.
    replace ((3 - k) * 6) with (6 * (3 - k)) by lia.
    pose proof (Z.mod_pos_bound (Chunk / 2 ^ (6 * (3 - k))) 64 ltac:(lia)) as Hm.
    change (Z.of_nat (String.length Base64)) with 64.
    replace (_ <? 64) with true by (symmetry; apply Z.ltb_lt; lia).
    now rewrite (proj1 (glyph_get _ Hm)). }
  cbn [fold_left].
  rewrite (Hstep _ 0), (Hstep _ 1), (Hstep _ 2), (Hstep _ 3) by lia.
  rewrite <- !app_assoc. cbn [app].
  change (2 ^ (6 * (3 - 0))) with (64 ^ 3).
  change (2 ^ (6 * (3 - 1))) with (64 ^ 2).
  change (2 ^ (6 * (3 - 2))) with 64.
  change (2 ^ (6 * (3 - 3))) with 1. rewrite Z.div_1_r. reflexivity.
Qed.


Lemma chunk_digits (b0 b1 b2 : Z) :
  0 <= b0 < 256 -> 0 <= b1 < 256 -> 0 <= b2 < 256 ->
  ((b0 * 65536 + b1 * 256 + b2) / 64 ^ 3) mod 64 = b0 / 4
  /\ ((b0 * 65536 + b1 * 256 + b2) / 64 ^ 2) mod 64 = b0 mod 4 * 16 + b1 / 16
  /\ ((b0 * 65536 + b1 * 256 + b2) / 64) mod 64 = b1 mod 16 * 4 + b2 / 64
  /\ (b0 * 65536 + b1 * 256 + b2) mod 64 = b2 mod 64.
Proof.
  intros H0 H1 H2.
  change (64 ^ 3) with 262144. change (64 ^ 2) with 4096.
  repeat split; Z.div_mod_to_equations; lia.
Qed.

(** The glyphs of word [w]. *)
Lemma word_value (Bytes : list Byte.byte) (w : Z) (Encoded : list Ascii.ascii) :
  0 <= w -> 3 * w + 2 < 2 ^ 31 ->
  WriteGlyphs (ReadChunk Bytes w) Encoded
  = Encoded ++ word_glyphs (byte_at Bytes (3 * w)) (byte_at Bytes (3 * w + 1))
                           (byte_at Bytes (3 * w + 2)).
Proof.
  intros Hw Hi.
  pose proof (ReadChunk_range Bytes w Hw Hi) as Hr.
  rewrite WriteGlyphs_value by lia. rewrite ReadChunk_value by assumption.
  destruct (chunk_digits _ _ _ (byte_at_range Bytes (3 * w))
              (byte_at_range Bytes (3 * w + 1))
              (byte_at_range Bytes (3 * w + 2))) as (E3 & E2 & E1 & E0).
  rewrite E3, E2, E1, E0. reflexivity.
Qed.

Lemma EncodeWords_value (fuel : nat) (Bytes : list Byte.byte) (w : Z)
    (Encoded : list Ascii.ascii) :
  0 <= w -> 3 * (w + Z.of_nat fuel) <= 2 ^ 31 ->
  EncodeWords fuel Bytes w Encoded
  = Encoded
    ++ concat (map (fun k : nat =>
                      word_glyphs (byte_at Bytes (3 * (w + Z.of_nat k)))
                                  (byte_at Bytes (3 * (w + Z.of_nat k) + 1))
                                  (byte_at Bytes (3 * (w + Z.of_nat k) + 2)))
                   (seq 0 fuel)).
Proof.
  revert w Encoded. induction fuel as [|fuel IH]; intros w Encoded Hw Hb.
  - cbn. now rewrite app_nil_r.
  - cbn [EncodeWords]. rewrite IH by lia. rewrite word_value by lia.
    cbn [seq map concat]. rewrite <- seq_shift, map_map, <- app_assoc.
    f_equal. f_equal.
    + now replace (w + Z.of_nat 0) with w by lia.
    + f_equal. apply map_ext. intros k.
      now replace (w + 1 + Z.of_nat k) with (w + Z.of_nat (S k)) by lia.
Qed.

(** X17.  Below 2 GiB, [EncodeBase64] appends to [Encoded] the standard
    Base64 characters of [Bytes] taken three at a time, a missing byte
    at the end counting as zero, and writes no padding character: four
    characters for every started group of three bytes. *)
Theorem EncodeBase64_words (Bytes : list Byte.byte) (Encoded : list Ascii.ascii) :
  Z.of_nat (length Bytes) < 2 ^ 31 - 1 ->
  exists glyphs : list Ascii.ascii,
    EncodeBase64 Bytes Encoded = Some (Encoded ++ glyphs)
    /\ glyphs
       = concat (map (fun w : nat =>
                        word_glyphs (byte_at Bytes (3 * Z.of_nat w))
                                    (byte_at Bytes (3 * Z.of_nat w + 1))
                                    (byte_at Bytes (3 * Z.of_nat w + 2)))
                     (seq 0 (Z.to_nat ((Z.of_nat (length Bytes) + 2) / 3))))
    /\ Z.of_nat (length glyphs) = 4 * ((Z.of_nat (length Bytes) + 2) / 3).
Proof.
  intros Hn. unfold EncodeBase64.
  rewrite (wrap64_small (Z.of_nat (length Bytes) + 2)) by lia.
  set (Words := (Z.of_nat (length Bytes) + 2) / 3).
  assert (HW : 0 <= Words) by (apply Z.div_pos; lia).
  assert (HW3 : 3 * Words <= Z.of_nat (length Bytes) + 2)
    by (apply Z.mul_div_le; lia).
  replace (Words <=? 2 ^ 31 - 1) with true by (symmetry; apply Z.leb_le; lia).
  rewrite EncodeWords_value by lia.
  eexists. split; [reflexivity|]. split.
  - apply (f_equal (@concat _)). apply map_ext. intros w.
    now replace (0 + Z.of_nat w) with (Z.of_nat w) by lia.
  - assert (Hlen : forall (f : nat -> list Ascii.ascii) (l : list nat),
               (forall k, length (f k) = 4%nat) ->
               length (concat (map f l)) = (4 * length l)%nat).
    { intros f l Hf. induction l as [|x l IHl]; [reflexivity|].
      cbn [map concat]. rewrite length_app, Hf, IHl. cbn [length]. lia. }
    rewrite Hlen by reflexivity. rewrite length_seq. lia.
Qed.


(** *** Reading the bytes back *)

Lemma word_glyphs_inj (a0 a1 a2 b0 b1 b2 : Z) :
  0 <= a0 < 256 -> 0 <= a1 < 256 -> 0 <= a2 < 256 ->
  0 <= b0 < 256 -> 0 <= b1 < 256 -> 0 <= b2 < 256 ->
  word_glyphs a0 a1 a2 = word_glyphs b0 b1 b2 ->
  a0 = b0 /\ a1 = b1 /\ a2 = b2.
Proof.
  intros Ha0 Ha1 Ha2 Hb0 Hb1 Hb2 H. unfold word_glyphs in H.
  injection H as H3 H2 H1 H0.
  assert (Hp : forall x y, 0 <= x < 64 -> 0 <= y < 64 -> glyph x = glyph y -> x = y).
  { intros x y Hx Hy E.
    rewrite <- (proj2 (glyph_get x Hx)), <- (proj2 (glyph_get y Hy)).
    now rewrite E. }
  apply Hp in H3; [| Z.div_mod_to_equations; lia | Z.div_mod_to_equations; lia].
  apply Hp in H2; [| Z.div_mod_to_equations; lia | Z.div_mod_to_equations; lia].
  apply Hp in H1; [| Z.div_mod_to_equations; lia | Z.div_mod_to_equations; lia].
  apply Hp in H0; [| Z.div_mod_to_equations; lia | Z.div_mod_to_equations; lia].
  clear Hp. Z.div_mod_to_equations. lia.
Qed.

Lemma concat_words_inj (f g : nat -> list Ascii.ascii) (l : list nat) :
  (forall k, length (f k) = 4%nat) -> (forall k, length (g k) = 4%nat) ->
  concat (map f l) = concat (map g l) ->
  forall k, k ∈ l -> f k = g k.
Proof.
  intros Hf Hg. induction l as [|x l IH]; intros H k Hk.
  - now apply elem_of_nil in Hk.
  - cbn [map concat] in H.
    apply app_inj_1 in H; [|now rewrite Hf, Hg].
    destruct H as [Hx Hl].
    apply elem_of_cons in Hk. destruct Hk as [->|Hk]; [exact Hx|].
    now apply IH.
Qed.

Lemma byte_at_inj (A B : list Byte.byte) (i : nat) :
  (i < length A)%nat -> (i < length B)%nat ->
  byte_at A (Z.of_nat i) = byte_at B (Z.of_nat i) -> A !! i = B !! i.
Proof.
  intros HA HB. unfold byte_at. rewrite Nat2Z.id.
  destruct (lookup_lt_is_Some_2 A i HA) as [x ->].
  destruct (lookup_lt_is_Some_2 B i HB) as [y ->].
  intros E. f_equal.
  assert (E' : Byte.to_N x = Byte.to_N y) by lia.
  pose proof (Byte.of_to_N x) as Hx. rewrite E', Byte.of_to_N in Hx.
  now injection Hx.
Qed.

(** X18.  The encoding loses nothing but the length: two byte vectors of the
    same size, below 2 GiB, that encode to the same characters are the
    same vector. *)
Theorem EncodeBase64_injective (A B : list Byte.byte)
    (Encoded : list Ascii.ascii) :
  Z.of_nat (length A) < 2 ^ 31 - 1 -> length A = length B ->
  EncodeBase64 A Encoded = EncodeBase64 B Encoded -> A = B.
Proof.
  intros Hn Hlen H.
  destruct (EncodeBase64_words A Encoded Hn) as (ga & Ea & Ga & _).
  destruct (EncodeBase64_words B Encoded ltac:(lia)) as (gb & Eb & Gb & _).
  rewrite Ea, Eb in H. injection H as H. apply app_inv_head in H.
  rewrite Ga, Gb, <- Hlen in H.
  set (Words := (Z.of_nat (length A) + 2) / 3) in *.
  assert (HW : 0 <= Words) by (unfold Words; apply Z.div_pos; lia).
  assert (Hcover : Z.of_nat (length A) <= 3 * Words).
  { unfold Words. Z.div_mod_to_equations. lia. }
  pose proof
    (concat_words_inj
       (fun w : nat =>
          word_glyphs (byte_at A (3 * Z.of_nat w)) (byte_at A (3 * Z.of_nat w + 1))
                      (byte_at A (3 * Z.of_nat w + 2)))
       (fun w : nat =>
          word_glyphs (byte_at B (3 * Z.of_nat w)) (byte_at B (3 * Z.of_nat w + 1))
                      (byte_at B (3 * Z.of_nat w + 2)))
       _ (fun _ => eq_refl) (fun _ => eq_refl) H)
    as Hw.
  apply list_eq. intros i.
  destruct (Nat.lt_ge_cases i (length A)) as [Hi|Hi].
  - apply byte_at_inj; [exact Hi | lia |].
    assert (Hin : Z.to_nat (Z.of_nat i / 3) ∈ seq 0 (Z.to_nat Words)).
    { apply list_elem_of_In, in_seq.
      assert (0 <= Z.of_nat i / 3) by (apply Z.div_pos; lia).
      assert (Z.of_nat i / 3 < Words)
        by (apply Z.div_lt_upper_bound; lia).
      lia. }
    specialize (Hw _ Hin). cbn beta in Hw.
    assert (H0 : 0 <= Z.of_nat i / 3) by (apply Z.div_pos; lia).
    rewrite Z2Nat.id in Hw by lia.
    apply word_glyphs_inj in Hw; try apply byte_at_range.
    destruct Hw as (W0 & W1 & W2).
    pose proof (Z.div_mod (Z.of_nat i) 3 ltac:(lia)) as Hd.
    pose proof (Z.mod_pos_bound (Z.of_nat i) 3 ltac:(lia)) as Hm.
    assert (Hcase : Z.of_nat i mod 3 = 0 \/ Z.of_nat i mod 3 = 1
                    \/ Z.of_nat i mod 3 = 2) by lia.
    destruct Hcase as [Hc|[Hc|Hc]]; rewrite Hc in Hd.
    + replace (Z.of_nat i) with (3 * (Z.of_nat i / 3)) by lia. exact W0.
    + replace (Z.of_nat i) with (3 * (Z.of_nat i / 3) + 1) by lia. exact W1.
    + replace (Z.of_nat i) with (3 * (Z.of_nat i / 3) + 2) by lia. exact W2.
  - rewrite !lookup_ge_None_2 by lia. reflexivity.
Qed.

Lemma byte_at_zero_filled (Bytes : list Byte.byte) (k : nat) (i : Z) :
  0 <= i ->
  byte_at (Bytes ++ repeat Byte.x00 k) i = byte_at Bytes i.
Proof.
  intros Hi. unfold byte_at.
  destruct (Nat.lt_ge_cases (Z.to_nat i) (length Bytes)) as [Hlt|Hge].
  - now rewrite lookup_app_l by exact Hlt.
  - rewrite lookup_app_r by exact Hge.
    rewrite (lookup_ge_None_2 Bytes) by exact Hge.
    destruct (Nat.lt_ge_cases (Z.to_nat i - length Bytes) k) as [Hk|Hk].
    + now rewrite lookup_repeat_lt by exact Hk.
    + rewrite lookup_ge_None_2; [reflexivity|]. now rewrite repeat_length.
Qed.

(** X19.  No padding marks the end: zero bytes appended within the last
    group of three do not change the encoding, so the length of the
    input cannot be read back from it. *)
Theorem EncodeBase64_hides_trailing_zeros (Bytes : list Byte.byte) (k : nat)
    (Encoded : list Ascii.ascii) :
  Z.of_nat (length Bytes) + Z.of_nat k < 2 ^ 31 - 1 ->
  (Z.of_nat (length Bytes) + Z.of_nat k + 2) / 3
  = (Z.of_nat (length Bytes) + 2) / 3 ->
  EncodeBase64 (Bytes ++ repeat Byte.x00 k) Encoded = EncodeBase64 Bytes Encoded.
Proof.
  intros Hn Hw.
  destruct (EncodeBase64_words Bytes Encoded ltac:(lia)) as (g1 & E1 & G1 & _).
  destruct (EncodeBase64_words (Bytes ++ repeat Byte.x00 k) Encoded)
    as (g2 & E2 & G2 & _).
  { rewrite length_app, repeat_length. lia. }
  rewrite E1, E2. do 2 f_equal. rewrite G1, G2.
  rewrite length_app, repeat_length, Nat2Z.inj_add, Hw.
  f_equal. apply map_ext. intros w.
  rewrite !byte_at_zero_filled by lia. reflexivity.
Qed.

Import String.

Lemma EncodeBase64_words_witness :
  EncodeBase64 [Byte.x4d; Byte.x61; Byte.x6e; Byte.x4d] []
  = Some (list_ascii_of_string "TWFuTQAA"%string).
Proof.
  destruct (EncodeBase64_words [Byte.x4d; Byte.x61; Byte.x6e; Byte.x4d] [])
    as (g & E & G & _).
  - cbn. lia.
  - rewrite E, G. vm_compute. reflexivity.
Defined.

Lemma EncodeBase64_injective_witness :
  [Byte.x4d; Byte.x61] = [Byte.x4d; Byte.x61].
Proof.
  apply (EncodeBase64_injective [Byte.x4d; Byte.x61] [Byte.x4d; Byte.x61] []).
  - cbn. lia.
  - reflexivity.
  - reflexivity.
Defined.

Lemma EncodeBase64_hides_trailing_zeros_witness :
  EncodeBase64 ([Byte.x4d] ++ repeat Byte.x00 2) []
  = EncodeBase64 [Byte.x4d] [].
Proof.
  apply (EncodeBase64_hides_trailing_zeros [Byte.x4d] 2 []).
  - cbn. lia.
  - reflexivity.
Defined.

End Base64Facts.

Module ColorsFacts.
Import Colors.

(** X20.  [ColorSpaceName] and [FindColorSpace] undo one another on the five
    named color spaces: the name of a space is found again as that
    space, whatever [OutEncoding] held, and a name that is found is the
    name of the space reported.  A name that is not listed is not found
    and leaves [OutEncoding] as it was; [Count] has the name "error",
    which is not found either. *)
Theorem ColorSpace_names_round_trip :
  (forall Encoding OutEncoding : ColorSpace,
      Encoding <> Count ->
      FindColorSpace (ColorSpaceName Encoding) OutEncoding = (true, Encoding))
  /\ (forall (Name : String.string) (OutEncoding Found : ColorSpace),
        FindColorSpace Name OutEncoding = (true, Found) ->
        ColorSpaceName Found = Name /\ Found <> Count)
  /\ (forall (Name : String.string) (OutEncoding : ColorSpace),
        fst (FindColorSpace Name OutEncoding) = false ->
        FindColorSpace Name OutEncoding = (false, OutEncoding))
  /\ (forall OutEncoding : ColorSpace,
        FindColorSpace (ColorSpaceName Count) OutEncoding = (false, OutEncoding)).
Proof.
  split; [|split; [|split]].
  - intros Encoding OutEncoding H. destruct Encoding; try reflexivity.
    contradiction.
  - intros Name OutEncoding Found H.
    unfold FindColorSpace, EncodingNames in H. cbn [FindColorSpace_from fst snd] in H.
    repeat match type of H with
    | (if String.eqb ?n Name then _ else _) = _ =>
        destruct (String.eqb_spec n Name) as [<-|_];
          [injection H as <-; split; [reflexivity | discriminate]|]
    end.
    discriminate.
  - intros Name OutEncoding.
    unfold FindColorSpace, EncodingNames. cbn [FindColorSpace_from fst snd].
    repeat match goal with
    | |- context [String.eqb ?n Name] =>
        destruct (String.eqb n Name); [discriminate|]
    end.
    reflexivity.
  - reflexivity.
Qed.

End ColorsFacts.
